(** * Residual program materialization of Prepack: a shallow embedding

    This development embeds two classes of Prepack's serializer,
    [LazyObjectsSerializer] and [ResidualFunctions], and proves properties of
    the code they contain.

    Conventions of the embedding.
    - Heap values ([ObjectValue], [FunctionValue]), AST block statements and
      serialized bodies are JavaScript objects compared by reference.  They
      are represented by a reference (a natural number); what hangs off a
      mutable object lives in a store indexed by references.
    - A JavaScript [Map] iterates in the order of first insertion; a [Map]
      is an association list without repeated keys ([JSMap]), in which [set]
      keeps the place of a key that is already there.  The store of the
      serialized bodies, which is no [Map] of the program, is a [gmap].
    - JavaScript numbers that are counters or source offsets are integers
      far below 2^53, where double arithmetic is exact; they are [Z] or
      [nat].
    - Babel AST nodes built by the code are terms of [BabelNode], with the
      constructors named after the [babel-types] builders. *)

From Stdlib Require Import ZArith.
From stdpp Require Import base option list gmap strings pretty sorting.

Set Warnings "-register-all,-clear-no-such-hyp".

Local Open Scope string_scope.
Local Open Scope list_scope.
Local Open Scope nat_scope.
Local Open Scope stdpp_scope.

(** ** Babel AST nodes *)

(** The nodes the two classes build with [t.*].  [sourceExpression] and
    [sourceStatement] stand for an expression and a statement of the input
    program or built by a collaborator, whose shape the code never inspects
    (a statement of a function body, a serialized value, ...),
    [sourcePattern] for a formal parameter that is not an identifier (a
    destructuring pattern, a default, a rest element), and
    [functionBodyNode] for the block statement of a function of the input
    program, a node compared by reference.  [classExpressionRef] is a class
    expression node shared through [ResidualFunctions.classes]: the node is
    mutated after it has been handed out, so emitted code refers to it by
    the class prototype that keys it. *)
Inductive BabelNode : Type :=
| identifier (name : string)
| numericLiteral (value : Z)
| stringLiteral (value : string)
| nullLiteral
| thisExpression
| memberExpression (object property : BabelNode)
| callExpression (callee : BabelNode) (arguments : list BabelNode)
| newExpression (callee : BabelNode) (arguments : list BabelNode)
| functionExpression (params : list BabelNode) (body : BabelNode)
| blockStatement (body : list BabelNode)
| classMethod (kind : string) (key : BabelNode) (params : list BabelNode)
    (body : BabelNode) (computed static : bool)
| classExpressionRef (classPrototype : nat)
| variableDeclaration (id init : BabelNode)
| expressionStatement (expression : BabelNode)
| returnStatement (argument : BabelNode)
| breakStatement
| throwStatement (argument : BabelNode)
| switchStatement (discriminant : BabelNode) (cases : list BabelNode)
| switchCase (test : option BabelNode) (consequent : list BabelNode)
| functionBodyNode (block : nat)
| sourceExpression (tag : nat)
| sourceStatement (tag : nat)
| sourcePattern (tag : nat).

(** [node.type === "Identifier"] *)
Definition isIdentifier (n : BabelNode) : bool :=
  match n with identifier _ => true | _ => false end.

(** [t.isFunctionExpression(node)] *)
Definition isFunctionExpression (n : BabelNode) : bool :=
  match n with functionExpression _ _ => true | _ => false end.

(** [t.isCallExpression(node)] *)
Definition isCallExpression (n : BabelNode) : bool :=
  match n with callExpression _ _ => true | _ => false end.

(** [t.isClassExpression(node)] *)
Definition isClassExpression (n : BabelNode) : bool :=
  match n with classExpressionRef _ => true | _ => false end.

(** [t.isExpression(node)] *)
Definition isExpression (n : BabelNode) : bool :=
  match n with
  | identifier _ | numericLiteral _ | stringLiteral _ | nullLiteral | thisExpression
  | memberExpression _ _ | callExpression _ _ | newExpression _ _
  | functionExpression _ _ | classExpressionRef _ | sourceExpression _ => true
  | _ => false
  end.

(** ** JavaScript [Map] with its iteration order *)

Module JSMap.
Section defs.
Context {K V : Type} `{EqDecision K}.

Definition t := list (K * V).

Definition empty : list (K * V) := [].

Fixpoint get (m : list (K * V)) (k : K) : option V :=
  match m with
  | [] => None
  | (k', v) :: m' => if decide (k = k') then Some v else get m' k
  end.

Definition has (m : list (K * V)) (k : K) : bool :=
  match get m k with Some _ => true | None => false end.

(** [map.set(k, v)]: an existing key keeps its place, a new one goes last. *)
Fixpoint set (m : list (K * V)) (k : K) (v : V) : list (K * V) :=
  match m with
  | [] => [(k, v)]
  | (k', v') :: m' =>
      if decide (k = k') then (k, v) :: m' else (k', v') :: set m' k v
  end.

Definition keys (m : list (K * V)) : list K := m.*1.
Definition values (m : list (K * V)) : list V := m.*2.
Definition size (m : list (K * V)) : nat := length m.

(** The keys of a sequence in the order of their first occurrence. *)
Fixpoint first_occurrences (seen : list K) (l : list K) : list K :=
  match l with
  | [] => []
  | k :: l' =>
      if decide (k ∈ seen) then first_occurrences seen l'
      else k :: first_occurrences (k :: seen) l'
  end.

(** The last value a sequence of [set]s gives to a key. *)
Definition last_set (ops : list (K * V)) (k : K) : option V :=
  get (reverse ops) k.

Lemma get_set_eq m k v : get (set m k v) k = Some v.
Proof.
  induction m as [|[k' v'] m IH]; simpl.
  - by rewrite decide_True.
  - destruct (decide (k = k')) as [->|Hne]; simpl.
    + by rewrite decide_True.
    + by rewrite decide_False.
Qed.

Lemma get_set_ne m k k' v : k ≠ k' → get (set m k v) k' = get m k'.
Proof.
  intros Hne. induction m as [|[k0 v0] m IH]; simpl.
  - by rewrite decide_False.
  - destruct (decide (k = k0)) as [->|Hk]; simpl.
    + by rewrite !decide_False.
    + destruct (decide (k' = k0)); done.
Qed.

Lemma get_Some_elem m k v : get m k = Some v → (k, v) ∈ m.
Proof.
  induction m as [|[k' v'] m IH]; simpl; [done|].
  destruct (decide (k = k')) as [->|]; intros H.
  - injection H as ->. left.
  - right. by apply IH.
Qed.

Lemma get_None_keys m k : get m k = None ↔ k ∉ keys m.
Proof.
  unfold keys. induction m as [|[k' v'] m IH]; simpl.
  - split; [intros _; apply not_elem_of_nil|done].
  - rewrite not_elem_of_cons. destruct (decide (k = k')) as [->|Hne].
    + split; [done|]. by intros [? _].
    + rewrite IH. split; [done|]. by intros [_ ?].
Qed.

Lemma keys_set_old m k v : k ∈ keys m → keys (set m k v) = keys m.
Proof.
  unfold keys. induction m as [|[k' v'] m IH]; simpl.
  - by intros ?%elem_of_nil.
  - intros Hin. destruct (decide (k = k')) as [->|Hne]; simpl; [done|].
    f_equal. apply IH. apply elem_of_cons in Hin as [?|?]; done.
Qed.

Lemma keys_set_new m k v : k ∉ keys m → keys (set m k v) = keys m ++ [k].
Proof.
  unfold keys. induction m as [|[k' v'] m IH]; simpl; [done|].
  intros [Hne Hin]%not_elem_of_cons.
  rewrite decide_False by done. simpl. f_equal. by apply IH.
Qed.

Lemma NoDup_keys_set m k v : NoDup (keys m) → NoDup (keys (set m k v)).
Proof.
  intros Hnd. destruct (decide (k ∈ keys m)) as [Hin|Hnin].
  - by rewrite keys_set_old.
  - rewrite keys_set_new by done. apply NoDup_app. split_and!; [done| |apply NoDup_singleton].
    intros x Hx ->%list_elem_of_singleton. done.
Qed.
End defs.
End JSMap.

(** ** Serialized bodies and the emission context *)

Definition BodyRef := nat.
Definition ObjectValue := nat.
Definition FunctionValue := nat.

(** [SerializedBody] of [./types.js], as the object literal of
    [_serializeLazyObjectInitializer] spells it. *)
Record SerializedBody : Type := mkSerializedBody {
  body_type : string;
  parentBody : option BodyRef;
  entries : list BabelNode;
  done_ : bool
}.

(** Modelled from the spec: the emission context ([Emitter.js]) is not among
    the sources.  The spec (sections 2 and 9) describes it as body records
    with parent links, with entering and leaving a body, and "is the current
    body an offspring of X" as a walk along the parent links.  Bodies are
    mutable objects held by reference, so they live in a store. *)
Record Emitter : Type := mkEmitter {
  bodies : gmap BodyRef SerializedBody;
  _body : BodyRef
}.

Definition getBody (em : Emitter) : BodyRef := _body em.

(** [beginEmitting(dependency, targetBody)] makes [targetBody] current and
    returns the body that was current. *)
Definition beginEmitting (targetBody : BodyRef) (em : Emitter) : BodyRef * Emitter :=
  (_body em, mkEmitter (bodies em) targetBody).

(** [endEmitting(dependency, oldBody)] makes [oldBody] current again. *)
Definition endEmitting (oldBody : BodyRef) (em : Emitter) : Emitter :=
  mkEmitter (bodies em) oldBody.

(** The loop [while (currentBody !== undefined) { if (currentBody ===
    targetBody) return true; currentBody = currentBody.parentBody; } return
    false].  The loop does not end on cyclic parent links; [None] is a walk
    that ran out of fuel. *)
Fixpoint offspring_walk (fuel : nat) (bs : gmap BodyRef SerializedBody)
    (currentBody : option BodyRef) (targetBody : BodyRef) : option bool :=
  match currentBody with
  | None => Some false
  | Some c =>
      if decide (c = targetBody) then Some true
      else match fuel with
           | O => None
           | S fuel' => offspring_walk fuel' bs (bs !! c ≫= parentBody) targetBody
           end
  end.

(** A walk over acyclic links visits each body of the store at most once, so
    the size of the store is fuel enough ([offspring_walk_chain] below). *)
Definition isCurrentBodyOffspringOf (em : Emitter) (targetBody : BodyRef) : option bool :=
  offspring_walk (size (bodies em)) (bodies em) (Some (_body em)) targetBody.

(** [parent_chain bs c l]: [l] lists [c] and its ancestors, from [c] up to a
    body without parent. *)
Inductive parent_chain (bs : gmap BodyRef SerializedBody) : BodyRef → list BodyRef → Prop :=
| parent_chain_root c b :
    bs !! c = Some b → parentBody b = None → parent_chain bs c [c]
| parent_chain_step c b p l :
    bs !! c = Some b → parentBody b = Some p → parent_chain bs p l →
    parent_chain bs c (c :: l).

(** The statements of a body held by reference (a JavaScript reference never
    dangles; a reference outside the store reads as no statement). *)
Definition body_entries (bs : gmap BodyRef SerializedBody) (b : BodyRef) : list BabelNode :=
  match bs !! b with Some body => entries body | None => [] end.

(** Modelled from the spec: [getOrDefault] of [./utils.js] is not among the
    sources.  It returns the value the map holds for the key and, when there
    is none, stores and returns what the thunk computes (spec, section 3: a
    lazy id is "assigned on first request per object", and "a second request
    for the same object returns the same id").  The map is a field of the
    state [S], reached through [get_map] and [put_map]; the thunk may change
    the state. *)
Definition getOrDefault {S K V : Type} `{EqDecision K}
    (get_map : S → list (K * V)) (put_map : list (K * V) → S → S)
    (key : K) (defaultFn : S → V * S) (s : S) : V * S :=
  match JSMap.get (get_map s) key with
  | Some value => (value, s)
  | None =>
      let '(value, s') := defaultFn s in
      (value, put_map (JSMap.set (get_map s') key value) s')
  end.

(** ** [LazyObjectsSerializer] *)

Module LazyObjectsSerializer.

(** A heap value: an [ObjectValue] with its identity, or any other value. *)
Inductive Value : Type :=
| objectValue (obj : ObjectValue)
| otherValue (tag : nat).

Definition LAZY_OBJECTS_SERIALIZER_BODY_TYPE : string := "LazyObjectInitializer".

(** The fields of the class, with the two fields of the base class the
    overrides use ([emitter], [prelude]). *)
Record Serializer : Type := mkSerializer {
  emitter : Emitter;
  prelude : list BabelNode;
  _lazyObjectIdSeed : Z;
  _valueLazyIds : list (ObjectValue * Z);
  _lazyObjectInitializers : list (ObjectValue * BodyRef);
  _lazyObjectJSRuntimeName : BabelNode;
  _callbackLazyObjectParam : BabelNode;
  _initializationCallbackName : BabelNode
}.

Definition set_emitter (em : Emitter) (s : Serializer) : Serializer :=
  mkSerializer em (prelude s) (_lazyObjectIdSeed s) (_valueLazyIds s)
    (_lazyObjectInitializers s) (_lazyObjectJSRuntimeName s)
    (_callbackLazyObjectParam s) (_initializationCallbackName s).

Definition set_prelude (p : list BabelNode) (s : Serializer) : Serializer :=
  mkSerializer (emitter s) p (_lazyObjectIdSeed s) (_valueLazyIds s)
    (_lazyObjectInitializers s) (_lazyObjectJSRuntimeName s)
    (_callbackLazyObjectParam s) (_initializationCallbackName s).

Definition set_lazyObjectIdSeed (n : Z) (s : Serializer) : Serializer :=
  mkSerializer (emitter s) (prelude s) n (_valueLazyIds s)
    (_lazyObjectInitializers s) (_lazyObjectJSRuntimeName s)
    (_callbackLazyObjectParam s) (_initializationCallbackName s).

Definition set_valueLazyIds (m : list (ObjectValue * Z)) (s : Serializer) : Serializer :=
  mkSerializer (emitter s) (prelude s) (_lazyObjectIdSeed s) m
    (_lazyObjectInitializers s) (_lazyObjectJSRuntimeName s)
    (_callbackLazyObjectParam s) (_initializationCallbackName s).

Definition set_lazyObjectInitializers (m : list (ObjectValue * BodyRef)) (s : Serializer)
    : Serializer :=
  mkSerializer (emitter s) (prelude s) (_lazyObjectIdSeed s) (_valueLazyIds s)
    m (_lazyObjectJSRuntimeName s)
    (_callbackLazyObjectParam s) (_initializationCallbackName s).

(** The constructor, after [super(...)] has set up [emitter] and [prelude];
    [lazyObjectsRuntime] is [this._options.lazyObjectsRuntime], which the
    constructor requires to be present. *)
Definition constructor (em : Emitter) (prelude0 : list BabelNode)
    (lazyObjectsRuntime : string) : Serializer :=
  mkSerializer em prelude0 1%Z JSMap.empty JSMap.empty
    (identifier lazyObjectsRuntime) (identifier "obj")
    (identifier "__initializerCallback").

(** [this._lazyObjectIdSeed++] *)
Definition next_lazyObjectIdSeed (s : Serializer) : Z * Serializer :=
  (_lazyObjectIdSeed s, set_lazyObjectIdSeed (_lazyObjectIdSeed s + 1)%Z s).

Definition _getValueLazyId (obj : ObjectValue) (s : Serializer) : Z * Serializer :=
  getOrDefault _valueLazyIds set_valueLazyIds obj next_lazyObjectIdSeed s.

(** The id requests of a pass, in order: [_valueLazyIds] and
    [_lazyObjectIdSeed] are fields of this class that no other method
    writes. *)
Fixpoint requestLazyIds (objs : list ObjectValue) (s : Serializer) : list Z * Serializer :=
  match objs with
  | [] => ([], s)
  | obj :: objs' =>
      let '(lazyId, s1) := _getValueLazyId obj s in
      let '(lazyIds, s2) := requestLazyIds objs' s1 in
      (lazyId :: lazyIds, s2)
  end.

Definition _serializeLazyObjectInitializerSwitchCase (obj : ObjectValue)
    (initializer : BodyRef) (s : Serializer) : BabelNode * Serializer :=
  let caseBody := body_entries (bodies (emitter s)) initializer ++ [breakStatement] in
  let '(lazyId, s1) := _getValueLazyId obj s in
  (switchCase (Some (numericLiteral lazyId)) caseBody, s1).

(** The loop [for (const [obj, initializer] of this._lazyObjectInitializers)
    switchCases.push(...)]. *)
Fixpoint serializeSwitchCases (inits : list (ObjectValue * BodyRef)) (s : Serializer)
    : list BabelNode * Serializer :=
  match inits with
  | [] => ([], s)
  | (obj, initializer) :: inits' =>
      let '(c, s1) := _serializeLazyObjectInitializerSwitchCase obj initializer s in
      let '(cs, s2) := serializeSwitchCases inits' s1 in
      (c :: cs, s2)
  end.

Definition defaultCase : BabelNode :=
  switchCase None
    [throwStatement (newExpression (identifier "Error") [stringLiteral "Unknown lazy id"])].

Definition _serializeInitializationCallback (s : Serializer) : BabelNode * Serializer :=
  let '(cases, s1) := serializeSwitchCases (_lazyObjectInitializers s) s in
  let switchCases := cases ++ [defaultCase] in
  let selector := identifier "id" in
  let body := [switchStatement selector switchCases] in
  let params := [_callbackLazyObjectParam s1; selector] in
  let initializerCallbackFunction := functionExpression params (blockStatement body) in
  (variableDeclaration (_initializationCallbackName s1) initializerCallbackFunction, s1).

Definition _serializeRegisterInitializationCallback (s : Serializer) : BabelNode :=
  expressionStatement
    (callExpression
       (memberExpression (_lazyObjectJSRuntimeName s) (identifier "setLazyObjectInitializer"))
       [_initializationCallbackName s]).

Definition _serializeCreateLazyObject (obj : ObjectValue) (s : Serializer)
    : BabelNode * Serializer :=
  let '(lazyId, s1) := _getValueLazyId obj s in
  (callExpression
     (memberExpression (_lazyObjectJSRuntimeName s1) (identifier "createLazyObject"))
     [numericLiteral lazyId], s1).

Definition _isEmittingIntoLazyObjectInitializerBody (obj : ObjectValue) (s : Serializer)
    : option bool :=
  match JSMap.get (_lazyObjectInitializers s) obj with
  | None => Some false
  | Some objLazyBody => isCurrentBodyOffspringOf (emitter s) objLazyBody
  end.

Definition postGeneratorSerialization (s : Serializer) : Serializer :=
  if decide (0 < JSMap.size (_lazyObjectInitializers s))%nat then
    let '(callback, s1) := _serializeInitializationCallback s in
    let s2 := set_prelude (prelude s1 ++ [callback]) s1 in
    set_prelude (prelude s2 ++ [_serializeRegisterInitializationCallback s2]) s2
  else s.

(** The [set]s a pass performs on [_lazyObjectInitializers], in order,
    starting from the constructor's empty map: [serializeValueRawObject] is
    the only writer of the field. *)
Definition recordInitializers (selections : list (ObjectValue * BodyRef))
    (m : list (ObjectValue * BodyRef)) : list (ObjectValue * BodyRef) :=
  foldl (λ m '(obj, body), JSMap.set m obj body) m selections.

(** The methods inherited from [ResidualHeapSerializer] (not among the
    sources) that the overrides call through [super] or [this]. *)
Section overrides.
Variable super_getSerializeObjectIdentifier : Value → BabelNode.
Variable _emitObjectProperties : ObjectValue → Serializer → Serializer.
Variable super_serializeValueRawObject :
  ObjectValue → bool → option (BodyRef → Serializer → Serializer) →
  Serializer → BabelNode * Serializer.
Variable temporalAlias : ObjectValue → option nat.

Definition _serializeLazyObjectInitializer (obj : ObjectValue)
    (emitIntegrityCommand : option (BodyRef → Serializer → Serializer))
    (s : Serializer) : BodyRef * Serializer :=
  let initializerBody := fresh (dom (bodies (emitter s))) in
  let em0 := mkEmitter
    (<[initializerBody :=
        mkSerializedBody LAZY_OBJECTS_SERIALIZER_BODY_TYPE None [] false]>
       (bodies (emitter s))) (_body (emitter s)) in
  let '(oldBody, em1) := beginEmitting initializerBody em0 in
  let s1 := set_emitter em1 s in
  let s2 := _emitObjectProperties obj s1 in
  let s3 := match emitIntegrityCommand with
            | Some cmd => cmd (getBody (emitter s2)) s2
            | None => s2
            end in
  (initializerBody, set_emitter (endEmitting oldBody (emitter s3)) s3).

Definition getSerializeObjectIdentifier (val : Value) (s : Serializer) : option BabelNode :=
  match val with
  | objectValue obj =>
      inside ← _isEmittingIntoLazyObjectInitializerBody obj s;
      Some (if inside : bool then _callbackLazyObjectParam s
            else super_getSerializeObjectIdentifier val)
  | otherValue _ => Some (super_getSerializeObjectIdentifier val)
  end.

Definition serializeValueRawObject (obj : ObjectValue) (skipPrototype : bool)
    (emitIntegrityCommand : option (BodyRef → Serializer → Serializer))
    (s : Serializer) : BabelNode * Serializer :=
  match temporalAlias obj with
  | Some _ => super_serializeValueRawObject obj skipPrototype emitIntegrityCommand s
  | None =>
      let '(body, s1) := _serializeLazyObjectInitializer obj emitIntegrityCommand s in
      let s2 := set_lazyObjectInitializers (JSMap.set (_lazyObjectInitializers s1) obj body) s1 in
      _serializeCreateLazyObject obj s2
  end.
End overrides.

(** *** The parent chain and the offspring walk *)

Lemma parent_chain_head bs c l : parent_chain bs c l → ∃ l', l = c :: l'.
Proof. destruct 1; eauto. Qed.

Lemma parent_chain_functional bs c l1 l2 :
  parent_chain bs c l1 → parent_chain bs c l2 → l1 = l2.
Proof.
  intros H1. revert l2. induction H1 as [c b Hb Hp|c b p l Hb Hp Hc IH]; intros l2 H2.
  - inversion H2; simplify_eq; done.
  - inversion H2; simplify_eq. f_equal. by apply IH.
Qed.

Lemma parent_chain_suffix bs c l x :
  parent_chain bs c l → x ∈ l → ∃ l', parent_chain bs x l' ∧ l' `suffix_of` l.
Proof.
  induction 1 as [c b Hb Hp|c b p l Hb Hp Hc IH]; intros Hx.
  - apply list_elem_of_singleton in Hx as ->. exists [c]. split; [|done].
    by eapply parent_chain_root.
  - apply elem_of_cons in Hx as [->|Hx].
    + exists (c :: l). split; [|done]. by eapply parent_chain_step.
    + destruct (IH Hx) as (l' & Hl' & Hsuf). exists l'. split; [done|].
      by apply suffix_cons_r.
Qed.

Lemma parent_chain_NoDup bs c l : parent_chain bs c l → NoDup l.
Proof.
  induction 1 as [c b Hb Hp|c b p l Hb Hp Hc IH].
  - apply NoDup_singleton.
  - constructor; [|done]. intros Hin.
    destruct (parent_chain_suffix _ _ _ _ Hc Hin) as (l' & Hl' & Hsuf).
    assert (l' = c :: l) as ->.
    { eapply parent_chain_functional; [done|]. by eapply parent_chain_step. }
    apply suffix_length in Hsuf. simpl in Hsuf. lia.
Qed.

Lemma parent_chain_in_store bs c l x : parent_chain bs c l → x ∈ l → is_Some (bs !! x).
Proof.
  induction 1 as [c b Hb Hp|c b p l Hb Hp Hc IH]; intros Hx.
  - apply list_elem_of_singleton in Hx as ->. eauto.
  - apply elem_of_cons in Hx as [->|Hx]; eauto.
Qed.

Lemma parent_chain_length bs c l : parent_chain bs c l → length l ≤ size bs.
Proof.
  intros Hc. rewrite <-size_dom.
  change (length l ≤ length (elements (dom bs))).
  apply submseteq_length, NoDup_submseteq; [by eapply parent_chain_NoDup|].
  intros x Hx. apply elem_of_elements, elem_of_dom. by eapply parent_chain_in_store.
Qed.

(** A body without parent can only be the last body of a chain. *)
Lemma parent_chain_root_last bs c l x b :
  parent_chain bs c l → x ∈ l → bs !! x = Some b → parentBody b = None →
  last l = Some x.
Proof.
  induction 1 as [c b' Hb Hp|c b' p l Hb Hp Hc IH]; intros Hx Hxb Hroot.
  - by apply list_elem_of_singleton in Hx as ->.
  - destruct (parent_chain_head _ _ _ Hc) as [l' ->].
    apply elem_of_cons in Hx as [->|Hx]; [congruence|].
    rewrite last_cons_cons. by apply IH.
Qed.

Lemma offspring_walk_chain bs c l target fuel :
  parent_chain bs c l → length l ≤ fuel →
  offspring_walk fuel bs (Some c) target = Some (bool_decide (target ∈ l)).
Proof.
  intros Hc. revert fuel.
  induction Hc as [c b Hb Hp|c b p l Hb Hp Hc IH]; intros fuel Hlen;
    (destruct fuel as [|fuel]; [simpl in Hlen; lia|]); simpl in *;
    destruct (decide (c = target)) as [->|Hne].
  - by rewrite bool_decide_eq_true_2 by set_solver.
  - rewrite Hb. simpl. rewrite Hp.
    rewrite bool_decide_eq_false_2 by (intros ?%list_elem_of_singleton; congruence).
    by destruct fuel.
  - by rewrite bool_decide_eq_true_2 by set_solver.
  - rewrite Hb. simpl. rewrite Hp.
    rewrite IH by lia. f_equal. apply bool_decide_ext.
    rewrite elem_of_cons. split; [auto|]. intros [?|?]; [congruence|done].
Qed.

Lemma isCurrentBodyOffspringOf_chain em l target :
  parent_chain (bodies em) (_body em) l →
  isCurrentBodyOffspringOf em target = Some (bool_decide (target ∈ l)).
Proof.
  intros Hc. apply offspring_walk_chain; [done|]. by eapply parent_chain_length.
Qed.

(** *** Lazy ids *)

(** What holds of the id allocator between two requests: the recorded ids lie
    between 1 and the seed, and no id is recorded for two objects. *)
Definition ids_ok (s : Serializer) : Prop :=
  (1 ≤ _lazyObjectIdSeed s)%Z ∧
  (∀ o lazyId, JSMap.get (_valueLazyIds s) o = Some lazyId →
     (1 ≤ lazyId < _lazyObjectIdSeed s)%Z) ∧
  (∀ o1 o2 lazyId, JSMap.get (_valueLazyIds s) o1 = Some lazyId →
     JSMap.get (_valueLazyIds s) o2 = Some lazyId → o1 = o2).

(** [s'] records every id that [s] records. *)
Definition ids_extend (s s' : Serializer) : Prop :=
  ∀ o lazyId, JSMap.get (_valueLazyIds s) o = Some lazyId →
    JSMap.get (_valueLazyIds s') o = Some lazyId.

Lemma ids_ok_constructor em p rt : ids_ok (constructor em p rt).
Proof. split_and!; simpl; [lia|done..]. Qed.

Lemma _getValueLazyId_ok obj s lazyId s' :
  ids_ok s → _getValueLazyId obj s = (lazyId, s') →
  ids_ok s' ∧ ids_extend s s' ∧ JSMap.get (_valueLazyIds s') obj = Some lazyId.
Proof.
  intros (Hseed & Hrange & Hinj). unfold _getValueLazyId, getOrDefault.
  destruct (JSMap.get (_valueLazyIds s) obj) as [v|] eqn:Hget; simpl.
  - intros [= <- <-]. split_and!; [by split_and!|by intros ??|done].
  - intros [= <- <-]. split_and!; [unfold ids_ok; simpl; split_and!|..].
    + lia.
    + intros o i. destruct (decide (obj = o)) as [<-|Hne].
      * rewrite JSMap.get_set_eq. intros [= <-]. lia.
      * rewrite JSMap.get_set_ne by done. intros ?%Hrange. lia.
    + intros o1 o2 i.
      destruct (decide (obj = o1)) as [<-|Hne1]; destruct (decide (obj = o2)) as [<-|Hne2];
        rewrite ?JSMap.get_set_eq, ?JSMap.get_set_ne by done; [done|..].
      * intros [= <-] ?%Hrange. lia.
      * intros ?%Hrange [= <-]. lia.
      * apply Hinj.
    + intros o i Ho. simpl. rewrite JSMap.get_set_ne by congruence. done.
    + apply JSMap.get_set_eq.
Qed.

Lemma requestLazyIds_ok objs s lazyIds s' :
  ids_ok s → requestLazyIds objs s = (lazyIds, s') →
  ids_ok s' ∧ ids_extend s s' ∧
  Forall2 (λ o lazyId, JSMap.get (_valueLazyIds s') o = Some lazyId) objs lazyIds.
Proof.
  revert s lazyIds s'. induction objs as [|obj objs IH]; intros s lazyIds s' Hok; simpl.
  - intros [= <- <-]. split_and!; [done|by intros ??|constructor].
  - destruct (_getValueLazyId obj s) as [i s1] eqn:H1.
    destruct (requestLazyIds objs s1) as [ids s2] eqn:H2. intros [= <- <-].
    destruct (_getValueLazyId_ok _ _ _ _ Hok H1) as (Hok1 & Hext1 & Hget1).
    destruct (IH _ _ _ Hok1 H2) as (Hok2 & Hext2 & Hall).
    split_and!; [done|intros ???; by apply Hext2, Hext1|].
    constructor; [by apply Hext2|done].
Qed.

(** C2.  Lazy id assignment within one pass.  Starting from the constructor's
    state, any sequence of id requests answers every request with an integer
    (one id per request), every id is positive, and two requests get the same
    id exactly when they are for the same object: a repeated request for an
    object returns the id of its first request, and distinct objects get
    distinct ids. *)
Theorem lazy_id_total_stable_injective em p rt (objs : list ObjectValue)
    (i j : nat) (o1 o2 : ObjectValue) (id1 id2 : Z) :
  objs !! i = Some o1 → objs !! j = Some o2 →
  (requestLazyIds objs (constructor em p rt)).1 !! i = Some id1 →
  (requestLazyIds objs (constructor em p rt)).1 !! j = Some id2 →
  length (requestLazyIds objs (constructor em p rt)).1 = length objs ∧
  (1 ≤ id1)%Z ∧ (o1 = o2 ↔ id1 = id2).
Proof.
  destruct (requestLazyIds objs (constructor em p rt)) as [lazyIds s'] eqn:Hrun. simpl.
  intros Hi Hj Hid1 Hid2.
  destruct (requestLazyIds_ok _ _ _ _ (ids_ok_constructor em p rt) Hrun)
    as ((Hseed & Hrange & Hinj) & _ & Hall).
  pose proof (Forall2_lookup_lr _ _ _ _ _ _ Hall Hi Hid1) as Hg1.
  pose proof (Forall2_lookup_lr _ _ _ _ _ _ Hall Hj Hid2) as Hg2.
  simpl in *. split_and!.
  - symmetry. by eapply Forall2_length.
  - apply Hrange in Hg1. lia.
  - split; [intros <-; congruence|intros <-; by eapply Hinj].
Qed.

Lemma lazy_id_total_stable_injective_witness :
  length (requestLazyIds [5; 7; 5] (constructor (mkEmitter ∅ 0) [] "rt")).1 = 3 ∧
  (1 ≤ 1)%Z ∧ (5 = 5 ↔ 1%Z = 1%Z).
Proof.
  apply (lazy_id_total_stable_injective (mkEmitter ∅ 0) [] "rt" [5; 7; 5] 0 2 5 5 1 1);
    reflexivity.
Defined.

(** *** Which identifier stands for an object *)

Lemma getSerializeObjectIdentifier_lazy super s chain o b :
  parent_chain (bodies (emitter s)) (_body (emitter s)) chain →
  JSMap.get (_lazyObjectInitializers s) o = Some b →
  getSerializeObjectIdentifier super (objectValue o) s =
    Some (if bool_decide (b ∈ chain) then _callbackLazyObjectParam s
          else super (objectValue o)).
Proof.
  intros Hc Hget. unfold getSerializeObjectIdentifier, _isEmittingIntoLazyObjectInitializerBody.
  rewrite Hget. by erewrite isCurrentBodyOffspringOf_chain.
Qed.

Lemma getSerializeObjectIdentifier_eager super s val :
  (∀ o, val = objectValue o → JSMap.get (_lazyObjectInitializers s) o = None) →
  getSerializeObjectIdentifier super val s = Some (super val).
Proof.
  intros Hnone. destruct val as [o|n]; [|done]. simpl.
  unfold _isEmittingIntoLazyObjectInitializerBody. by rewrite (Hnone o eq_refl).
Qed.

(** [val] is a recorded lazy object and the current body, whose ancestors
    [chain] lists, is its initializer body or an offspring of it. *)
Definition inside_own_initializer (s : Serializer) (chain : list BodyRef) (val : Value) : Prop :=
  ∃ o b, val = objectValue o ∧
         JSMap.get (_lazyObjectInitializers s) o = Some b ∧ b ∈ chain.

Lemma getSerializeObjectIdentifier_cases super s chain val :
  parent_chain (bodies (emitter s)) (_body (emitter s)) chain →
  (inside_own_initializer s chain val ∧
     getSerializeObjectIdentifier super val s = Some (_callbackLazyObjectParam s)) ∨
  (¬ inside_own_initializer s chain val ∧
     getSerializeObjectIdentifier super val s = Some (super val)).
Proof.
  intros Hc. destruct val as [o|n].
  - destruct (JSMap.get (_lazyObjectInitializers s) o) as [b|] eqn:Hget.
    + rewrite (getSerializeObjectIdentifier_lazy _ _ _ _ _ Hc Hget).
      destruct (decide (b ∈ chain)) as [Hin|Hnin].
      * left. rewrite bool_decide_eq_true_2 by done. split; [|done]. by exists o, b.
      * right. rewrite bool_decide_eq_false_2 by done. split; [|done].
        intros (o' & b' & [= <-] & Hg & Hin). congruence.
    + right. split.
      * intros (o' & b' & [= <-] & Hg & Hin). congruence.
      * apply getSerializeObjectIdentifier_eager. by intros ? [= <-].
  - right. split; [|done]. by intros (o' & b' & [=] & _).
Qed.

(** C3.  Self-reference substitution.  Let the current body have a finite
    chain of ancestors [chain] (the current body first), and let the normal
    identifier of a value never be the callback's parameter.  Then
    [getSerializeObjectIdentifier] returns the parameter exactly for an
    object recorded in [_lazyObjectInitializers] whose initializer body is
    the current body or one of its ancestors; for every other value and in
    every other position it returns the normal identifier: for a value that
    is not a recorded lazy object, and for a lazy object while the current
    body is inside the initializer body of a different lazy object
    (initializer bodies are created without parent, one per object). *)
Theorem self_reference_substitution (super : Value → BabelNode) (s : Serializer)
    (chain : list BodyRef) :
  parent_chain (bodies (emitter s)) (_body (emitter s)) chain →
  (∀ v, super v ≠ _callbackLazyObjectParam s) →
  (∀ val,
     (getSerializeObjectIdentifier super val s = Some (_callbackLazyObjectParam s) ↔
        inside_own_initializer s chain val) ∧
     (getSerializeObjectIdentifier super val s = Some (super val) ↔
        ¬ inside_own_initializer s chain val)) ∧
  (∀ o o2 b b2 body body2,
     JSMap.get (_lazyObjectInitializers s) o = Some b →
     JSMap.get (_lazyObjectInitializers s) o2 = Some b2 →
     b ≠ b2 →
     bodies (emitter s) !! b = Some body → parentBody body = None →
     bodies (emitter s) !! b2 = Some body2 → parentBody body2 = None →
     b2 ∈ chain →
     getSerializeObjectIdentifier super (objectValue o) s = Some (super (objectValue o))).
Proof.
  intros Hc Hsuper. split.
  - intros val.
    destruct (getSerializeObjectIdentifier_cases super s chain val Hc)
      as [[Hin Heq]|[Hnin Heq]]; rewrite Heq; split; split; try done.
    + intros [= Hbad]. by destruct (Hsuper val).
    + intros [= Hbad]. by destruct (Hsuper val).
  - intros o o2 b b2 body body2 Hget Hget2 Hne Hb Hroot Hb2 Hroot2 Hin2.
    rewrite (getSerializeObjectIdentifier_lazy _ _ _ _ _ Hc Hget).
    rewrite bool_decide_eq_false_2; [done|]. intros Hin.
    pose proof (parent_chain_root_last _ _ _ _ _ Hc Hin Hb Hroot) as Hl.
    pose proof (parent_chain_root_last _ _ _ _ _ Hc Hin2 Hb2 Hroot2) as Hl2.
    congruence.
Qed.

(** A pass in the middle of the initializer of lazy object 10: body 1 is its
    initializer body, body 2 a conditional branch inside it (the current
    body), body 3 the initializer body of lazy object 11, body 0 the main
    body. *)
Definition example_bodies : gmap BodyRef SerializedBody :=
  <[0 := mkSerializedBody "MainGenerator" None [] false]>
  (<[1 := mkSerializedBody LAZY_OBJECTS_SERIALIZER_BODY_TYPE None [sourceStatement 0] false]>
  (<[2 := mkSerializedBody "ConditionalAssignmentBranch" (Some 1) [] false]>
  (<[3 := mkSerializedBody LAZY_OBJECTS_SERIALIZER_BODY_TYPE None
          [sourceStatement 1; sourceStatement 2] false]> ∅))).

Definition example_serializer : Serializer :=
  mkSerializer (mkEmitter example_bodies 2) [] 3%Z [(10, 1%Z); (11, 2%Z)]
    [(10, 1); (11, 3)] (identifier "LazyObjectsRuntime") (identifier "obj")
    (identifier "__initializerCallback").

Definition example_super (val : Value) : BabelNode :=
  match val with
  | objectValue o => sourceExpression o
  | otherValue n => sourceExpression n
  end.

Lemma self_reference_substitution_witness :
  (∀ val,
     (getSerializeObjectIdentifier example_super val example_serializer =
        Some (_callbackLazyObjectParam example_serializer) ↔
        inside_own_initializer example_serializer [2; 1] val) ∧
     (getSerializeObjectIdentifier example_super val example_serializer =
        Some (example_super val) ↔
        ¬ inside_own_initializer example_serializer [2; 1] val)) ∧
  (∀ o o2 b b2 body body2,
     JSMap.get (_lazyObjectInitializers example_serializer) o = Some b →
     JSMap.get (_lazyObjectInitializers example_serializer) o2 = Some b2 →
     b ≠ b2 →
     bodies (emitter example_serializer) !! b = Some body → parentBody body = None →
     bodies (emitter example_serializer) !! b2 = Some body2 → parentBody body2 = None →
     b2 ∈ [2; 1] →
     getSerializeObjectIdentifier example_super (objectValue o) example_serializer =
       Some (example_super (objectValue o))).
Proof.
  apply (self_reference_substitution example_super example_serializer [2; 1]).
  - eapply parent_chain_step; [reflexivity|reflexivity|].
    eapply parent_chain_root; reflexivity.
  - intros [o|n]; simpl; discriminate.
Defined.

Example self_reference_inside_own_body :
  getSerializeObjectIdentifier example_super (objectValue 10) example_serializer =
    Some (identifier "obj") ∧
  getSerializeObjectIdentifier example_super (objectValue 11) example_serializer =
    Some (sourceExpression 11).
Proof. split; reflexivity. Qed.

(** *** The end-of-pass step *)

Lemma _getValueLazyId_frame obj s :
  emitter (_getValueLazyId obj s).2 = emitter s ∧
  prelude (_getValueLazyId obj s).2 = prelude s ∧
  _lazyObjectInitializers (_getValueLazyId obj s).2 = _lazyObjectInitializers s ∧
  _lazyObjectJSRuntimeName (_getValueLazyId obj s).2 = _lazyObjectJSRuntimeName s ∧
  _callbackLazyObjectParam (_getValueLazyId obj s).2 = _callbackLazyObjectParam s ∧
  _initializationCallbackName (_getValueLazyId obj s).2 = _initializationCallbackName s ∧
  ids_extend s (_getValueLazyId obj s).2 ∧
  JSMap.get (_valueLazyIds (_getValueLazyId obj s).2) obj = Some (_getValueLazyId obj s).1.
Proof.
  unfold _getValueLazyId, getOrDefault.
  destruct (JSMap.get (_valueLazyIds s) obj) as [v|] eqn:Hget; simpl.
  - split_and!; try done. by intros ??.
  - split_and!; try done.
    + intros o i Ho. simpl. rewrite JSMap.get_set_ne by congruence. done.
    + apply JSMap.get_set_eq.
Qed.

(** The switch cases built for the entries [inits] of the map: one case per
    entry, in order, holding the statements of the entry's body followed by
    [break], under the entry's lazy id. *)
Lemma serializeSwitchCases_spec inits s :
  emitter (serializeSwitchCases inits s).2 = emitter s ∧
  prelude (serializeSwitchCases inits s).2 = prelude s ∧
  _lazyObjectInitializers (serializeSwitchCases inits s).2 = _lazyObjectInitializers s ∧
  _lazyObjectJSRuntimeName (serializeSwitchCases inits s).2 = _lazyObjectJSRuntimeName s ∧
  _callbackLazyObjectParam (serializeSwitchCases inits s).2 = _callbackLazyObjectParam s ∧
  _initializationCallbackName (serializeSwitchCases inits s).2 = _initializationCallbackName s ∧
  ids_extend s (serializeSwitchCases inits s).2 ∧
  Forall2 (λ '(obj, initializer) c, ∃ lazyId,
      JSMap.get (_valueLazyIds (serializeSwitchCases inits s).2) obj = Some lazyId ∧
      c = switchCase (Some (numericLiteral lazyId))
            (body_entries (bodies (emitter s)) initializer ++ [breakStatement]))
    inits (serializeSwitchCases inits s).1.
Proof.
  revert s. induction inits as [|[obj b] inits IH]; intros s; simpl.
  - split_and!; try done. by intros ??.
  - unfold _serializeLazyObjectInitializerSwitchCase.
    pose proof (_getValueLazyId_frame obj s) as (He & Hp & Hi & Hr & Hc & Hn & Hext & Hget).
    destruct (_getValueLazyId obj s) as [i s1]. simpl in *.
    pose proof (IH s1) as (He' & Hp' & Hi' & Hr' & Hc' & Hn' & Hext' & Hall).
    destruct (serializeSwitchCases inits s1) as [cs s2]. simpl in *.
    split_and!; try congruence.
    + intros ???. by apply Hext', Hext.
    + constructor.
      * exists i. split; [by apply Hext'|done].
      * rewrite <-He. done.
Qed.

(** C4.  The end-of-pass step appends the two lazy-runtime statements (the
    declaration of the initializer callback and the call that registers it
    with [runtime.setLazyObjectInitializer]) to the prelude if and only if at
    least one object was recorded as lazy; when none was, the step changes
    nothing, so it adds neither statement. *)
Theorem lazy_runtime_statements_iff (s : Serializer) :
  (prelude (postGeneratorSerialization s) =
     prelude s ++
       [(_serializeInitializationCallback s).1;
        expressionStatement
          (callExpression
             (memberExpression (_lazyObjectJSRuntimeName s)
                (identifier "setLazyObjectInitializer"))
             [_initializationCallbackName s])]
   ↔ 0 < JSMap.size (_lazyObjectInitializers s)) ∧
  (JSMap.size (_lazyObjectInitializers s) = 0 ↔ postGeneratorSerialization s = s) ∧
  (JSMap.size (_lazyObjectInitializers s) = 0 ↔
     prelude (postGeneratorSerialization s) = prelude s).
Proof.
  unfold postGeneratorSerialization, _serializeInitializationCallback,
    _serializeRegisterInitializationCallback.
  pose proof (serializeSwitchCases_spec (_lazyObjectInitializers s) s)
    as (He & Hp & Hi & Hr & Hc & Hn & _ & _).
  destruct (serializeSwitchCases (_lazyObjectInitializers s) s) as [cases s1]. simpl in *.
  destruct (decide (0 < JSMap.size (_lazyObjectInitializers s))) as [Hpos|Hzero]; simpl.
  - rewrite Hp, Hr, Hn, <-app_assoc. simpl. split_and!.
    + done.
    + split; [lia|]. intros Heq. apply (f_equal prelude) in Heq. simpl in Heq.
      apply (f_equal length) in Heq.
      rewrite !length_app in Heq. simpl in Heq. lia.
    + split; [lia|]. intros Heq. apply (f_equal length) in Heq.
      rewrite length_app in Heq. simpl in Heq. lia.
  - split_and!.
    + split; [|done]. intros Heq. apply (f_equal length) in Heq.
      rewrite length_app in Heq. simpl in Heq. lia.
    + split; [done|lia].
    + split; [done|lia].
Qed.

(** *** The order of the recorded initializers *)

Lemma first_occurrences_ext (seen1 seen2 l : list ObjectValue) :
  (∀ x, x ∈ seen1 ↔ x ∈ seen2) →
  JSMap.first_occurrences seen1 l = JSMap.first_occurrences seen2 l.
Proof.
  revert seen1 seen2. induction l as [|k l IH]; intros seen1 seen2 Hext; simpl; [done|].
  destruct (decide (k ∈ seen1)) as [Hin|Hnin].
  - rewrite decide_True by (by apply Hext). by apply IH.
  - rewrite decide_False by (by rewrite <-Hext). f_equal. apply IH.
    intros x. rewrite !elem_of_cons, Hext. done.
Qed.

Lemma recordInitializers_keys selections m :
  JSMap.keys (recordInitializers selections m) =
    JSMap.keys m ++ JSMap.first_occurrences (JSMap.keys m) selections.*1.
Proof.
  revert m. induction selections as [|[o b] sel IH]; intros m; simpl.
  - by rewrite app_nil_r.
  - unfold recordInitializers in *. rewrite IH.
    destruct (decide (o ∈ JSMap.keys m)) as [Hin|Hnin].
    + by rewrite JSMap.keys_set_old.
    + rewrite JSMap.keys_set_new by done. rewrite <-app_assoc. simpl. do 2 f_equal.
      apply first_occurrences_ext. intros x. set_solver.
Qed.

Lemma recordInitializers_NoDup selections m :
  NoDup (JSMap.keys m) → NoDup (JSMap.keys (recordInitializers selections m)).
Proof.
  revert m. induction selections as [|[o b] sel IH]; intros m Hnd; simpl; [done|].
  apply IH. by apply JSMap.NoDup_keys_set.
Qed.

Lemma get_app (m1 m2 : list (ObjectValue * BodyRef)) o :
  JSMap.get (m1 ++ m2) o =
    match JSMap.get m1 o with Some b => Some b | None => JSMap.get m2 o end.
Proof.
  induction m1 as [|[o' b'] m1 IH]; simpl; [done|].
  by destruct (decide (o = o')).
Qed.

Lemma recordInitializers_get selections m o :
  JSMap.get (recordInitializers selections m) o =
    match JSMap.last_set selections o with
    | Some b => Some b
    | None => JSMap.get m o
    end.
Proof.
  revert m. induction selections as [|[o' b'] sel IH]; intros m; simpl; [done|].
  unfold recordInitializers in *. rewrite IH. unfold JSMap.last_set.
  rewrite reverse_cons, get_app. destruct (JSMap.get (reverse sel) o); [done|]. simpl.
  destruct (decide (o = o')) as [->|Hne].
  - by rewrite JSMap.get_set_eq.
  - by rewrite JSMap.get_set_ne.
Qed.

Lemma get_elem_NoDup (m : list (ObjectValue * BodyRef)) o b :
  NoDup (JSMap.keys m) → (o, b) ∈ m → JSMap.get m o = Some b.
Proof.
  unfold JSMap.keys. induction m as [|[o' b'] m IH]; simpl.
  - by intros _ ?%elem_of_nil.
  - intros [Hnin Hnd]%NoDup_cons [[= -> ->]|Hin]%elem_of_cons.
    + by rewrite decide_True.
    + rewrite decide_False; [by apply IH|]. intros ->. apply Hnin.
      apply list_elem_of_fmap. by exists (o', b).
Qed.

(** C5.  The initializer callback.  Let [selections] be the objects the pass
    recorded as lazy with their initializer bodies, in the order of the
    recordings.  The callback is declared as a function of the parameters
    [(obj, id)] whose body is a single [switch] on [id]; its cases are, in
    order, one case per lazy object in the order of first selection, each
    made of the statements of the object's recorded initializer body
    followed by [break], and under the object's lazy id; the last case is a
    default case that throws [new Error("Unknown lazy id")]. *)
Theorem initialization_callback_shape (selections : list (ObjectValue * BodyRef))
    (s : Serializer) :
  _lazyObjectInitializers s = recordInitializers selections JSMap.empty →
  _callbackLazyObjectParam s = identifier "obj" →
  _initializationCallbackName s = identifier "__initializerCallback" →
  ∃ cases : list BabelNode,
    (_serializeInitializationCallback s).1 =
      variableDeclaration (identifier "__initializerCallback")
        (functionExpression [identifier "obj"; identifier "id"]
           (blockStatement
              [switchStatement (identifier "id")
                 (cases ++
                  [switchCase None
                     [throwStatement
                        (newExpression (identifier "Error")
                           [stringLiteral "Unknown lazy id"])]])])) ∧
    Forall2 (λ obj c, ∃ lazyId initializer,
        JSMap.last_set selections obj = Some initializer ∧
        JSMap.get (_valueLazyIds (_serializeInitializationCallback s).2) obj = Some lazyId ∧
        c = switchCase (Some (numericLiteral lazyId))
              (body_entries (bodies (emitter s)) initializer ++ [breakStatement]))
      (JSMap.first_occurrences [] selections.*1) cases.
Proof.
  intros Hsel Hparam Hname. unfold _serializeInitializationCallback.
  pose proof (serializeSwitchCases_spec (_lazyObjectInitializers s) s)
    as (He & Hp & Hi & Hr & Hc & Hn & _ & Hall).
  destruct (serializeSwitchCases (_lazyObjectInitializers s) s) as [cases s1]. simpl in *.
  exists cases. split; [by rewrite Hc, Hn, Hparam, Hname|].
  pose proof (recordInitializers_keys selections JSMap.empty) as Hkeys.
  pose proof (recordInitializers_NoDup selections JSMap.empty (NoDup_nil_2)) as Hnd.
  rewrite <-Hsel in Hkeys, Hnd. simpl in Hkeys. rewrite <-Hkeys. unfold JSMap.keys.
  assert (Forall (λ e, e ∈ _lazyObjectInitializers s) (_lazyObjectInitializers s)) as Hmem
    by (by apply Forall_forall).
  revert Hmem Hall. generalize (_lazyObjectInitializers s) at 2 3 4 as l.
  intros l Hmem Hall.
  induction Hall as [|[o b] c l cs (lazyId & Hid & ->) Hall IH]; [constructor|].
  apply Forall_cons in Hmem as [Hin Hmem]. simpl. constructor; [|by apply IH].
  exists lazyId, b. split_and!; [|done..].
  apply (get_elem_NoDup _ _ _ Hnd) in Hin.
  rewrite Hsel, recordInitializers_get in Hin. simpl in Hin.
  by destruct (JSMap.last_set selections o).
Qed.

Lemma initialization_callback_shape_witness :
  ∃ cases : list BabelNode,
    (_serializeInitializationCallback example_serializer).1 =
      variableDeclaration (identifier "__initializerCallback")
        (functionExpression [identifier "obj"; identifier "id"]
           (blockStatement
              [switchStatement (identifier "id")
                 (cases ++
                  [switchCase None
                     [throwStatement
                        (newExpression (identifier "Error")
                           [stringLiteral "Unknown lazy id"])]])])) ∧
    Forall2 (λ obj c, ∃ lazyId initializer,
        JSMap.last_set [(10, 1); (11, 2); (11, 3)] obj = Some initializer ∧
        JSMap.get (_valueLazyIds (_serializeInitializationCallback example_serializer).2) obj
          = Some lazyId ∧
        c = switchCase (Some (numericLiteral lazyId))
              (body_entries (bodies (emitter example_serializer)) initializer
                 ++ [breakStatement]))
      (JSMap.first_occurrences [] [(10, 1); (11, 2); (11, 3)].*1) cases.
Proof.
  apply (initialization_callback_shape [(10, 1); (11, 2); (11, 3)] example_serializer);
    reflexivity.
Defined.

Example initialization_callback_example :
  (_serializeInitializationCallback example_serializer).1 =
    variableDeclaration (identifier "__initializerCallback")
      (functionExpression [identifier "obj"; identifier "id"]
         (blockStatement
            [switchStatement (identifier "id")
               [switchCase (Some (numericLiteral 1)) [sourceStatement 0; breakStatement];
                switchCase (Some (numericLiteral 2))
                  [sourceStatement 1; sourceStatement 2; breakStatement];
                switchCase None
                  [throwStatement
                     (newExpression (identifier "Error")
                        [stringLiteral "Unknown lazy id"])]]])).
Proof. reflexivity. Qed.

(** The initializer body of a lazy object is a new body: no body of the
    store has its reference when it is created (and it is created without
    parent). *)
Lemma initializer_body_is_new emitProps obj cmd s :
  (_serializeLazyObjectInitializer emitProps obj cmd s).1 ∉ dom (bodies (emitter s)).
Proof. unfold _serializeLazyObjectInitializer. simpl. apply is_fresh. Qed.

(** Recording a lazy object: after [serializeValueRawObject] of an object
    that is no alias, the object is recorded in [_lazyObjectInitializers] and
    has a lazy id, whatever the inherited emission did. *)
Lemma serializeValueRawObject_records emitProps superRaw alias obj skip cmd s :
  alias obj = None →
  JSMap.has (_lazyObjectInitializers
     (serializeValueRawObject emitProps superRaw alias obj skip cmd s).2) obj = true ∧
  JSMap.has (_valueLazyIds
     (serializeValueRawObject emitProps superRaw alias obj skip cmd s).2) obj = true.
Proof.
  intros Halias. unfold serializeValueRawObject. rewrite Halias.
  destruct (_serializeLazyObjectInitializer emitProps obj cmd s) as [body s1].
  unfold _serializeCreateLazyObject.
  set (s2 := set_lazyObjectInitializers _ s1).
  pose proof (_getValueLazyId_frame obj s2) as (_ & _ & Hi & _ & _ & _ & _ & Hget).
  destruct (_getValueLazyId obj s2) as [i s3]. simpl in *.
  unfold JSMap.has. rewrite Hi, Hget. subst s2. simpl.
  by rewrite JSMap.get_set_eq.
Qed.

(** *** Lazy ids are handed out in sequence *)

(** The map of ids that holds the objects [seen], numbered from 1 in their
    order. *)
Definition numbered (seen : list ObjectValue) : list (ObjectValue * Z) :=
  imap (λ i o, (o, Z.of_nat i + 1)%Z) seen.

Lemma set_absent {V} (m : list (ObjectValue * V)) k v :
  JSMap.get m k = None → JSMap.set m k v = m ++ [(k, v)].
Proof.
  induction m as [|[k' v'] m IH]; simpl; [done|].
  destruct (decide (k = k')); [done|]. intros Hget. by rewrite IH.
Qed.

Lemma get_append {V} (m1 m2 : list (ObjectValue * V)) o :
  JSMap.get (m1 ++ m2) o =
    match JSMap.get m1 o with Some v => Some v | None => JSMap.get m2 o end.
Proof.
  induction m1 as [|[o' v'] m1 IH]; simpl; [done|].
  by destruct (decide (o = o')).
Qed.

Lemma numbered_snoc seen o :
  numbered (seen ++ [o]) = numbered seen ++ [(o, Z.of_nat (length seen) + 1)%Z].
Proof.
  unfold numbered. rewrite imap_app. simpl. by rewrite Nat.add_0_r.
Qed.

Lemma keys_numbered seen : JSMap.keys (numbered seen) = seen.
Proof.
  unfold JSMap.keys, numbered.
  induction seen as [|o seen IH] using rev_ind; [done|].
  rewrite imap_app, fmap_app, IH. simpl. done.
Qed.

Lemma get_numbered seen o lazyId :
  JSMap.get (numbered seen) o = Some lazyId →
  ∃ i, seen !! i = Some o ∧ lazyId = (Z.of_nat i + 1)%Z.
Proof.
  induction seen as [|o' seen IH] using rev_ind; [done|].
  rewrite numbered_snoc, get_append.
  destruct (JSMap.get (numbered seen) o) as [v|] eqn:Hget.
  - intros [= <-]. destruct (IH eq_refl) as (i & Hi & ->).
    exists i. split; [|done]. by apply lookup_app_l_Some.
  - simpl. destruct (decide (o = o')) as [->|]; [|done]. intros [= <-].
    exists (length seen). split; [|done]. by apply list_lookup_middle.
Qed.

Lemma requestLazyIds_numbered objs seen s :
  _valueLazyIds s = numbered seen →
  _lazyObjectIdSeed s = (Z.of_nat (length seen) + 1)%Z →
  _valueLazyIds (requestLazyIds objs s).2 =
    numbered (seen ++ JSMap.first_occurrences seen objs) ∧
  _lazyObjectIdSeed (requestLazyIds objs s).2 =
    (Z.of_nat (length (seen ++ JSMap.first_occurrences seen objs)) + 1)%Z ∧
  (∀ k o, objs !! k = Some o →
     ∃ i, (seen ++ JSMap.first_occurrences seen objs) !! i = Some o ∧
          (requestLazyIds objs s).1 !! k = Some (Z.of_nat i + 1)%Z).
Proof.
  revert seen s. induction objs as [|obj objs IH]; intros seen s Hids Hseed; simpl.
  - rewrite app_nil_r. split_and!; [done..|]. intros k o Hk. by rewrite lookup_nil in Hk.
  - destruct (_getValueLazyId obj s) as [lazyId s1] eqn:H1.
    destruct (requestLazyIds objs s1) as [ids s2] eqn:H2. simpl.
    unfold _getValueLazyId, getOrDefault in H1.
    destruct (decide (obj ∈ seen)) as [Hin|Hnin].
    + destruct (JSMap.get (_valueLazyIds s) obj) as [v|] eqn:Hget.
      2:{ apply JSMap.get_None_keys in Hget. rewrite Hids, keys_numbered in Hget. done. }
      injection H1 as <- <-.
      specialize (IH seen s Hids Hseed). rewrite H2 in IH. simpl in IH.
      destruct IH as (IH1 & IH2 & IH3). split_and!; [done..|].
      intros [|k] o Hk; simpl in Hk; [|by apply IH3].
      injection Hk as <-. rewrite Hids in Hget.
      destruct (get_numbered _ _ _ Hget) as (i & Hi & ->).
      exists i. split; [by apply lookup_app_l_Some|done].
    + destruct (JSMap.get (_valueLazyIds s) obj) as [v|] eqn:Hget.
      { apply JSMap.get_Some_elem, (list_elem_of_fmap_2 fst) in Hget.
        change (obj ∈ JSMap.keys (_valueLazyIds s)) in Hget.
        rewrite Hids, keys_numbered in Hget. done. }
      simpl in H1. injection H1 as <- <-.
      assert (JSMap.first_occurrences (obj :: seen) objs =
              JSMap.first_occurrences (seen ++ [obj]) objs) as Hfo.
      { apply first_occurrences_ext. intros x. set_solver. }
      rewrite Hfo, (cons_middle obj seen), app_assoc.
      specialize (IH (seen ++ [obj])
        (set_valueLazyIds (JSMap.set (_valueLazyIds s) obj (_lazyObjectIdSeed s))
           (set_lazyObjectIdSeed (_lazyObjectIdSeed s + 1) s))).
      rewrite H2 in IH. simpl in IH.
      destruct IH as (IH1 & IH2 & IH3).
      * rewrite set_absent by done. by rewrite Hids, numbered_snoc, Hseed.
      * rewrite length_app, Hseed. simpl. lia.
      * split_and!; [done..|].
        intros [|k] o Hk; simpl in Hk; [|by apply IH3].
        injection Hk as <-. exists (length seen). split; [|by rewrite Hseed].
        rewrite <-app_assoc. simpl. by apply list_lookup_middle.
Qed.

(** X1.  Lazy ids are handed out in sequence.  Starting from the
    constructor's state, after any sequence of id requests the recorded ids
    are [1, 2, ..., n] for the [n] distinct objects in the order of their
    first request, the seed is [n + 1], and every request is answered with
    one plus the position of its object in that order: no number is skipped
    and none is reused. *)
Theorem lazy_ids_are_consecutive em p rt (objs : list ObjectValue) :
  _valueLazyIds (requestLazyIds objs (constructor em p rt)).2 =
    numbered (JSMap.first_occurrences [] objs) ∧
  _lazyObjectIdSeed (requestLazyIds objs (constructor em p rt)).2 =
    (Z.of_nat (length (JSMap.first_occurrences [] objs)) + 1)%Z ∧
  (∀ k o, objs !! k = Some o →
     ∃ i, JSMap.first_occurrences [] objs !! i = Some o ∧
          (requestLazyIds objs (constructor em p rt)).1 !! k = Some (Z.of_nat i + 1)%Z).
Proof. by apply (requestLazyIds_numbered objs [] (constructor em p rt)). Qed.

(** *** The callback and the creation calls agree *)

(** The cases of the [switch] of the callback declaration. *)
Definition callbackCases (declaration : BabelNode) : list BabelNode :=
  match declaration with
  | variableDeclaration _
      (functionExpression _ (blockStatement [switchStatement _ cases])) => cases
  | _ => []
  end.




Lemma callbackCases_callback s :
  callbackCases (_serializeInitializationCallback s).1 =
    (serializeSwitchCases (_lazyObjectInitializers s) s).1 ++ [defaultCase].
Proof.
  unfold _serializeInitializationCallback.
  by destruct (serializeSwitchCases (_lazyObjectInitializers s) s) as [cases s1].
Qed.

(** X2.  The id of a creation call is the id of the object's case.  Let the
    call [runtime.createLazyObject(id)] have been built for an object in
    state [s], and let [s'] be a later state of the pass (it records every id
    that was recorded after the call) in which the object is recorded as lazy
    with the initializer body [b].  Then the callback built in [s'] has a
    case whose test is the same [id] and whose statements are the statements
    of [b] followed by [break]. *)
Theorem created_object_has_its_case (obj : ObjectValue) (b : BodyRef) (s s' : Serializer) :
  ids_extend (_serializeCreateLazyObject obj s).2 s' →
  (obj, b) ∈ _lazyObjectInitializers s' →
  ∃ lazyId,
    (_serializeCreateLazyObject obj s).1 =
      callExpression
        (memberExpression (_lazyObjectJSRuntimeName s) (identifier "createLazyObject"))
        [numericLiteral lazyId] ∧
    switchCase (Some (numericLiteral lazyId))
      (body_entries (bodies (emitter s')) b ++ [breakStatement])
      ∈ callbackCases (_serializeInitializationCallback s').1.
Proof.
  intros Hext Hin. unfold _serializeCreateLazyObject in *.
  pose proof (_getValueLazyId_frame obj s) as (_ & _ & _ & Hr & _ & _ & _ & Hget).
  destruct (_getValueLazyId obj s) as [lazyId s1]. simpl in *.
  exists lazyId. split; [by rewrite Hr|].
  rewrite callbackCases_callback. apply elem_of_app. left.
  pose proof (serializeSwitchCases_spec (_lazyObjectInitializers s') s')
    as (_ & _ & _ & _ & _ & _ & Hext' & Hall).
  apply list_elem_of_lookup in Hin as [k Hk].
  destruct (Forall2_lookup_l _ _ _ _ _ Hall Hk) as (c & Hc & lazyId' & Hid & ->).
  apply Hext, Hext' in Hget. rewrite Hget in Hid. injection Hid as <-.
  by eapply list_elem_of_lookup_2.
Qed.

Lemma created_object_has_its_case_witness :
  ∃ lazyId,
    (_serializeCreateLazyObject 10 example_serializer).1 =
      callExpression
        (memberExpression (_lazyObjectJSRuntimeName example_serializer)
           (identifier "createLazyObject"))
        [numericLiteral lazyId] ∧
    switchCase (Some (numericLiteral lazyId))
      (body_entries (bodies (emitter example_serializer)) 1 ++ [breakStatement])
      ∈ callbackCases (_serializeInitializationCallback example_serializer).1.
Proof.
  apply (created_object_has_its_case 10 1 example_serializer example_serializer).
  - intros o lazyId Hget. exact Hget.
  - vm_compute. left.
Defined.



(** *** Serializing a raw object in lazy mode *)

(** X4.  [serializeValueRawObject] of an object that is no temporal alias,
    whatever the inherited emission of its properties does: the result is
    the call [runtime.createLazyObject(id)] where [id] is the lazy id now
    recorded for the object; the object is recorded as lazy with an
    initializer body that did not exist before the call; and the body that
    was current before the call is current again after it. *)
Theorem serializeValueRawObject_lazy
    (emitProps : ObjectValue → Serializer → Serializer)
    (superRaw : ObjectValue → bool → option (BodyRef → Serializer → Serializer) →
                Serializer → BabelNode * Serializer)
    (alias : ObjectValue → option nat) (obj : ObjectValue) (skipPrototype : bool)
    (cmd : option (BodyRef → Serializer → Serializer)) (s : Serializer) :
  alias obj = None →
  ∃ lazyId initializerBody,
    (serializeValueRawObject emitProps superRaw alias obj skipPrototype cmd s).1 =
      callExpression
        (memberExpression
           (_lazyObjectJSRuntimeName
              (serializeValueRawObject emitProps superRaw alias obj skipPrototype cmd s).2)
           (identifier "createLazyObject"))
        [numericLiteral lazyId] ∧
    JSMap.get (_valueLazyIds
      (serializeValueRawObject emitProps superRaw alias obj skipPrototype cmd s).2) obj
      = Some lazyId ∧
    JSMap.get (_lazyObjectInitializers
      (serializeValueRawObject emitProps superRaw alias obj skipPrototype cmd s).2) obj
      = Some initializerBody ∧
    (initializerBody ∉ dom (bodies (emitter s))) ∧
    _body (emitter (serializeValueRawObject emitProps superRaw alias obj skipPrototype cmd s).2)
      = _body (emitter s).
Proof.
  intros Halias. unfold serializeValueRawObject. rewrite Halias.
  pose proof (initializer_body_is_new emitProps obj cmd s) as Hnew.
  assert (_body (emitter (_serializeLazyObjectInitializer emitProps obj cmd s).2)
          = _body (emitter s)) as Hbody by done.
  destruct (_serializeLazyObjectInitializer emitProps obj cmd s) as [initializerBody s1].
  simpl in Hnew, Hbody. unfold _serializeCreateLazyObject.
  set (s2 := set_lazyObjectInitializers _ s1).
  pose proof (_getValueLazyId_frame obj s2) as (He & _ & Hi & Hr & _ & _ & _ & Hget).
  destruct (_getValueLazyId obj s2) as [lazyId s3]. simpl in *.
  exists lazyId, initializerBody. split_and!; [done|done| |done|].
  - rewrite Hi. subst s2. simpl. apply JSMap.get_set_eq.
  - by rewrite He.
Qed.

Lemma serializeValueRawObject_lazy_witness :
  ∃ lazyId initializerBody,
    (serializeValueRawObject (λ _ s, s) (λ _ _ _ s, (nullLiteral, s)) (λ _, None) 12 false
       None example_serializer).1 =
      callExpression
        (memberExpression
           (_lazyObjectJSRuntimeName
              (serializeValueRawObject (λ _ s, s) (λ _ _ _ s, (nullLiteral, s)) (λ _, None)
                 12 false None example_serializer).2)
           (identifier "createLazyObject"))
        [numericLiteral lazyId] ∧
    JSMap.get (_valueLazyIds
      (serializeValueRawObject (λ _ s, s) (λ _ _ _ s, (nullLiteral, s)) (λ _, None) 12 false
         None example_serializer).2) 12
      = Some lazyId ∧
    JSMap.get (_lazyObjectInitializers
      (serializeValueRawObject (λ _ s, s) (λ _ _ _ s, (nullLiteral, s)) (λ _, None) 12 false
         None example_serializer).2) 12
      = Some initializerBody ∧
    (initializerBody ∉ dom (bodies (emitter example_serializer))) ∧
    _body (emitter
      (serializeValueRawObject (λ _ s, s) (λ _ _ _ s, (nullLiteral, s)) (λ _, None) 12 false
         None example_serializer).2)
      = _body (emitter example_serializer).
Proof.
  apply (serializeValueRawObject_lazy (λ _ s, s) (λ _ _ _ s, (nullLiteral, s)) (λ _, None)
           12 false None example_serializer).
  reflexivity.
Defined.

End LazyObjectsSerializer.

(** ** [ResidualFunctions] *)

Module ResidualFunctions.

Definition BlockRef := nat.
Definition InstanceRef := nat.
Definition NodeRef := nat.

(** *** Exceptions and the state monad of the class

    A method either returns or throws; what it did to the object before it
    threw stays done, so the state is threaded through both outcomes.
    [invariant(c)] throws when [c] is false; a [TypeError] is what the
    JavaScript runtime or a [babel-types] builder throws on [undefined]. *)
Inductive Exn : Type :=
| InvariantViolation
| TypeError
| FatalError (message : string).

Inductive Outcome (A : Type) : Type :=
| Returned (a : A)
| Threw (e : Exn).
Arguments Returned {A} a.
Arguments Threw {A} e.

Definition M (S A : Type) : Type := S → Outcome A * S.

Definition ret {S A} (a : A) : M S A := λ s, (Returned a, s).

Definition bind {S A B} (m : M S A) (k : A → M S B) : M S B :=
  λ s, match m s with
       | (Returned a, s') => k a s'
       | (Threw e, s') => (Threw e, s')
       end.

Definition throw {S A} (e : Exn) : M S A := λ s, (Threw e, s).
Definition gets {S A} (f : S → A) : M S A := λ s, (Returned (f s), s).
Definition modify {S} (f : S → S) : M S unit := λ s, (Returned tt, f s).

Definition invariant {S} (condition : bool) : M S unit :=
  if condition then ret tt else throw InvariantViolation.

(** [x !== undefined] checked by [invariant], with the value at hand after. *)
Definition defined {S A} (x : option A) : M S A :=
  match x with Some a => ret a | None => throw InvariantViolation end.

Notation "'let*' x ':=' m 'in' k" := (bind m (λ x, k))
  (at level 10, x pattern, m at level 100, k at level 200).
Notation "'do' m 'then' k" := (bind m (λ _, k))
  (at level 10, m at level 100, k at level 200).

(** [for (let x of l) body(x)] *)
Fixpoint forEach {S A} (l : list A) (body : A → M S unit) : M S unit :=
  match l with
  | [] => ret tt
  | x :: l' => do body x then forEach l' body
  end.

(** *** The data of [./types.js] that the class reads *)

(** A heap value, as far as [instanceof FunctionValue] tells. *)
Inductive Value : Type :=
| functionValue (f : FunctionValue)
| otherValue (tag : nat).

Definition isFunctionValue (v : Value) : bool :=
  match v with functionValue _ => true | otherValue _ => false end.

(** The key of [referentializationState]: ["GLOBAL"] or an additional
    function. *)
Inductive ReferentializationScope : Type :=
| GLOBAL
| scopeOfFunction (f : FunctionValue).

Global Instance ReferentializationScope_eq_dec : EqDecision ReferentializationScope.
Proof. solve_decision. Defined.

Record ScopeBinding : Type := mkScopeBinding {
  scope_name : string;
  scope_id : Z;
  referentializationScope : ReferentializationScope
}.

Global Instance ScopeBinding_eq_dec : EqDecision ScopeBinding.
Proof. solve_decision. Defined.

Record ResidualFunctionBinding : Type := mkResidualFunctionBinding {
  binding_ref : nat;
  value : option Value;
  modified : bool;
  declarativeEnvironmentRecord : option nat;
  serializedValue : option BabelNode;
  referentialized : bool;
  scope : option ScopeBinding
}.

Record BodyReference : Type := mkBodyReference {
  body : BodyRef;
  index : nat
}.

Record FunctionInstance : Type := mkFunctionInstance {
  instance_ref : InstanceRef;
  instance_functionValue : FunctionValue;
  residualFunctionBindings : list (string * ResidualFunctionBinding);
  scopeInstances : list (string * ScopeBinding);
  insertionPoint : option BodyReference;
  initializationStatements : list BabelNode;
  containingAdditionalFunction : option FunctionValue
}.

(** A [require] call site of a function body: the node and the name of its
    callee. *)
Record RequireCall : Type := mkRequireCall {
  call_ref : NodeRef;
  callee_name : string
}.

Record FunctionInfo : Type := mkFunctionInfo {
  unbound : list (string * list NodeRef);
  modifiedNames : list string;
  usesArguments : bool;
  usesThis : bool;
  requireCalls : list (RequireCall * string)
}.

Record AdditionalFunctionInfo : Type := mkAdditionalFunctionInfo {
  additional_instance : FunctionInstance;
  modifiedBindings : list (nat * ResidualFunctionBinding)
}.

Record ClassMethodInstance : Type := mkClassMethodInstance {
  classPrototype : ObjectValue;
  methodType : string;
  classMethodIsStatic : bool;
  classMethodKeyNode : option BabelNode;
  classMethodComputed : bool;
  classSuperNode : option BabelNode
}.

Record FactoryFunctionInfo : Type := mkFactoryFunctionInfo {
  factoryId : option BabelNode;
  factory_functionInfo : FunctionInfo;
  anyContainingAdditionalFunction : bool
}.

(** A class expression node held in [classes]: [superClass] and
    [body.body]. *)
Record ClassNode : Type := mkClassNode {
  superClass : option BabelNode;
  classBody : list BabelNode
}.

Record SerializerStatistics : Type := mkStatistics {
  stat_functions : Z;
  stat_functionClones : Z;
  stat_requireCalls : Z;
  stat_requireCallsReplaced : Z
}.

(** *** What the pass is given

    The heap graph and the facts about the input program are not written by
    the pass; fields of objects held by reference read as functions of the
    reference.  [start], [end] and [uniqueOrderedTag] are the fields of a
    function body node; a missing field is [None]. *)
Record Inputs : Type := mkInputs {
  ECMAScriptCode : FunctionValue → option BlockRef;
  FormalParameters : FunctionValue → option (list BabelNode);
  Strict : FunctionValue → bool;
  HasEmptyConstructor : FunctionValue → bool;
  originalName : FunctionValue → option string;
  debugNames : bool;
  start : BlockRef → option Z;
  end_ : BlockRef → option Z;
  uniqueOrderedTag : BlockRef → option Z;
  requireReturns : list (string * BabelNode);
  residualFunctionInfos : list (BlockRef * FunctionInfo);
  residualFunctionInstances : list (FunctionValue * FunctionInstance);
  residualClassMethodInstances : list (FunctionValue * ClassMethodInstance);
  additionalFunctionValueInfos : list (FunctionValue * AdditionalFunctionInfo);
  additionalFunctionValueNestedFunctions : list FunctionValue
}.

(** The collaborators whose code is not part of the class: the location
    service, the referentializer, the function initializers (as they answer
    after [scrubFunctionInitializers], the first call of [spliceFunctions]),
    [getReplacement], the instantiator ([new ResidualFunctionInstantiator(
    ...).instantiate()]), the factory name generator (the name it gives at
    its n-th call), and the two comparisons of [./types.js]. *)
Record Services : Type := mkServices {
  getLocation : FunctionValue → option BabelNode;
  getReferentializedScopeInitialization : ScopeBinding → BabelNode → list BabelNode;
  referentializationState_keys : list ReferentializationScope;
  createCaptureScopeAccessFunction : ReferentializationScope → BabelNode;
  createCapturedScopesArrayInitialization : ReferentializationScope → BabelNode;
  hasInitializerStatement : FunctionValue → bool;
  getReplacement : BabelNode → option Value → BabelNode;
  instantiate :
    list (Z * FactoryFunctionInfo) → list (NodeRef * BabelNode) →
    list (NodeRef * BabelNode) → BabelNode → BabelNode;
  generate : nat → string → string;
  AreSameResidualBinding : ResidualFunctionBinding → ResidualFunctionBinding → bool;
  isNotEarlierThan : BodyReference → BodyReference → bool
}.

(** *** The state of the pass

    The fields of the object that the pass writes ([prelude] ...
    [statistics]), the bodies that insertion points refer to, and the local
    variables of [spliceFunctions] that its closures share
    ([functionBodies] ... [funcNodes]). *)
Record State : Type := mkState {
  prelude : list BabelNode;
  functionPrototypes : list (FunctionValue * BabelNode);
  firstFunctionUsages : list (FunctionValue * BodyReference);
  functions : list (BlockRef * list FunctionInstance);
  classes : list (ObjectValue * ClassNode);
  functionInstances : list FunctionInstance;
  factoryNameCounter : nat;
  statistics : SerializerStatistics;
  serializedBodies : gmap BodyRef SerializedBody;
  functionBodies : list (InstanceRef * list BabelNode);
  additionalFunctionPreludes : list (FunctionValue * list BabelNode);
  additionalFunctionModifiedBindingsSegment : list (FunctionValue * list BabelNode);
  unstrictFunctionBodies : list BabelNode;
  strictFunctionBodies : list BabelNode;
  funcNodes : list (FunctionValue * BabelNode)
}.

Definition set_prelude (v : list BabelNode) (s : State) : State :=
  mkState v (functionPrototypes s) (firstFunctionUsages s) (functions s) (classes s)
    (functionInstances s) (factoryNameCounter s) (statistics s) (serializedBodies s)
    (functionBodies s) (additionalFunctionPreludes s)
    (additionalFunctionModifiedBindingsSegment s) (unstrictFunctionBodies s)
    (strictFunctionBodies s) (funcNodes s) .

Definition set_functionPrototypes (v : list (FunctionValue * BabelNode)) (s : State) : State :=
  mkState (prelude s) v (firstFunctionUsages s) (functions s) (classes s)
    (functionInstances s) (factoryNameCounter s) (statistics s) (serializedBodies s)
    (functionBodies s) (additionalFunctionPreludes s)
    (additionalFunctionModifiedBindingsSegment s) (unstrictFunctionBodies s)
    (strictFunctionBodies s) (funcNodes s) .

Definition set_firstFunctionUsages (v : list (FunctionValue * BodyReference)) (s : State) : State :=
  mkState (prelude s) (functionPrototypes s) v (functions s) (classes s)
    (functionInstances s) (factoryNameCounter s) (statistics s) (serializedBodies s)
    (functionBodies s) (additionalFunctionPreludes s)
    (additionalFunctionModifiedBindingsSegment s) (unstrictFunctionBodies s)
    (strictFunctionBodies s) (funcNodes s) .

Definition set_functions (v : list (BlockRef * list FunctionInstance)) (s : State) : State :=
  mkState (prelude s) (functionPrototypes s) (firstFunctionUsages s) v (classes s)
    (functionInstances s) (factoryNameCounter s) (statistics s) (serializedBodies s)
    (functionBodies s) (additionalFunctionPreludes s)
    (additionalFunctionModifiedBindingsSegment s) (unstrictFunctionBodies s)
    (strictFunctionBodies s) (funcNodes s) .

Definition set_classes (v : list (ObjectValue * ClassNode)) (s : State) : State :=
  mkState (prelude s) (functionPrototypes s) (firstFunctionUsages s) (functions s) v
    (functionInstances s) (factoryNameCounter s) (statistics s) (serializedBodies s)
    (functionBodies s) (additionalFunctionPreludes s)
    (additionalFunctionModifiedBindingsSegment s) (unstrictFunctionBodies s)
    (strictFunctionBodies s) (funcNodes s) .

Definition set_functionInstances (v : list FunctionInstance) (s : State) : State :=
  mkState (prelude s) (functionPrototypes s) (firstFunctionUsages s) (functions s)
    (classes s) v (factoryNameCounter s) (statistics s) (serializedBodies s)
    (functionBodies s) (additionalFunctionPreludes s)
    (additionalFunctionModifiedBindingsSegment s) (unstrictFunctionBodies s)
    (strictFunctionBodies s) (funcNodes s) .

Definition set_factoryNameCounter (v : nat) (s : State) : State :=
  mkState (prelude s) (functionPrototypes s) (firstFunctionUsages s) (functions s)
    (classes s) (functionInstances s) v (statistics s) (serializedBodies s)
    (functionBodies s) (additionalFunctionPreludes s)
    (additionalFunctionModifiedBindingsSegment s) (unstrictFunctionBodies s)
    (strictFunctionBodies s) (funcNodes s) .

Definition set_statistics (v : SerializerStatistics) (s : State) : State :=
  mkState (prelude s) (functionPrototypes s) (firstFunctionUsages s) (functions s)
    (classes s) (functionInstances s) (factoryNameCounter s) v (serializedBodies s)
    (functionBodies s) (additionalFunctionPreludes s)
    (additionalFunctionModifiedBindingsSegment s) (unstrictFunctionBodies s)
    (strictFunctionBodies s) (funcNodes s) .

Definition set_serializedBodies (v : gmap BodyRef SerializedBody) (s : State) : State :=
  mkState (prelude s) (functionPrototypes s) (firstFunctionUsages s) (functions s)
    (classes s) (functionInstances s) (factoryNameCounter s) (statistics s) v
    (functionBodies s) (additionalFunctionPreludes s)
    (additionalFunctionModifiedBindingsSegment s) (unstrictFunctionBodies s)
    (strictFunctionBodies s) (funcNodes s) .

Definition set_functionBodies (v : list (InstanceRef * list BabelNode)) (s : State) : State :=
  mkState (prelude s) (functionPrototypes s) (firstFunctionUsages s) (functions s)
    (classes s) (functionInstances s) (factoryNameCounter s) (statistics s)
    (serializedBodies s) v (additionalFunctionPreludes s)
    (additionalFunctionModifiedBindingsSegment s) (unstrictFunctionBodies s)
    (strictFunctionBodies s) (funcNodes s) .

Definition set_additionalFunctionPreludes (v : list (FunctionValue * list BabelNode))
    (s : State) : State :=
  mkState (prelude s) (functionPrototypes s) (firstFunctionUsages s) (functions s)
    (classes s) (functionInstances s) (factoryNameCounter s) (statistics s)
    (serializedBodies s) (functionBodies s) v
    (additionalFunctionModifiedBindingsSegment s) (unstrictFunctionBodies s)
    (strictFunctionBodies s) (funcNodes s) .

Definition set_additionalFunctionModifiedBindingsSegment
    (v : list (FunctionValue * list BabelNode)) (s : State) : State :=
  mkState (prelude s) (functionPrototypes s) (firstFunctionUsages s) (functions s)
    (classes s) (functionInstances s) (factoryNameCounter s) (statistics s)
    (serializedBodies s) (functionBodies s) (additionalFunctionPreludes s) v
    (unstrictFunctionBodies s) (strictFunctionBodies s) (funcNodes s) .

Definition set_unstrictFunctionBodies (v : list BabelNode) (s : State) : State :=
  mkState (prelude s) (functionPrototypes s) (firstFunctionUsages s) (functions s)
    (classes s) (functionInstances s) (factoryNameCounter s) (statistics s)
    (serializedBodies s) (functionBodies s) (additionalFunctionPreludes s)
    (additionalFunctionModifiedBindingsSegment s) v (strictFunctionBodies s)
    (funcNodes s) .

Definition set_strictFunctionBodies (v : list BabelNode) (s : State) : State :=
  mkState (prelude s) (functionPrototypes s) (firstFunctionUsages s) (functions s)
    (classes s) (functionInstances s) (factoryNameCounter s) (statistics s)
    (serializedBodies s) (functionBodies s) (additionalFunctionPreludes s)
    (additionalFunctionModifiedBindingsSegment s) (unstrictFunctionBodies s) v
    (funcNodes s) .

Definition set_funcNodes (v : list (FunctionValue * BabelNode)) (s : State) : State :=
  mkState (prelude s) (functionPrototypes s) (firstFunctionUsages s) (functions s)
    (classes s) (functionInstances s) (factoryNameCounter s) (statistics s)
    (serializedBodies s) (functionBodies s) (additionalFunctionPreludes s)
    (additionalFunctionModifiedBindingsSegment s) (unstrictFunctionBodies s)
    (strictFunctionBodies s) v.

(** *** Arrays and maps that live in the state *)

(** [getOrDefault(map, key, () => []).push(...items)]: the array is created
    empty under the key when the map has none, and the items are appended
    to it. *)
Definition pushTo {K : Type} `{EqDecision K}
    (get_map : State → list (K * list BabelNode))
    (put_map : list (K * list BabelNode) → State → State)
    (key : K) (items : list BabelNode) : M State unit :=
  λ s, let '(array, s') := getOrDefault get_map put_map key (λ s0, ([], s0)) s in
       (Returned tt, put_map (JSMap.set (get_map s') key (array ++ items)) s').

(** The same with [unshift(...items)]. *)
Definition unshiftTo {K : Type} `{EqDecision K}
    (get_map : State → list (K * list BabelNode))
    (put_map : list (K * list BabelNode) → State → State)
    (key : K) (items : list BabelNode) : M State unit :=
  λ s, let '(array, s') := getOrDefault get_map put_map key (λ s0, ([], s0)) s in
       (Returned tt, put_map (JSMap.set (get_map s') key (items ++ array)) s').

(** The array a definition goes to: the global prelude, the prelude of an
    additional function, or the statement group of an instance. *)
Inductive Target : Type :=
| toGlobalPrelude
| toAdditionalPrelude (additionalFunction : FunctionValue)
| toFunctionBody (instance : InstanceRef).

Definition pushTarget (target : Target) (items : list BabelNode) : M State unit :=
  match target with
  | toGlobalPrelude => modify (λ s, set_prelude (prelude s ++ items) s)
  | toAdditionalPrelude f =>
      pushTo additionalFunctionPreludes set_additionalFunctionPreludes f items
  | toFunctionBody i => pushTo functionBodies set_functionBodies i items
  end.

(** [array.splice(start, 0, ...items)]: a [start] past the end inserts at
    the end. *)
Definition splice (entries : list BabelNode) (start : nat) (items : list BabelNode)
    : list BabelNode :=
  take start entries ++ items ++ drop start entries.

(** [bodyReference.body.entries.splice(index, 0, ...items)] *)
Definition spliceBody (insertionPoint : BodyReference) (items : list BabelNode)
    (bs : gmap BodyRef SerializedBody) : gmap BodyRef SerializedBody :=
  alter (λ b, mkSerializedBody (body_type b) (parentBody b)
                (splice (entries b) (index insertionPoint) items) (done_ b))
    (body insertionPoint) bs.

(** A JavaScript value in a condition: [undefined] and [0] are falsy. *)
Definition truthy (n : option Z) : bool :=
  match n with Some z => negb (z =? 0)%Z | None => false end.

Definition truthyString (x : option string) : bool :=
  match x with Some n => negb (bool_decide (n = "")) | None => false end.

(** [Array.prototype.sort] with the comparator [(a, b) => tag(a) - tag(b)]:
    insertion into the sorted rest, which keeps entries of equal tags in
    their order. *)
Fixpoint insertByTag {A} (tag : A → Z) (x : A) (l : list A) : list A :=
  match l with
  | [] => [x]
  | y :: l' => if (tag x <=? tag y)%Z then x :: y :: l' else y :: insertByTag tag x l'
  end.

Fixpoint sortByTag {A} (tag : A → Z) (l : list A) : list A :=
  match l with
  | [] => []
  | x :: l' => insertByTag tag x (sortByTag tag l')
  end.

Section methods.
Context (inp : Inputs) (sv : Services).

Definition initialState (prelude0 : list BabelNode)
    (bodies0 : gmap BodyRef SerializedBody) : State :=
  mkState prelude0 [] [] [] [] [] 0 (mkStatistics 0 0 0 0) bodies0 [] [] [] [] [] [].

Definition addFunctionInstance (instance : FunctionInstance) : M State unit :=
  do modify (λ s, set_functionInstances (functionInstances s ++ [instance]) s) then
  let* code := defined (ECMAScriptCode inp (instance_functionValue instance)) in
  λ s, let '(array, s') := getOrDefault functions set_functions code (λ s0, ([], s0)) s in
       (Returned tt, set_functions (JSMap.set (functions s') code (array ++ [instance])) s').

(** The constructor: the maps start empty, and every residual function
    instance that is not an additional function is registered, in the
    iteration order of [residualFunctionInstances]. *)
Definition constructor : M State unit :=
  forEach (JSMap.values (residualFunctionInstances inp)) (λ instance,
    if JSMap.has (additionalFunctionValueInfos inp) (instance_functionValue instance)
    then ret tt
    else addFunctionInstance instance).

Definition setFunctionPrototype (constructor : FunctionValue) (prototypeId : BabelNode)
    : M State unit :=
  modify (λ s, set_functionPrototypes
                 (JSMap.set (functionPrototypes s) constructor prototypeId) s).

Definition addFunctionUsage (val : FunctionValue) (bodyReference : BodyReference)
    : M State unit :=
  modify (λ s, if JSMap.has (firstFunctionUsages s) val then s
               else set_firstFunctionUsages
                      (JSMap.set (firstFunctionUsages s) val bodyReference) s).

(** The inner function of [_shouldUseFactoryFunction]; [first] is
    [instances[0]]. *)
Definition shouldInlineFunction (funcBody : BlockRef) (first : FunctionInstance) : bool :=
  if decide (0 < JSMap.size (scopeInstances first)) then false
  else
    if truthy (start inp funcBody) && truthy (end_ inp funcBody) then
      match start inp funcBody, end_ inp funcBody with
      | Some s, Some e => (e - s <=? 30)%Z
      | _, _ => true
      end
    else true.

Definition _shouldUseFactoryFunction (funcBody : BlockRef)
    (instances : list FunctionInstance) : M State bool :=
  do invariant (bool_decide (0 < length instances)) then
  let* first := defined (head instances) in
  let* functionInfo := defined (JSMap.get (residualFunctionInfos inp) funcBody) in
  ret (negb (shouldInlineFunction funcBody first)
       && bool_decide (1 < length instances)
       && negb (usesArguments functionInfo)).

(** One turn of the loop of [_getIdentifierReplacements]. *)
Definition identifierReplacement
    (bindings : list (string * ResidualFunctionBinding))
    (res : list (NodeRef * BabelNode)) (entry : string * list NodeRef)
    : M State (list (NodeRef * BabelNode)) :=
  let '(name, nodes) := entry in
  match JSMap.get bindings name with
  | None => ret res
  | Some residualFunctionBinding =>
      if bool_decide (declarativeEnvironmentRecord residualFunctionBinding = None)
         && bool_decide (value residualFunctionBinding = None)
      then ret res
      else
        let* serialized := defined (serializedValue residualFunctionBinding) in
        let replacement :=
          getReplacement sv serialized
            (if referentialized residualFunctionBinding then None
             else value residualFunctionBinding) in
        ret (foldl (λ res node, JSMap.set res node replacement) res nodes)
  end.

Fixpoint foldM {S A B} (f : B → A → M S B) (acc : B) (l : list A) : M S B :=
  match l with
  | [] => ret acc
  | x :: l' => let* acc' := f acc x in foldM f acc' l'
  end.

Definition _getIdentifierReplacements (funcBody : BlockRef)
    (bindings : list (string * ResidualFunctionBinding))
    : M State (list (NodeRef * BabelNode)) :=
  let* functionInfo := defined (JSMap.get (residualFunctionInfos inp) funcBody) in
  foldM (identifierReplacement bindings) [] (unbound functionInfo).

Definition bump_requireCalls (s : State) : State :=
  let st := statistics s in
  set_statistics (mkStatistics (stat_functions st) (stat_functionClones st)
                    (stat_requireCalls st + 1) (stat_requireCallsReplaced st)) s.

Definition bump_requireCallsReplaced (s : State) : State :=
  let st := statistics s in
  set_statistics (mkStatistics (stat_functions st) (stat_functionClones st)
                    (stat_requireCalls st) (stat_requireCallsReplaced st + 1)) s.

Definition add_functionClones (n : Z) (s : State) : State :=
  let st := statistics s in
  set_statistics (mkStatistics (stat_functions st) (stat_functionClones st + n)
                    (stat_requireCalls st) (stat_requireCallsReplaced st)) s.

Definition set_stat_functions (n : Z) (s : State) : State :=
  let st := statistics s in
  set_statistics (mkStatistics n (stat_functionClones st)
                    (stat_requireCalls st) (stat_requireCallsReplaced st)) s.

Definition _getCallReplacements (funcBody : BlockRef) : M State (list (NodeRef * BabelNode)) :=
  let* functionInfo := defined (JSMap.get (residualFunctionInfos inp) funcBody) in
  foldM (λ res '(callNode, moduleId),
      do modify bump_requireCalls then
      if bool_decide (callee_name callNode ∈ modifiedNames functionInfo) then ret res
      else
        match JSMap.get (requireReturns inp) moduleId with
        | Some replacement =>
            do modify bump_requireCallsReplaced then
            ret (JSMap.set res (call_ref callNode) replacement)
        | None => ret res
        end)
    [] (requireCalls functionInfo).

Definition _hasRewrittenFunctionInstance
    (rewrittenAdditionalFunctions : list (FunctionValue * list BabelNode))
    (instances : list FunctionInstance) : bool :=
  bool_decide (Exists (λ instance,
    JSMap.has rewrittenAdditionalFunctions (instance_functionValue instance) = true)
    instances).

(** [this.factoryNameGenerator.generate(suffix)] *)
Definition generateFactoryName (suffix : string) : M State string :=
  λ s, (Returned (generate sv (factoryNameCounter s) suffix),
        set_factoryNameCounter (S (factoryNameCounter s)) s).

Definition tagOf (funcBody : BlockRef) : Z :=
  default 0%Z (uniqueOrderedTag inp funcBody).

Definition _generateFactoryFunctionInfos
    (rewrittenAdditionalFunctions : list (FunctionValue * list BabelNode))
    : M State (list (Z * FactoryFunctionInfo)) :=
  let* fs := gets functions in
  foldM (λ factoryFunctionInfos '(functionBody, instances),
      do invariant (bool_decide (0 < length instances)) then
      let* first := defined (head instances) in
      let suffix :=
        if truthyString (originalName inp (instance_functionValue first))
           || debugNames inp
        then "factoryFunction" else "" in
      let* useFactory := _shouldUseFactoryFunction functionBody instances in
      let* factoryId :=
        (if useFactory then
           do invariant (negb (_hasRewrittenFunctionInstance
                                 rewrittenAdditionalFunctions instances)) then
           let* name := generateFactoryName suffix in
           ret (Some (identifier name))
         else ret (getLocation sv (instance_functionValue first))) in
      do invariant (truthy (uniqueOrderedTag inp functionBody)) then
      let* functionInfo := defined (JSMap.get (residualFunctionInfos inp) functionBody) in
      let anyContainingAdditionalFunction :=
        negb (forallb (λ instance,
                bool_decide (containingAdditionalFunction instance = None)) instances) in
      ret (JSMap.set factoryFunctionInfos (tagOf functionBody)
             (mkFactoryFunctionInfo factoryId functionInfo anyContainingAdditionalFunction)))
    [] fs.

(** The comparator of [_sortFunctionByOriginalOrdering] asserts the tags of
    the two entries it compares; a sort of fewer than two entries compares
    nothing. *)
Definition _sortFunctionByOriginalOrdering
    (functionEntries : list (BlockRef * list FunctionInstance))
    : M State (list (BlockRef * list FunctionInstance)) :=
  if bool_decide (length functionEntries ≤ 1) then ret functionEntries
  else
    do forEach functionEntries (λ entry, invariant (truthy (uniqueOrderedTag inp entry.1))) then
    ret (sortByTag (λ entry, tagOf entry.1) functionEntries).

(** [Object.assign({}, body)] copies the fields of the body node, so the
    function expression holds the statements of [body]. *)
Definition _createFunctionExpression (params : list BabelNode) (body : BlockRef) : BabelNode :=
  functionExpression params (functionBodyNode body).

Definition _getOrCreateClassNode (classPrototype : ObjectValue) : M State BabelNode :=
  λ s, if JSMap.has (classes s) classPrototype
       then (Returned (classExpressionRef classPrototype), s)
       else (Returned (classExpressionRef classPrototype),
             set_classes (JSMap.set (classes s) classPrototype (mkClassNode None [])) s).

Definition getPrelude (instance : FunctionInstance) : Target :=
  match containingAdditionalFunction instance with
  | Some additionalFunction => toAdditionalPrelude additionalFunction
  | None => toGlobalPrelude
  end.

Definition getFunctionBody (instance : FunctionInstance) : Target :=
  toFunctionBody (instance_ref instance).

(** The closure [defineFunction] of [spliceFunctions]. *)
Definition defineFunction (instance : FunctionInstance) (funcId funcOrClassNode : BabelNode)
    : M State unit :=
  let functionValue := instance_functionValue instance in
  do (if bool_decide (0 < length (initializationStatements instance))
      then pushTarget (getFunctionBody instance) (initializationStatements instance)
      else ret tt) then
  let* body :=
    (if isFunctionExpression funcOrClassNode then
       do modify (λ s, set_funcNodes
                         (JSMap.set (funcNodes s) functionValue funcOrClassNode) s) then
       ret (getPrelude instance)
     else
       do invariant (isCallExpression funcOrClassNode || isClassExpression funcOrClassNode) then
       ret (getFunctionBody instance)) in
  do pushTarget body [variableDeclaration funcId funcOrClassNode] then
  let* prototypeId := gets (λ s, JSMap.get (functionPrototypes s) functionValue) in
  match prototypeId with
  | Some prototypeId =>
      let* id := defined (getLocation sv functionValue) in
      pushTarget body
        [variableDeclaration prototypeId (memberExpression id (identifier "prototype"))]
  | None => ret tt
  end.

(** [strictFunctionBodies.push(node)] or [unstrictFunctionBodies.push(node)] *)
Definition pushFunctionBody (strict : bool) (node : BabelNode) : M State unit :=
  modify (λ s, if strict then set_strictFunctionBodies (strictFunctionBodies s ++ [node]) s
               else set_unstrictFunctionBodies (unstrictFunctionBodies s ++ [node]) s).

(** [funcOrClassNode.body.body.unshift(classMethod)] for a constructor,
    [push] for any other method, on the class node keyed by
    [classPrototype]. *)
Definition addClassMethod (classPrototype : ObjectValue) (isConstructor : bool)
    (method : BabelNode) : M State unit :=
  modify (λ s,
    match JSMap.get (classes s) classPrototype with
    | Some node =>
        set_classes
          (JSMap.set (classes s) classPrototype
             (mkClassNode (superClass node)
                (if isConstructor then method :: classBody node
                 else classBody node ++ [method]))) s
    | None => s
    end).

(** [funcOrClassNode.superClass = classSuperNode] when the super node is
    defined. *)
Definition setSuperClass (classPrototype : ObjectValue) (classSuperNode : option BabelNode)
    : M State unit :=
  match classSuperNode with
  | None => ret tt
  | Some _ =>
      modify (λ s,
        match JSMap.get (classes s) classPrototype with
        | Some node =>
            set_classes
              (JSMap.set (classes s) classPrototype
                 (mkClassNode classSuperNode (classBody node))) s
        | None => s
        end)
  end.

(** [node.body.body = statements.concat(node.body.body)] on a function
    expression. *)
Definition prependStatements (statements : list BabelNode) (node : BabelNode)
    : M State BabelNode :=
  match node with
  | functionExpression params (blockStatement stmts) =>
      ret (functionExpression params (blockStatement (statements ++ stmts)))
  | _ => throw TypeError
  end.

(** "Emit code for ModifiedBindings for additional functions". *)
Definition emitModifiedBindings : M State unit :=
  forEach (additionalFunctionValueInfos inp) (λ '(funcValue, funcInfo),
    let* _ := foldM (λ scopes '(_, residualBinding),
        match scope residualBinding with
        | None => ret scopes
        | Some sc =>
            if bool_decide (sc ∈ scopes) then ret scopes
            else
              do invariant (referentialized residualBinding) then
              do pushTo additionalFunctionModifiedBindingsSegment
                   set_additionalFunctionModifiedBindingsSegment funcValue
                   (if bool_decide (referentializationScope sc ≠ scopeOfFunction funcValue)
                    then getReferentializedScopeInitialization sv sc
                           (numericLiteral (scope_id sc))
                    else []) then
              ret (sc :: scopes)
        end) ([] : list ScopeBinding) (modifiedBindings funcInfo) in
    ret tt).

(** "Process Additional Functions": one turn of the loop. *)
Definition processAdditionalFunction
    (rewrittenAdditionalFunctions : list (FunctionValue * list BabelNode))
    (entry : FunctionValue * AdditionalFunctionInfo) : M State unit :=
  let '(funcValue, additionalFunctionInfo) := entry in
  let instance := additional_instance additionalFunctionInfo in
  let* params := defined (FormalParameters inp funcValue) in
  let* rewrittenBody := defined (JSMap.get rewrittenAdditionalFunctions funcValue) in
  let functionBody := blockStatement rewrittenBody in
  let* funcOrClassNode :=
    match JSMap.get (residualClassMethodInstances inp) funcValue with
    | Some classMethodInstance =>
        let isConstructor := bool_decide (methodType classMethodInstance = "constructor") in
        let* key := defined (classMethodKeyNode classMethodInstance) in
        do invariant (isExpression key || isIdentifier key) then
        let* node := _getOrCreateClassNode (classPrototype classMethodInstance) in
        do addClassMethod (classPrototype classMethodInstance) isConstructor
             (classMethod (methodType classMethodInstance) key params functionBody
                (classMethodComputed classMethodInstance)
                (classMethodIsStatic classMethodInstance)) then
        if negb isConstructor then ret None
        else
          do setSuperClass (classPrototype classMethodInstance)
               (classSuperNode classMethodInstance) then
          ret (Some node)
    | None => ret (Some (functionExpression params functionBody))
    end in
  match funcOrClassNode with
  | None => ret tt
  | Some funcOrClassNode =>
      let* id := defined (getLocation sv funcValue) in
      do pushFunctionBody (Strict inp funcValue) funcOrClassNode then
      defineFunction instance id funcOrClassNode
  end.

(** The statements that set up the captured scopes of an instance, with the
    scope index given by [indexOf]. *)
Definition scopeInitializationOf (indexOf : string * ScopeBinding → BabelNode)
    (scopes : list (string * ScopeBinding)) : list BabelNode :=
  concat (map (λ entry, getReferentializedScopeInitialization sv entry.2 (indexOf entry)) scopes).

(** The end of a turn of the two loops over instances: unless the turn
    was for a class method that is no constructor ([continue]), the node is
    recorded among the function bodies and defined at the location of the
    function value. *)
Definition defineInstance (instance : FunctionInstance) (funcOrClassNode : option BabelNode)
    : M State unit :=
  match funcOrClassNode with
  | None => ret tt
  | Some funcOrClassNode =>
      let* id := defined (getLocation sv (instance_functionValue instance)) in
      do pushFunctionBody (Strict inp (instance_functionValue instance)) funcOrClassNode then
      defineFunction instance id funcOrClassNode
  end.

(** The branch of [naiveProcessInstances] for a class method. *)
Definition naiveClassMethod (factoryFunctionInfos : list (Z * FactoryFunctionInfo))
    (funcBody : BlockRef) (params : list BabelNode) (instance : FunctionInstance)
    (classMethodInstance : ClassMethodInstance) : M State (option BabelNode) :=
  let functionValue := instance_functionValue instance in
  let isConstructor := bool_decide (methodType classMethodInstance = "constructor") in
  let* key := defined (classMethodKeyNode classMethodInstance) in
  do invariant (isExpression key || isIdentifier key) then
  let* node := _getOrCreateClassNode (classPrototype classMethodInstance) in
  let hasEmptyConstructor := HasEmptyConstructor inp functionValue in
  do (if negb isConstructor || (isConstructor && negb hasEmptyConstructor) then
        let methodParams := params in
        let* identifierReplacements :=
          _getIdentifierReplacements funcBody (residualFunctionBindings instance) in
        let* callReplacements := _getCallReplacements funcBody in
        addClassMethod (classPrototype classMethodInstance) isConstructor
          (instantiate sv factoryFunctionInfos identifierReplacements callReplacements
             (classMethod (methodType classMethodInstance) key methodParams
                (functionBodyNode funcBody)
                (classMethodComputed classMethodInstance)
                (classMethodIsStatic classMethodInstance)))
      else ret tt) then
  if negb isConstructor then ret None
  else
    do setSuperClass (classPrototype classMethodInstance)
         (classSuperNode classMethodInstance) then
    ret (Some node).

(** The branch of [naiveProcessInstances] for a function that is no class
    method. *)
Definition naiveFunctionExpression (factoryFunctionInfos : list (Z * FactoryFunctionInfo))
    (funcBody : BlockRef) (params : list BabelNode) (instance : FunctionInstance)
    : M State (option BabelNode) :=
  let* identifierReplacements :=
    _getIdentifierReplacements funcBody (residualFunctionBindings instance) in
  let* callReplacements := _getCallReplacements funcBody in
  let node :=
    instantiate sv factoryFunctionInfos identifierReplacements callReplacements
      (_createFunctionExpression params funcBody) in
  let scopeInitialization :=
    scopeInitializationOf (λ entry, numericLiteral (scope_id entry.2))
      (scopeInstances instance) in
  let* node :=
    (if bool_decide (0 < length scopeInitialization)
     then prependStatements scopeInitialization node
     else ret node) in
  ret (Some node).

(** One turn of the loop of [naiveProcessInstances]. *)
Definition naiveProcessInstance (factoryFunctionInfos : list (Z * FactoryFunctionInfo))
    (funcBody : BlockRef) (params : list BabelNode) (instance : FunctionInstance)
    : M State unit :=
  let* funcOrClassNode :=
    match JSMap.get (residualClassMethodInstances inp) (instance_functionValue instance) with
    | Some classMethodInstance =>
        naiveClassMethod factoryFunctionInfos funcBody params instance classMethodInstance
    | None => naiveFunctionExpression factoryFunctionInfos funcBody params instance
    end in
  defineInstance instance funcOrClassNode.

Definition naiveProcessInstances (factoryFunctionInfos : list (Z * FactoryFunctionInfo))
    (funcBody : BlockRef) (params : list BabelNode)
    (instancesToSplice : list FunctionInstance) : M State unit :=
  do modify (add_functionClones (Z.of_nat (length instancesToSplice))) then
  forEach instancesToSplice (naiveProcessInstance factoryFunctionInfos funcBody params).

(** The loop [for (let { residualFunctionBindings } of normalInstances)]
    that compares the bindings of [name] across the instances; it returns
    [isDifferent] and [lastBinding]. *)
Fixpoint compareBindings (name : string) (lastBinding : option ResidualFunctionBinding)
    (instances : list FunctionInstance)
    : M State (bool * option ResidualFunctionBinding) :=
  match instances with
  | [] => ret (false, lastBinding)
  | instance :: rest =>
      let* residualBinding := defined (JSMap.get (residualFunctionBindings instance) name) in
      do invariant (negb (modified residualBinding)) then
      match lastBinding with
      | None => compareBindings name (Some residualBinding) rest
      | Some last =>
          if negb (AreSameResidualBinding sv residualBinding last)
          then ret (true, lastBinding)
          else compareBindings name lastBinding rest
      end
  end.

(** "filter included variables to only include those that are different":
    the names that become factory parameters, and the bindings shared by all
    instances. *)
Definition partitionBindings (names : list string) (first : FunctionInstance)
    (normalInstances : list FunctionInstance)
    : M State (list string * list (string * ResidualFunctionBinding)) :=
  foldM (λ '(factoryNames, sameResidualBindings) name,
      let* firstBinding := defined (JSMap.get (residualFunctionBindings first) name) in
      if modified firstBinding
      then ret (factoryNames, JSMap.set sameResidualBindings name firstBinding)
      else
        let* (isDifferent, lastBinding) := compareBindings name None normalInstances in
        if isDifferent then ret (factoryNames ++ [name], sameResidualBindings)
        else
          let* lastBinding := defined lastBinding in
          ret (factoryNames, JSMap.set sameResidualBindings name lastBinding))
    ([], []) names.

(** The callback of [factoryNames.map(name => ...)] in the instance loop,
    with the array built so far and [hasFunctionArg]. *)
Definition flatArgStep (instance : FunctionInstance) (acc : list BabelNode * bool)
    (name : string) : M State (list BabelNode * bool) :=
  let* residualBinding := defined (JSMap.get (residualFunctionBindings instance) name) in
  let hasFunctionArg :=
    acc.2 ||
    match value residualBinding with Some v => isFunctionValue v | None => false end in
  let* serialized := defined (serializedValue residualBinding) in
  ret (acc.1 ++ [serialized], hasFunctionArg).

(** [factoryNames.map(name => ...)]: the serialized values of the varying
    bindings, and [hasFunctionArg]. *)
Definition flatArgsOfNames (factoryNames : list string) (instance : FunctionInstance)
    : M State (list BabelNode * bool) :=
  foldM (flatArgStep instance) ([], false) factoryNames.

(** The loop [for (let entry of instance.scopeInstances)
    flatArgs.push(t.numericLiteral(entry[1].id))]. *)
Definition scopeArgs (instance : FunctionInstance) : list BabelNode :=
  map (λ entry, numericLiteral (scope_id entry.2)) (scopeInstances instance).

(** The condition under which an instance of a factory gets a forwarding
    function instead of a [bind] call. *)
Definition needsCallWrapper (usesThis hasFunctionArg : bool)
    (functionValue : FunctionValue) (insertionPoint : BodyReference) (s : State) : bool :=
  hasInitializerStatement sv functionValue
  || usesThis
  || hasFunctionArg
  || match JSMap.get (firstFunctionUsages s) functionValue with
     | Some firstUsage => negb (isNotEarlierThan sv firstUsage insertionPoint)
     | None => false
     end
  || bool_decide (is_Some (JSMap.get (functionPrototypes s) functionValue)).

(** The loop over [params] that builds the forwarded arguments: it throws
    at the first parameter that is not an identifier. *)
Fixpoint forwardParams (params : list BabelNode) : M State (list BabelNode) :=
  match params with
  | [] => ret []
  | param :: rest =>
      if isIdentifier param
      then let* args := forwardParams rest in ret (param :: args)
      else throw (FatalError "TODO: do not know how to deal with non-Identifier parameters")
  end.

(** The node that stands for an instance of a factory: the forwarding
    function, which is also recorded among the function bodies, or the
    [bind] call. *)
Definition factoryInstanceStub (factoryId : BabelNode) (factoryNames : list string)
    (params : list BabelNode) (usesThis : bool) (instance : FunctionInstance)
    : M State BabelNode :=
  let functionValue := instance_functionValue instance in
  let* (namedArgs, hasFunctionArg) := flatArgsOfNames factoryNames instance in
  let flatArgs := namedArgs ++ scopeArgs instance in
  let* insertionPoint := defined (insertionPoint instance) in
  let* wrap := gets (needsCallWrapper usesThis hasFunctionArg functionValue insertionPoint) in
  if wrap : bool then
    let* forwarded := forwardParams params in
    let callArgs := thisExpression :: flatArgs ++ forwarded in
    let callee := memberExpression factoryId (identifier "call") in
    let childBody := blockStatement [returnStatement (callExpression callee callArgs)] in
    let funcNode := functionExpression params childBody in
    do pushFunctionBody (Strict inp functionValue) funcNode then
    ret funcNode
  else
    ret (callExpression (memberExpression factoryId (identifier "bind"))
           (nullLiteral :: flatArgs)).

(** One turn of the loop [for (let instance of normalInstances)] of the
    factory path. *)
Definition processFactoryInstance (factoryId : BabelNode) (factoryNames : list string)
    (params : list BabelNode) (usesThis : bool) (instance : FunctionInstance)
    : M State unit :=
  let* functionId := defined (getLocation sv (instance_functionValue instance)) in
  let* funcNode := factoryInstanceStub factoryId factoryNames params usesThis instance in
  defineFunction instance functionId funcNode.

(** The factory path of "Process normal functions". *)
Definition factoryProcessInstances (factoryFunctionInfos : list (Z * FactoryFunctionInfo))
    (funcBody : BlockRef) (functionInfo : FunctionInfo) (params : list BabelNode)
    (normalInstances : list FunctionInstance) : M State unit :=
  do invariant (truthy (uniqueOrderedTag inp funcBody)) then
  let* factoryInfo := defined (JSMap.get factoryFunctionInfos (tagOf funcBody)) in
  let* first := (match head normalInstances with
                 | Some instance => ret instance
                 | None => throw TypeError
                 end) in
  let* (factoryNames, sameResidualBindings) :=
    partitionBindings (JSMap.keys (unbound functionInfo)) first normalInstances in
  let factoryParams :=
    map identifier factoryNames
    ++ map (λ entry, identifier entry.1) (scopeInstances first)
    ++ params in
  let scopeInitialization :=
    scopeInitializationOf (λ entry, identifier entry.1) (scopeInstances first) in
  let* identifierReplacements := _getIdentifierReplacements funcBody sameResidualBindings in
  let* callReplacements := _getCallReplacements funcBody in
  let factoryNode :=
    instantiate sv factoryFunctionInfos identifierReplacements callReplacements
      (_createFunctionExpression factoryParams funcBody) in
  let* factoryNode :=
    (if bool_decide (0 < length scopeInitialization)
     then prependStatements scopeInitialization factoryNode
     else ret factoryNode) in
  let* factoryId := (match factoryId factoryInfo with
                     | Some id => ret id
                     | None => throw TypeError
                     end) in
  do pushTarget toGlobalPrelude [variableDeclaration factoryId factoryNode] then
  do pushFunctionBody (Strict inp (instance_functionValue first)) factoryNode then
  forEach normalInstances
    (processFactoryInstance factoryId factoryNames params (usesThis functionInfo)).

(** "Split instances into normal or nested in an additional function". *)
Definition isNestedInstance (instance : FunctionInstance) : bool :=
  bool_decide (instance_functionValue instance ∈ additionalFunctionValueNestedFunctions inp).

Definition additionalFunctionNestedInstancesOf (instances : list FunctionInstance)
    : list FunctionInstance :=
  List.filter isNestedInstance instances.

Definition normalInstancesOf (instances : list FunctionInstance) : list FunctionInstance :=
  List.filter (λ instance, negb (isNestedInstance instance)) instances.

(** "Process normal functions": one turn of the loop over the sorted
    entries. *)
Definition processFunctionEntry (factoryFunctionInfos : list (Z * FactoryFunctionInfo))
    (entry : BlockRef * list FunctionInstance) : M State unit :=
  let '(funcBody, instances) := entry in
  let* functionInfo := defined (JSMap.get (residualFunctionInfos inp) funcBody) in
  let* first := (match head instances with
                 | Some instance => ret instance
                 | None => throw TypeError
                 end) in
  let* params := defined (FormalParameters inp (instance_functionValue first)) in
  let additionalFunctionNestedInstances := additionalFunctionNestedInstancesOf instances in
  let normalInstances := normalInstancesOf instances in
  do (if bool_decide (0 < length additionalFunctionNestedInstances)
      then naiveProcessInstances factoryFunctionInfos funcBody params
             additionalFunctionNestedInstances
      else ret tt) then
  if bool_decide (0 < length normalInstances) then
    let* useFactory := _shouldUseFactoryFunction funcBody normalInstances in
    if negb useFactory then
      do naiveProcessInstances factoryFunctionInfos funcBody params normalInstances then
      modify (add_functionClones (-1))
    else
      factoryProcessInstances factoryFunctionInfos funcBody functionInfo params normalInstances
  else ret tt.

Definition unshiftTarget (target : Target) (items : list BabelNode) : M State unit :=
  match target with
  | toGlobalPrelude => modify (λ s, set_prelude (items ++ prelude s) s)
  | toAdditionalPrelude f =>
      unshiftTo additionalFunctionPreludes set_additionalFunctionPreludes f items
  | toFunctionBody i => unshiftTo functionBodies set_functionBodies i items
  end.

(** The loop over [referentializationState.keys()]. *)
Definition emitCapturedScopesPreludes : M State unit :=
  forEach (referentializationState_keys sv) (λ referentializationScope,
    let target := match referentializationScope with
                  | GLOBAL => toGlobalPrelude
                  | scopeOfFunction additionalFunction => toAdditionalPrelude additionalFunction
                  end in
    do unshiftTarget target [createCaptureScopeAccessFunction sv referentializationScope] then
    unshiftTarget target [createCapturedScopesArrayInitialization sv referentializationScope]).

(** One turn of the loop [for (let instance of this.functionInstances.reverse())]. *)
Definition spliceInstanceBody (instance : FunctionInstance) : M State unit :=
  let* functionBody := gets (λ s, JSMap.get (functionBodies s) (instance_ref instance)) in
  match functionBody with
  | Some functionBody =>
      let* insertionPoint := defined (insertionPoint instance) in
      modify (λ s, set_serializedBodies
                     (spliceBody insertionPoint functionBody (serializedBodies s)) s)
  | None => ret tt
  end.

Definition spliceInstanceBodies : M State unit :=
  do modify (λ s, set_functionInstances (reverse (functionInstances s)) s) then
  let* instances := gets functionInstances in
  forEach instances spliceInstanceBody.

Record ResidualFunctionsResult : Type := mkResult {
  result_unstrictFunctionBodies : list BabelNode;
  result_strictFunctionBodies : list BabelNode
}.

(** [spliceFunctions], from its start to the splice of the statement groups
    of the instances into their insertion points.  The two loops that follow
    in the source (the splice of the rewritten bodies of the additional
    functions, and the injection of the delayed initializers into function
    nodes) change nodes that are already emitted; they leave the two
    returned arrays, the order of their elements and the statement groups as
    they are, and they are not part of the embedding. *)
Definition spliceFunctions
    (rewrittenAdditionalFunctions : list (FunctionValue * list BabelNode))
    : M State ResidualFunctionsResult :=
  do modify (λ s, set_functionBodies []
               (set_additionalFunctionPreludes []
                  (set_additionalFunctionModifiedBindingsSegment []
                     (set_unstrictFunctionBodies []
                        (set_strictFunctionBodies [] (set_funcNodes [] s)))))) then
  let* functionEntries := gets functions in
  let* functionEntries := _sortFunctionByOriginalOrdering functionEntries in
  do modify (set_stat_functions (Z.of_nat (length functionEntries))) then
  do emitModifiedBindings then
  do forEach (additionalFunctionValueInfos inp)
       (processAdditionalFunction rewrittenAdditionalFunctions) then
  let* factoryFunctionInfos := _generateFactoryFunctionInfos rewrittenAdditionalFunctions in
  do forEach functionEntries (processFunctionEntry factoryFunctionInfos) then
  do emitCapturedScopesPreludes then
  do spliceInstanceBodies then
  let* unstrict := gets unstrictFunctionBodies in
  let* strict := gets strictFunctionBodies in
  ret (mkResult unstrict strict).
End methods.

(** *** The expected layout of a body after the splices

    The statement groups recorded for a body, each with the index of its
    insertion point, in the order in which the instances were registered. *)
Definition groupsIn (groups : list (InstanceRef * list BabelNode)) (b : BodyRef)
    (instances : list FunctionInstance) : list (nat * list BabelNode) :=
  omap (λ instance,
      match JSMap.get groups (instance_ref instance), insertionPoint instance with
      | Some group, Some point =>
          if decide (body point = b) then Some (index point, group) else None
      | _, _ => None
      end)
    instances.

Definition groupsOf (s : State) (b : BodyRef) : list (nat * list BabelNode) :=
  groupsIn (functionBodies s) b (functionInstances s).

(** The groups recorded at position [k], in order, as one run of
    statements. *)
Definition groupsAt (k : nat) (groups : list (nat * list BabelNode)) : list BabelNode :=
  concat (map snd (List.filter (λ g, bool_decide (g.1 = k)) groups)).

(** The interleaving of the original statements with the groups, computed
    position by position: before the statement that was at position [k]
    come the groups recorded at [k]; the groups recorded at the end of the
    body come last. *)
Fixpoint interleaveFrom (k : nat) (original : list BabelNode)
    (groups : list (nat * list BabelNode)) : list BabelNode :=
  match original with
  | [] => groupsAt k groups
  | statement :: rest => groupsAt k groups ++ statement :: interleaveFrom (S k) rest groups
  end.

Definition interleave (original : list BabelNode) (groups : list (nat * list BabelNode))
    : list BabelNode :=
  interleaveFrom 0 original groups.

(** Splicing the groups one after the other, the last group first. *)
Definition spliceGroups (original : list BabelNode) (groups : list (nat * list BabelNode))
    : list BabelNode :=
  foldr (λ g acc, splice acc g.1 g.2) original groups.

(** **** Splicing in reverse order *)

Lemma groupsAt_cons_eq k items groups :
  groupsAt k ((k, items) :: groups) = items ++ groupsAt k groups.
Proof. unfold groupsAt. simpl. by rewrite bool_decide_eq_true_2. Qed.

Lemma groupsAt_cons_ne k i items groups :
  i ≠ k → groupsAt k ((i, items) :: groups) = groupsAt k groups.
Proof. intros Hne. unfold groupsAt. simpl. by rewrite bool_decide_eq_false_2. Qed.

Lemma groupsAt_below k groups :
  Forall (λ g, k < g.1) groups → groupsAt k groups = [].
Proof.
  induction 1 as [|[i items] groups Hlt _ IH]; [done|].
  simpl in Hlt. rewrite groupsAt_cons_ne by lia. done.
Qed.

(** A group recorded before position [k] plays no part from [k] on. *)
Lemma interleaveFrom_cons_lt k i items original groups :
  i < k → interleaveFrom k original ((i, items) :: groups) = interleaveFrom k original groups.
Proof.
  revert k. induction original as [|e rest IH]; intros k Hlt; simpl.
  - by rewrite groupsAt_cons_ne by lia.
  - rewrite groupsAt_cons_ne by lia. by rewrite IH by lia.
Qed.

Lemma interleaveFrom_cons_eq k items original groups :
  interleaveFrom k original ((k, items) :: groups) = items ++ interleaveFrom k original groups.
Proof.
  destruct original as [|e rest]; simpl.
  - apply groupsAt_cons_eq.
  - rewrite groupsAt_cons_eq, interleaveFrom_cons_lt by lia. by rewrite <-app_assoc.
Qed.

(** Up to the least recorded position the body is as it was. *)
Lemma interleaveFrom_skip j k original groups :
  Forall (λ g, k + j ≤ g.1) groups → j ≤ length original →
  interleaveFrom k original groups =
    take j original ++ interleaveFrom (k + j) (drop j original) groups.
Proof.
  revert k original. induction j as [|j IH]; intros k original Hall Hlen.
  - by rewrite Nat.add_0_r.
  - destruct original as [|e rest]; simpl in *; [lia|].
    rewrite groupsAt_below by (eapply Forall_impl; [done|]; simpl; intros; lia).
    simpl. f_equal. rewrite (IH (S k)).
    + by replace (S k + j) with (k + S j) by lia.
    + eapply Forall_impl; [done|]. simpl. intros. lia.
    + lia.
Qed.

Lemma splice_interleave original i items groups :
  Forall (λ g, i ≤ g.1) groups → i ≤ length original →
  splice (interleave original groups) i items = interleave original ((i, items) :: groups).
Proof.
  intros Hall Hlen. unfold interleave, splice.
  rewrite (interleaveFrom_skip i 0 original groups) by done.
  rewrite (interleaveFrom_skip i 0 original ((i, items) :: groups));
    [|by constructor|done].
  simpl. rewrite interleaveFrom_cons_eq.
  rewrite take_app_length' by (rewrite length_take; lia).
  rewrite drop_app_length' by (rewrite length_take; lia). done.
Qed.

(** Splicing groups of non-decreasing positions, the last one first, gives
    the interleaving. *)
Lemma spliceGroups_interleave original groups :
  StronglySorted le groups.*1 → Forall (λ g, g.1 ≤ length original) groups →
  spliceGroups original groups = interleave original groups.
Proof.
  induction groups as [|[i items] groups IH]; simpl; intros Hsorted Hbound.
  - unfold interleave. clear. generalize 0.
    induction original as [|e rest IH]; intros k; simpl; [done|]. by rewrite <-IH.
  - apply StronglySorted_inv in Hsorted as [Hsorted Hle].
    apply Forall_cons in Hbound as [Hi Hbound].
    unfold spliceGroups in *. simpl. rewrite IH by done.
    apply splice_interleave; [|done].
    rewrite Forall_fmap in Hle. exact Hle.
Qed.

(** **** The splice loop on the store of bodies *)

(** What one turn of the splice loop does to the store, when it does not
    throw. *)
Definition spliceStep (groups : list (InstanceRef * list BabelNode))
    (bs : gmap BodyRef SerializedBody) (instance : FunctionInstance)
    : gmap BodyRef SerializedBody :=
  match JSMap.get groups (instance_ref instance), insertionPoint instance with
  | Some group, Some point => spliceBody point group bs
  | _, _ => bs
  end.

Lemma set_serializedBodies_id s : set_serializedBodies (serializedBodies s) s = s.
Proof. by destruct s. Qed.

Lemma set_serializedBodies_twice bs1 bs2 s :
  set_serializedBodies bs1 (set_serializedBodies bs2 s) = set_serializedBodies bs1 s.
Proof. done. Qed.

Lemma forEach_spliceInstanceBody l s :
  Forall (λ instance, is_Some (JSMap.get (functionBodies s) (instance_ref instance)) →
            is_Some (insertionPoint instance)) l →
  forEach l spliceInstanceBody s =
    (Returned tt,
     set_serializedBodies (foldl (spliceStep (functionBodies s)) (serializedBodies s) l) s).
Proof.
  revert s. induction l as [|instance l IH]; intros s Hall; simpl.
  - by rewrite set_serializedBodies_id.
  - apply Forall_cons in Hall as [Hpoint Hall].
    unfold bind at 1. unfold spliceInstanceBody at 1, bind, gets, spliceStep at 2.
    destruct (JSMap.get (functionBodies s) (instance_ref instance)) as [group|] eqn:Hg.
    + destruct (Hpoint (mk_is_Some _ _ eq_refl)) as [point Hp]. rewrite Hp. simpl.
      rewrite IH by done. simpl. by rewrite set_serializedBodies_twice.
    + simpl. by rewrite IH.
Qed.

Lemma spliceStep_lookup groups bs instance b :
  spliceStep groups bs instance !! b =
    match groupsIn groups b [instance] with
    | [] => bs !! b
    | g :: _ =>
        (λ old, mkSerializedBody (body_type old) (parentBody old)
                  (splice (entries old) g.1 g.2) (done_ old)) <$> bs !! b
    end.
Proof.
  unfold spliceStep, groupsIn. simpl.
  destruct (JSMap.get groups (instance_ref instance)) as [group|]; [|done].
  destruct (insertionPoint instance) as [point|]; [|done]. simpl.
  unfold spliceBody. destruct (decide (body point = b)) as [<-|Hne]; simpl.
  - by rewrite lookup_alter_eq.
  - by rewrite lookup_alter_ne.
Qed.

(** After the loop over the reversed instances, a body holds what splicing
    its own groups, the last one first, makes of its statements. *)
Lemma spliced_body_entries groups bs instances b old :
  bs !! b = Some old →
  foldl (spliceStep groups) bs (reverse instances) !! b =
    Some (mkSerializedBody (body_type old) (parentBody old)
            (spliceGroups (entries old) (groupsIn groups b instances)) (done_ old)).
Proof.
  intros Hold. induction instances as [|instance instances IH]; simpl.
  - rewrite Hold. by destruct old.
  - rewrite reverse_cons, foldl_snoc, spliceStep_lookup, IH.
    unfold groupsIn. simpl.
    destruct (JSMap.get groups (instance_ref instance)) as [group|]; [|done].
    destruct (insertionPoint instance) as [point|]; [|done]. simpl.
    by destruct (decide (body point = b)).
Qed.

(** C8 (amended).  Splice safety.  Let every instance that has a statement
    group have an insertion point, and let, for every body, the recorded
    indices of the groups that go into it be non-decreasing in the order in
    which the instances were registered, and lie within the body.  Then the
    splice loop, which runs over the instances in reverse order, returns, and
    every body ends up as the interleaving of its original statements with
    its groups, each group at its recorded position; groups that share one
    insertion point come in the order of registration. *)
Theorem splice_in_reverse_order (s : State) :
  Forall (λ instance, is_Some (JSMap.get (functionBodies s) (instance_ref instance)) →
            is_Some (insertionPoint instance)) (functionInstances s) →
  (∀ b old, serializedBodies s !! b = Some old →
     StronglySorted le (groupsOf s b).*1 ∧
     Forall (λ g, g.1 ≤ length (entries old)) (groupsOf s b)) →
  ∃ s', spliceInstanceBodies s = (Returned tt, s') ∧
    ∀ b old, serializedBodies s !! b = Some old →
      ∃ new, serializedBodies s' !! b = Some new ∧
             entries new = interleave (entries old) (groupsOf s b).
Proof.
  intros Hpoints Hsorted. unfold spliceInstanceBodies, bind, modify, gets. simpl.
  rewrite forEach_spliceInstanceBody by (simpl; by apply Forall_reverse).
  eexists. split; [done|]. simpl. intros b old Hold.
  destruct (Hsorted b old Hold) as [Hs Hb].
  eexists. split; [by apply spliced_body_entries|]. simpl.
  by apply spliceGroups_interleave.
Qed.

Definition exampleInstance (ref : InstanceRef) (b : BodyRef) (i : nat) : FunctionInstance :=
  mkFunctionInstance ref ref [] [] (Some (mkBodyReference b i)) [] None.

Definition exampleSpliceState (instances : list FunctionInstance)
    (groups : list (InstanceRef * list BabelNode)) (original : list BabelNode) : State :=
  mkState [] [] [] [] [] instances 0 (mkStatistics 0 0 0 0)
    {[ 0 := mkSerializedBody "MainGenerator" None original false ]}
    groups [] [] [] [] [].

(** Three groups that share the insertion point 1 of body 0, and a fourth
    group at its end. *)
Definition exampleSharedPoint : State :=
  exampleSpliceState
    [exampleInstance 1 0 1; exampleInstance 2 0 1; exampleInstance 3 0 1;
     exampleInstance 4 0 3]
    [(1, [sourceStatement 11]); (2, [sourceStatement 21; sourceStatement 22]);
     (3, [sourceStatement 31]); (4, [sourceStatement 41])]
    [sourceStatement 0; sourceStatement 1; sourceStatement 2].

Lemma splice_in_reverse_order_witness :
  ∃ s', spliceInstanceBodies exampleSharedPoint = (Returned tt, s') ∧
    ∀ b old, serializedBodies exampleSharedPoint !! b = Some old →
      ∃ new, serializedBodies s' !! b = Some new ∧
             entries new = interleave (entries old) (groupsOf exampleSharedPoint b).
Proof.
  apply (splice_in_reverse_order exampleSharedPoint).
  - repeat constructor; eauto.
  - simpl. intros b old [<- <-]%lookup_singleton_Some. split.
    + vm_compute. repeat constructor.
    + vm_compute. repeat constructor.
Defined.

Example splice_shared_point_result :
  entries <$> serializedBodies (spliceInstanceBodies exampleSharedPoint).2 !! 0 =
    Some [sourceStatement 0;
          sourceStatement 11; sourceStatement 21; sourceStatement 22; sourceStatement 31;
          sourceStatement 1; sourceStatement 2; sourceStatement 41].
Proof. reflexivity. Qed.

(** Two instances whose insertion points are not in the order of their
    registration: the first registered instance goes to index 1, the second
    to index 0. *)
Definition exampleOutOfOrder : State :=
  exampleSpliceState
    [exampleInstance 1 0 1; exampleInstance 2 0 0]
    [(1, [sourceStatement 11]); (2, [sourceStatement 21])]
    [sourceStatement 0; sourceStatement 1].

(** C8, as stated, fails when the recorded indices are not in the order of
    processing: the group recorded at index 1 lands before the statement that
    was at index 0. *)
Lemma splice_out_of_order_counterexample :
  (spliceInstanceBodies exampleOutOfOrder).1 = Returned tt ∧
  entries <$> serializedBodies (spliceInstanceBodies exampleOutOfOrder).2 !! 0 =
    Some [sourceStatement 21; sourceStatement 11; sourceStatement 0; sourceStatement 1] ∧
  interleave [sourceStatement 0; sourceStatement 1] (groupsOf exampleOutOfOrder 0) =
    [sourceStatement 21; sourceStatement 0; sourceStatement 11; sourceStatement 1] ∧
  entries <$> serializedBodies (spliceInstanceBodies exampleOutOfOrder).2 !! 0 ≠
    Some (interleave [sourceStatement 0; sourceStatement 1] (groupsOf exampleOutOfOrder 0)).
Proof. split_and!; [reflexivity..|discriminate]. Qed.

(** *** The stub of an instance of a factory *)

(** The disjunction that decides for the forwarding function, read off the
    data: a delayed initializer statement, a use of [this], a varying binding
    whose value is a function, a first usage that is not "not earlier than"
    the insertion point, or a prototype identifier. *)
Definition requiresCallWrapper (sv : Services) (usesThis : bool) (factoryNames : list string)
    (instance : FunctionInstance) (point : BodyReference) (s : State) : Prop :=
  hasInitializerStatement sv (instance_functionValue instance) = true ∨
  usesThis = true ∨
  (∃ name binding f, name ∈ factoryNames ∧
     JSMap.get (residualFunctionBindings instance) name = Some binding ∧
     value binding = Some (functionValue f)) ∨
  (∃ firstUsage,
     JSMap.get (firstFunctionUsages s) (instance_functionValue instance) = Some firstUsage ∧
     isNotEarlierThan sv firstUsage point = false) ∨
  is_Some (JSMap.get (functionPrototypes s) (instance_functionValue instance)).

(** Every varying name has a binding with a serialized value, which is what
    the loop over the names asserts; [args] are the serialized values. *)
Definition varyingArgs (factoryNames : list string) (instance : FunctionInstance)
    (args : list BabelNode) : Prop :=
  Forall2 (λ name arg, ∃ binding,
      JSMap.get (residualFunctionBindings instance) name = Some binding ∧
      serializedValue binding = Some arg)
    factoryNames args.

Lemma forwardParams_identifiers params s :
  Forall (λ param, isIdentifier param = true) params →
  forwardParams params s = (Returned params, s).
Proof.
  induction 1 as [|param params Hid _ IH]; simpl; [done|].
  rewrite Hid. unfold bind. by rewrite IH.
Qed.


Lemma flatArgsOfNames_spec factoryNames instance args s :
  varyingArgs factoryNames instance args →
  ∃ hasFunctionArg,
    flatArgsOfNames factoryNames instance s = (Returned (args, hasFunctionArg), s) ∧
    (hasFunctionArg = true ↔
       ∃ name binding f, name ∈ factoryNames ∧
         JSMap.get (residualFunctionBindings instance) name = Some binding ∧
         value binding = Some (functionValue f)).
Proof.
  unfold flatArgsOfNames, varyingArgs.
  cut (∀ acc flag,
    Forall2 (λ name arg, ∃ binding,
      JSMap.get (residualFunctionBindings instance) name = Some binding ∧
      serializedValue binding = Some arg) factoryNames args →
    ∃ hasFunctionArg,
      foldM (flatArgStep instance) (acc, flag) factoryNames s
      = (Returned (acc ++ args, hasFunctionArg), s) ∧
      (hasFunctionArg = true ↔ flag = true ∨
         ∃ name binding f, name ∈ factoryNames ∧
           JSMap.get (residualFunctionBindings instance) name = Some binding ∧
           value binding = Some (functionValue f))).
  { intros Hcut Hall. destruct (Hcut [] false Hall) as (flag & Hrun & Hflag).
    exists flag. split; [done|]. rewrite Hflag. split; [|auto]. by intros [?|?]. }
  intros acc flag Hall. revert acc flag.
  induction Hall as [|name arg names args (binding & Hget & Hser) Hall IH]; intros acc flag.
  - exists flag. simpl. rewrite app_nil_r. split; [done|]. split; [auto|].
    intros [?|(name & ? & ? & Hin & _)]; [done|]. by apply elem_of_nil in Hin.
  - destruct (IH (acc ++ [arg])
      (flag || match value binding with Some v => isFunctionValue v | None => false end))
      as (flag' & Hrun & Hflag).
    exists flag'. split.
    + cbn [foldM]. unfold bind at 1. unfold flatArgStep at 1, bind, defined.
      rewrite Hget. cbn [ret]. rewrite Hser. cbn [ret fst snd].
      rewrite Hrun. by rewrite <-app_assoc.
    + rewrite Hflag, orb_true_iff. split.
      * intros [[?|Hv]|(n & b & f & Hin & Hg & Hval)]; [by left| |].
        -- right. destruct (value binding) as [[f|]|] eqn:Hvalue; try done.
           exists name, binding, f. split_and!; [left|done..].
        -- right. exists n, b, f. split_and!; [by right|done..].
      * intros [?|(n & b & f & Hin & Hg & Hval)]; [by left; left|].
        apply elem_of_cons in Hin as [->|Hin].
        -- left. right. rewrite Hget in Hg. injection Hg as <-. by rewrite Hval.
        -- right. by exists n, b, f.
Qed.

Lemma needsCallWrapper_spec sv usesThis factoryNames instance point hasFunctionArg s :
  (hasFunctionArg = true ↔
     ∃ name binding f, name ∈ factoryNames ∧
       JSMap.get (residualFunctionBindings instance) name = Some binding ∧
       value binding = Some (functionValue f)) →
  needsCallWrapper sv usesThis hasFunctionArg (instance_functionValue instance) point s = true ↔
  requiresCallWrapper sv usesThis factoryNames instance point s.
Proof.
  intros Hflag. unfold needsCallWrapper, requiresCallWrapper.
  rewrite !orb_true_iff, bool_decide_eq_true, Hflag.
  destruct (JSMap.get (firstFunctionUsages s) (instance_functionValue instance)) as [u|].
  - assert ((∃ firstUsage, Some u = Some firstUsage ∧
               isNotEarlierThan sv firstUsage point = false) ↔
            isNotEarlierThan sv u point = false) as ->.
    { split; [by intros (? & [= <-] & ?)|intros; by exists u]. }
    rewrite negb_true_iff. tauto.
  - assert ((∃ firstUsage, @None BodyReference = Some firstUsage ∧
               isNotEarlierThan sv firstUsage point = false) ↔ False) as ->.
    { split; [by intros (? & [=] & ?)|done]. }
    assert (false = true ↔ False) as -> by (split; [discriminate|done]).
    tauto.
Qed.

(** [function (...params) { return factory.call(this, ...flatArgs, ...params); }] *)
Definition callWrapper (factoryId : BabelNode) (flatArgs params : list BabelNode) : BabelNode :=
  functionExpression params
    (blockStatement
       [returnStatement
          (callExpression (memberExpression factoryId (identifier "call"))
             (thisExpression :: flatArgs ++ params))]).

(** [factory.bind(null, ...flatArgs)] *)
Definition bindCall (factoryId : BabelNode) (flatArgs : list BabelNode) : BabelNode :=
  callExpression (memberExpression factoryId (identifier "bind")) (nullLiteral :: flatArgs).

Lemma factoryInstanceStub_run inp sv factoryId factoryNames params usesThis instance
    point args s :
  varyingArgs factoryNames instance args →
  insertionPoint instance = Some point →
  ∃ wrap : bool,
    (wrap = true ↔ requiresCallWrapper sv usesThis factoryNames instance point s) ∧
    factoryInstanceStub inp sv factoryId factoryNames params usesThis instance s =
      if wrap then
        (let* forwarded := forwardParams params in
         let funcNode :=
           functionExpression params
             (blockStatement
                [returnStatement
                   (callExpression (memberExpression factoryId (identifier "call"))
                      (thisExpression :: (args ++ scopeArgs instance) ++ forwarded))]) in
         do pushFunctionBody (Strict inp (instance_functionValue instance)) funcNode then
         ret funcNode) s
      else (Returned (bindCall factoryId (args ++ scopeArgs instance)), s).
Proof.
  intros Hargs Hpoint.
  destruct (flatArgsOfNames_spec _ _ _ s Hargs) as (flag & Hrun & Hflag).
  exists (needsCallWrapper sv usesThis flag (instance_functionValue instance) point s).
  split; [by apply needsCallWrapper_spec|].
  unfold factoryInstanceStub. unfold bind at 1. rewrite Hrun.
  unfold bind at 1. rewrite Hpoint. cbn [defined ret].
  unfold bind at 1. unfold gets.
  by destruct (needsCallWrapper sv usesThis flag (instance_functionValue instance) point s).
Qed.

(** C7.  The stub of an instance on the factory path.  Let the varying
    bindings of the instance have the serialized values [args] and let the
    instance have the insertion point [point]; the arguments handed to the
    factory are [args] followed by the ids of the captured scopes of the
    instance.  If the instance has a delayed initializer statement, or the
    code uses [this], or a varying binding is function-valued, or the first
    recorded usage is earlier than the insertion point, or there is a
    prototype identifier, the stub is the forwarding function
    [factory.call(this, ...args, ...params)] (for parameters that are all
    identifiers), and it is recorded among the function bodies; in every
    other case it is the expression [factory.bind(null, ...args)] and
    nothing is recorded.  The stub is the forwarding function exactly in the
    first case. *)
Theorem factory_stub_call_or_bind (inp : Inputs) (sv : Services) (factoryId : BabelNode)
    (factoryNames : list string) (params : list BabelNode) (usesThis : bool)
    (instance : FunctionInstance) (point : BodyReference) (args : list BabelNode)
    (s : State) :
  varyingArgs factoryNames instance args →
  insertionPoint instance = Some point →
  (requiresCallWrapper sv usesThis factoryNames instance point s →
   Forall (λ param, isIdentifier param = true) params →
   factoryInstanceStub inp sv factoryId factoryNames params usesThis instance s =
     (Returned (callWrapper factoryId (args ++ scopeArgs instance) params),
      (pushFunctionBody (Strict inp (instance_functionValue instance))
         (callWrapper factoryId (args ++ scopeArgs instance) params) s).2)) ∧
  (¬ requiresCallWrapper sv usesThis factoryNames instance point s →
   factoryInstanceStub inp sv factoryId factoryNames params usesThis instance s =
     (Returned (bindCall factoryId (args ++ scopeArgs instance)), s)) ∧
  (∀ node, (factoryInstanceStub inp sv factoryId factoryNames params usesThis instance s).1
             = Returned node →
     (isFunctionExpression node = true ↔
        requiresCallWrapper sv usesThis factoryNames instance point s) ∧
     (node = bindCall factoryId (args ++ scopeArgs instance) ↔
        ¬ requiresCallWrapper sv usesThis factoryNames instance point s)).
Proof.
  intros Hargs Hpoint.
  destruct (factoryInstanceStub_run inp sv factoryId factoryNames params usesThis
              instance point args s Hargs Hpoint) as (wrap & Hwrap & ->).
  split_and!.
  - intros Hreq Hids. apply Hwrap in Hreq as ->.
    unfold bind at 1. rewrite forwardParams_identifiers by done. done.
  - intros Hnreq. destruct wrap; [|done]. destruct Hnreq. by apply Hwrap.
  - intros node. destruct wrap.
    + unfold bind at 1. destruct (forwardParams params s) as [[forwarded|e] s1]; [|done].
      cbn. intros [= <-]. split; split; try done.
      * intros _. by apply Hwrap.
      * intros Hn. destruct Hn. by apply Hwrap.
    + cbn. intros [= <-]. split; split; try done.
      * intros ?%Hwrap. done.
      * intros _ ?%Hwrap. done.
Qed.


(** *** What a fatal error leaves behind *)

(** A computation that leaves a part [f] of the state as it is (for
    instance the bodies of the insertion points), and one that never throws
    the fatal error. *)
Definition keeps {A X} (f : State → X) (m : M State A) : Prop :=
  ∀ s, f (m s).2 = f s.

Abbreviation keepsBodies := (keeps serializedBodies).



Section keeps.
Context {X : Type} (f : State → X).

Lemma keeps_ret {A} (a : A) : keeps f (ret a).
Proof. done. Qed.

Lemma keeps_throw {A} e : keeps f (@throw State A e).
Proof. done. Qed.

Lemma keeps_gets {A} (g : State → A) : keeps f (gets g).
Proof. done. Qed.

Lemma keeps_invariant c : keeps f (invariant c).
Proof. by destruct c. Qed.

Lemma keeps_defined {A} (x : option A) : keeps f (defined x).
Proof. by destruct x. Qed.

Lemma keeps_modify (g : State → State) :
  (∀ s, f (g s) = f s) → keeps f (modify g).
Proof. intros Hg s. apply Hg. Qed.

Lemma keeps_bind {A B} (m : M State A) (k : A → M State B) :
  keeps f m → (∀ a, keeps f (k a)) → keeps f (bind m k).
Proof.
  intros Hm Hk s. unfold bind. specialize (Hm s).
  destruct (m s) as [[a|e] s1]; simpl in *; [|done]. by rewrite Hk.
Qed.

Lemma keeps_forEach {A} (l : list A) (body : A → M State unit) :
  (∀ x, keeps f (body x)) → keeps f (forEach l body).
Proof.
  intros Hbody. induction l as [|x l IH]; simpl; [done|].
  apply keeps_bind; [done|]. by intros _.
Qed.

Lemma keeps_foldM {A B} (g : B → A → M State B) acc (l : list A) :
  (∀ acc x, keeps f (g acc x)) → keeps f (foldM g acc l).
Proof.
  intros Hg. revert acc. induction l as [|x l IH]; intros acc; simpl; [done|].
  apply keeps_bind; [done|]. intros acc'. apply IH.
Qed.

Lemma keeps_pushTo {K} `{EqDecision K} get_map put_map (key : K) items :
  (∀ m s, f (put_map m s) = f s) →
  keeps f (pushTo get_map put_map key items).
Proof.
  intros Hput s. unfold pushTo, getOrDefault.
  destruct (JSMap.get (get_map s) key); simpl; by rewrite !Hput.
Qed.

Lemma keeps_unshiftTo {K} `{EqDecision K} get_map put_map (key : K) items :
  (∀ m s, f (put_map m s) = f s) →
  keeps f (unshiftTo get_map put_map key items).
Proof.
  intros Hput s. unfold unshiftTo, getOrDefault.
  destruct (JSMap.get (get_map s) key); simpl; by rewrite !Hput.
Qed.

Lemma keeps_compareBindings sv name last instances :
  keeps f (compareBindings sv name last instances).
Proof.
  revert last. induction instances as [|instance rest IH]; intros last; simpl.
  - apply keeps_ret.
  - apply keeps_bind; [apply keeps_defined|intros binding].
    apply keeps_bind; [apply keeps_invariant|intros _].
    destruct last as [last|]; [|apply IH].
    destruct (negb _); [apply keeps_ret|apply IH].
Qed.

Lemma keeps_forwardParams params : keeps f (forwardParams params).
Proof.
  induction params as [|param rest IH]; simpl; [apply keeps_ret|].
  destruct (isIdentifier param); [|apply keeps_throw].
  apply keeps_bind; [done|intros args]. apply keeps_ret.
Qed.
End keeps.









(** The steps of a proof that a method keeps a part of the state: the
    method is unfolded down to the writes, and the writes are checked. *)
Ltac keeps_step :=
  match goal with
  | |- keeps _ (bind _ _) => apply keeps_bind; [|intros]
  | |- keeps _ (ret _) => apply keeps_ret
  | |- keeps _ (throw _) => apply keeps_throw
  | |- keeps _ (gets _) => apply keeps_gets
  | |- keeps _ (invariant _) => apply keeps_invariant
  | |- keeps _ (defined _) => apply keeps_defined
  | |- keeps _ (compareBindings _ _ _ _) => apply keeps_compareBindings
  | |- keeps _ (forwardParams _) => apply keeps_forwardParams
  | |- keeps _ (modify _) => apply keeps_modify; intros; simpl; try done
  | |- keeps _ (forEach _ _) => apply keeps_forEach; intros
  | |- keeps _ (foldM _ _ _) => apply keeps_foldM; intros
  | |- keeps _ (pushTo _ _ _ _) => apply keeps_pushTo; intros; done
  | |- keeps _ (unshiftTo _ _ _ _) => apply keeps_unshiftTo; intros; done
  | |- keeps _ (match ?x with _ => _ end) => destruct x
  | |- keeps _ (match ?x with _ => _ end _) => destruct x
  | |- keeps _ (pushTarget _ _) => unfold pushTarget
  | |- keeps _ (unshiftTarget _ _) => unfold unshiftTarget
  | |- keeps _ (defineFunction _ _ _ _) => unfold defineFunction
  | |- keeps _ (defineInstance _ _ _ _) => unfold defineInstance
  | |- keeps _ (naiveClassMethod _ _ _ _ _ _ _) => unfold naiveClassMethod
  | |- keeps _ (naiveFunctionExpression _ _ _ _ _ _) => unfold naiveFunctionExpression
  | |- keeps _ (prependStatements _ _) => unfold prependStatements
  | |- keeps _ (_shouldUseFactoryFunction _ _ _) => unfold _shouldUseFactoryFunction
  | |- keeps _ (_getIdentifierReplacements _ _ _ _) =>
      unfold _getIdentifierReplacements, identifierReplacement
  | |- keeps _ (partitionBindings _ _ _ _) => unfold partitionBindings
  | |- keeps _ (flatArgsOfNames _ _) => unfold flatArgsOfNames, flatArgStep
  | |- keeps _ (_sortFunctionByOriginalOrdering _ _) => unfold _sortFunctionByOriginalOrdering
  end.

Ltac keeps := repeat keeps_step.















(** A turn of a loop that throws ends the loop: the turns before it have
    run, the turns after it do not. *)
Lemma forEach_throws {A} (before after : list A) (x : A) (body : A → M State unit)
    e s0 s1 s2 :
  forEach before body s0 = (Returned tt, s1) →
  body x s1 = (Threw e, s2) →
  forEach (before ++ x :: after) body s0 = (Threw e, s2).
Proof.
  revert s0. induction before as [|y before IH]; intros s0; simpl.
  - intros [= <-] Hx. unfold bind. by rewrite Hx.
  - unfold bind. destruct (body y s0) as [[[]|e'] s']; [|done].
    intros Hrun Hx. by apply IH.
Qed.



(** *** A small pass to run the class on

    Collaborators simple enough to read the output: a function value [f] is
    located at the identifier [_f]; the instantiator puts in place of a body
    one statement that names the block, followed by the replaced values; two
    bindings are the same when they are the same object; a reference is not
    earlier than another when both are in one body and its index is not
    smaller. *)
Definition exampleInstantiate (infos : list (Z * FactoryFunctionInfo))
    (identifierReplacements callReplacements : list (NodeRef * BabelNode))
    (node : BabelNode) : BabelNode :=
  let rewritten block :=
    blockStatement
      (sourceStatement block :: map (λ r, expressionStatement r.2) identifierReplacements) in
  match node with
  | functionExpression params (functionBodyNode block) =>
      functionExpression params (rewritten block)
  | classMethod kind key params (functionBodyNode block) computed static =>
      classMethod kind key params (rewritten block) computed static
  | _ => node
  end.

Definition exampleServices : Services :=
  mkServices
    (λ f, Some (identifier ("_" +:+ pretty f)))
    (λ scope indexExpression,
       [expressionStatement (callExpression (identifier "__get_scope") [indexExpression])])
    []
    (λ _, sourceStatement 0)
    (λ _, sourceStatement 1)
    (λ _, false)
    (λ node _, node)
    exampleInstantiate
    (λ n suffix, "$f_" +:+ pretty n +:+ suffix)
    (λ x y, bool_decide (binding_ref x = binding_ref y))
    (λ x y, bool_decide (body x = body y) && bool_decide (index y ≤ index x)).

(** An instance of function value [f]: its free variable [x] is bound to
    the number [f], it closes over the scopes [scopes], and its definition
    goes to index 0 of body 0. *)
Definition exampleFunctionInstance (f : FunctionValue) (scopes : list (string * ScopeBinding))
    : FunctionInstance :=
  mkFunctionInstance f f
    [("x", mkResidualFunctionBinding f (Some (otherValue f)) false (Some 0)
             (Some (numericLiteral (Z.of_nat f))) false None)]
    scopes (Some (mkBodyReference 0 0)) [] None.

(** The inputs of a pass over one code block, block 1 with tag 1, of the
    given extent, parameters and use of [this], shared by the instances. *)
Definition exampleInputs (instances : list (FunctionValue * FunctionInstance))
    (params : list BabelNode) (usesThis : bool) (start end_ : option Z)
    (classMethods : list (FunctionValue * ClassMethodInstance))
    (emptyConstructors : list FunctionValue) : Inputs :=
  mkInputs (λ _, Some 1) (λ _, Some params) (λ _, false)
    (λ f, bool_decide (f ∈ emptyConstructors)) (λ _, None) false
    (λ _, start) (λ _, end_) (λ block, Some (Z.of_nat block)) []
    [(1, mkFunctionInfo [("x", [100])] [] false usesThis [])]
    instances classMethods [] [].

(** The constructor followed by [spliceFunctions], on an empty prelude and
    an empty main body. *)
Definition examplePass (inp : Inputs) : Outcome ResidualFunctionsResult * State :=
  (do constructor inp then spliceFunctions inp exampleServices [])
    (initialState [] {[ 0 := mkSerializedBody "MainGenerator" None [] false ]}).

(** *** Class methods on the naive path *)

(** The methods held by the class node of a class prototype; a class that
    has no node yet has none. *)
Definition classBodyOf (classPrototype : ObjectValue) (s : State) : list BabelNode :=
  match JSMap.get (classes s) classPrototype with
  | Some node => classBody node
  | None => []
  end.

Lemma bind_returned {A B} (m : M State A) (k : A → M State B) s b :
  (bind m k s).1 = Returned b →
  ∃ a s1, m s = (Returned a, s1) ∧ (k a s1).1 = Returned b ∧ (bind m k s).2 = (k a s1).2.
Proof.
  unfold bind. destruct (m s) as [[a|e] s1]; [|done]. intros Hk. by exists a, s1.
Qed.


Lemma bind_state {A B} (m : M State A) (k : A → M State B) s a s1 :
  m s = (Returned a, s1) → bind m k s = k a s1.
Proof. intros Hm. unfold bind. by rewrite Hm. Qed.

Lemma classBodyOf_getOrCreateClassNode proto s :
  (_getOrCreateClassNode proto s).1 = Returned (classExpressionRef proto) ∧
  is_Some (JSMap.get (classes (_getOrCreateClassNode proto s).2) proto) ∧
  classBodyOf proto (_getOrCreateClassNode proto s).2 = classBodyOf proto s.
Proof.
  unfold _getOrCreateClassNode, classBodyOf, JSMap.has.
  destruct (JSMap.get (classes s) proto) as [node|] eqn:Hget; simpl.
  - rewrite Hget. eauto.
  - rewrite JSMap.get_set_eq. eauto.
Qed.

Lemma classBodyOf_addClassMethod proto isConstructor method s :
  is_Some (JSMap.get (classes s) proto) →
  classBodyOf proto (addClassMethod proto isConstructor method s).2 =
    if isConstructor then method :: classBodyOf proto s
    else classBodyOf proto s ++ [method].
Proof.
  intros [node Hget]. unfold addClassMethod, modify, classBodyOf. simpl.
  rewrite Hget. simpl. by rewrite JSMap.get_set_eq.
Qed.

Lemma keeps_classBodyOf_setSuperClass proto super :
  keeps (classBodyOf proto) (setSuperClass proto super).
Proof.
  unfold setSuperClass. destruct super as [super|]; [|done].
  intros s. unfold modify, classBodyOf. simpl.
  destruct (JSMap.get (classes s) proto) as [node|] eqn:Hget; simpl; [|by rewrite Hget].
  by rewrite JSMap.get_set_eq.
Qed.

Lemma keeps_classes_pushFunctionBody strict node : keeps classes (pushFunctionBody strict node).
Proof. unfold pushFunctionBody. keeps. by destruct strict. Qed.

Lemma keeps_classes_getCallReplacements inp funcBody :
  keeps classes (_getCallReplacements inp funcBody).
Proof. unfold _getCallReplacements. keeps. Qed.

Lemma keeps_classBodyOf_of_classes {A} proto (m : M State A) :
  keeps classes m → keeps (classBodyOf proto) m.
Proof. intros Hm s. unfold classBodyOf. by rewrite Hm. Qed.


Lemma keeps_classBodyOf_getOrCreateClassNode proto :
  keeps (classBodyOf proto) (_getOrCreateClassNode proto).
Proof. intros s. apply classBodyOf_getOrCreateClassNode. Qed.

Lemma keeps_classes_defineInstance inp sv instance funcOrClassNode :
  keeps classes (defineInstance inp sv instance funcOrClassNode).
Proof. keeps. apply keeps_classes_pushFunctionBody. Qed.

Lemma naiveClassMethod_empty_constructor inp sv infos funcBody params instance cmi :
  methodType cmi = "constructor" →
  HasEmptyConstructor inp (instance_functionValue instance) = true →
  keeps (classBodyOf (classPrototype cmi))
    (naiveClassMethod inp sv infos funcBody params instance cmi).
Proof.
  intros Hctor Hempty. unfold naiveClassMethod.
  rewrite Hempty, bool_decide_eq_true_2 by done. cbn [negb orb andb].
  keeps; first [apply keeps_classBodyOf_getOrCreateClassNode
               | apply keeps_classBodyOf_setSuperClass].
Qed.

Lemma naiveClassMethod_adds inp sv infos funcBody params instance cmi s nodeOpt :
  (naiveClassMethod inp sv infos funcBody params instance cmi s).1 = Returned nodeOpt →
  methodType cmi ≠ "constructor" ∨
    HasEmptyConstructor inp (instance_functionValue instance) = false →
  ∃ key identifierReplacements callReplacements s1 s2 s3,
    classMethodKeyNode cmi = Some key ∧
    _getIdentifierReplacements inp sv funcBody (residualFunctionBindings instance) s1
      = (Returned identifierReplacements, s2) ∧
    _getCallReplacements inp funcBody s2 = (Returned callReplacements, s3) ∧
    classBodyOf (classPrototype cmi)
      (naiveClassMethod inp sv infos funcBody params instance cmi s).2
    = if bool_decide (methodType cmi = "constructor")
      then instantiate sv infos identifierReplacements callReplacements
             (classMethod (methodType cmi) key params (functionBodyNode funcBody)
                (classMethodComputed cmi) (classMethodIsStatic cmi))
           :: classBodyOf (classPrototype cmi) s
      else classBodyOf (classPrototype cmi) s
           ++ [instantiate sv infos identifierReplacements callReplacements
                 (classMethod (methodType cmi) key params (functionBodyNode funcBody)
                    (classMethodComputed cmi) (classMethodIsStatic cmi))].
Proof.
  intros Hret Hadd. set (proto := classPrototype cmi) in *.
  assert (negb (bool_decide (methodType cmi = "constructor"))
          || bool_decide (methodType cmi = "constructor")
             && negb (HasEmptyConstructor inp (instance_functionValue instance)) = true)
    as Hcond.
  { destruct Hadd as [Hne|Hne].
    - by rewrite bool_decide_eq_false_2.
    - rewrite Hne. by destruct (bool_decide _). }
  unfold naiveClassMethod in *. rewrite Hcond in *. clear Hcond.
  apply bind_returned in Hret as (key & sa & Hkey & Hret & ->).
  destruct (classMethodKeyNode cmi) as [key'|]; [|done]. injection Hkey as -> <-.
  apply bind_returned in Hret as ([] & sb & Hvalid & Hret & ->).
  destruct (isExpression key || isIdentifier key); [|done]. injection Hvalid as <-.
  apply bind_returned in Hret as (node & s1 & Hcreate & Hret & ->).
  apply bind_returned in Hret as ([] & s4 & Hadded & Hret & ->).
  pose proof Hadded as Hadded1. apply (f_equal fst) in Hadded1. simpl in Hadded1.
  apply bind_returned in Hadded1 as (identRepl & s2 & Hident & Hadded1 & Hstate2).
  apply bind_returned in Hadded1 as (callRepl & s3 & Hcall & _ & Hstate3).
  apply (f_equal snd) in Hadded. simpl in Hadded. rewrite Hstate2, Hstate3 in Hadded.
  exists key, identRepl, callRepl, s1, s2, s3. split_and!; [done..|].
  destruct (classBodyOf_getOrCreateClassNode proto s) as (_ & Hsome & Hbody).
  fold proto in Hcreate. rewrite Hcreate in Hsome, Hbody. simpl in Hsome, Hbody.
  assert (classes s3 = classes s1) as Hclasses.
  { pose proof (keeps_classes_getCallReplacements inp funcBody s2) as H1.
    rewrite Hcall in H1. simpl in H1. rewrite H1.
    assert (keeps classes (_getIdentifierReplacements inp sv funcBody
              (residualFunctionBindings instance))) as H2 by keeps.
    specialize (H2 s1). by rewrite Hident in H2. }
  assert (classBodyOf proto s4 =
    if bool_decide (methodType cmi = "constructor")
    then instantiate sv infos identRepl callRepl
           (classMethod (methodType cmi) key params (functionBodyNode funcBody)
              (classMethodComputed cmi) (classMethodIsStatic cmi))
         :: classBodyOf proto s
    else classBodyOf proto s
         ++ [instantiate sv infos identRepl callRepl
               (classMethod (methodType cmi) key params (functionBodyNode funcBody)
                  (classMethodComputed cmi) (classMethodIsStatic cmi))]) as <-.
  { rewrite <-Hadded, classBodyOf_addClassMethod by (by rewrite Hclasses).
    assert (classBodyOf (classPrototype cmi) s3 = classBodyOf proto s) as ->; [|done].
    rewrite <-Hbody. unfold classBodyOf. by rewrite Hclasses. }
  destruct (negb (bool_decide (methodType cmi = "constructor"))); [reflexivity|].
  unfold bind at 1.
  pose proof (keeps_classBodyOf_setSuperClass proto (classSuperNode cmi) s4) as Hsuper.
  fold proto. clear -Hsuper.
  destruct (setSuperClass proto (classSuperNode cmi) s4) as [[[]|e] s9]; exact Hsuper.
Qed.

(** C10.  Class methods on the naive path.  Let the function value of the
    instance be a class method.  If it is a constructor marked as an empty
    user-land constructor, its turn adds no method to the class node of its
    class: the class keeps the methods it had.  In every other case a turn
    that returns has added the rewritten method, a constructor at the front
    of the class body and any other method at the back; the rewritten method
    is what the instantiator makes of the class method node with the
    replacements computed for the instance. *)
Theorem naive_class_method (inp : Inputs) (sv : Services)
    (factoryFunctionInfos : list (Z * FactoryFunctionInfo)) (funcBody : BlockRef)
    (params : list BabelNode) (instance : FunctionInstance)
    (classMethodInstance : ClassMethodInstance) (s : State) :
  JSMap.get (residualClassMethodInstances inp) (instance_functionValue instance)
    = Some classMethodInstance →
  (methodType classMethodInstance = "constructor" →
   HasEmptyConstructor inp (instance_functionValue instance) = true →
   classBodyOf (classPrototype classMethodInstance)
     (naiveProcessInstance inp sv factoryFunctionInfos funcBody params instance s).2
   = classBodyOf (classPrototype classMethodInstance) s) ∧
  ((naiveProcessInstance inp sv factoryFunctionInfos funcBody params instance s).1
     = Returned tt →
   methodType classMethodInstance ≠ "constructor" ∨
     HasEmptyConstructor inp (instance_functionValue instance) = false →
   ∃ key identifierReplacements callReplacements s1 s2 s3,
     classMethodKeyNode classMethodInstance = Some key ∧
     _getIdentifierReplacements inp sv funcBody (residualFunctionBindings instance) s1
       = (Returned identifierReplacements, s2) ∧
     _getCallReplacements inp funcBody s2 = (Returned callReplacements, s3) ∧
     classBodyOf (classPrototype classMethodInstance)
       (naiveProcessInstance inp sv factoryFunctionInfos funcBody params instance s).2
     = if bool_decide (methodType classMethodInstance = "constructor")
       then instantiate sv factoryFunctionInfos identifierReplacements callReplacements
              (classMethod (methodType classMethodInstance) key params
                 (functionBodyNode funcBody)
                 (classMethodComputed classMethodInstance)
                 (classMethodIsStatic classMethodInstance))
            :: classBodyOf (classPrototype classMethodInstance) s
       else classBodyOf (classPrototype classMethodInstance) s
            ++ [instantiate sv factoryFunctionInfos identifierReplacements callReplacements
                  (classMethod (methodType classMethodInstance) key params
                     (functionBodyNode funcBody)
                     (classMethodComputed classMethodInstance)
                     (classMethodIsStatic classMethodInstance))]).
Proof.
  intros Hcmi. unfold naiveProcessInstance. rewrite Hcmi. split.
  - intros Hctor Hempty. apply keeps_bind.
    + by apply naiveClassMethod_empty_constructor.
    + intros node. apply keeps_classBodyOf_of_classes, keeps_classes_defineInstance.
  - intros Hret Hadd.
    apply bind_returned in Hret as (nodeOpt & s5 & Hpart & _ & ->).
    rewrite (keeps_classBodyOf_of_classes _ _
               (keeps_classes_defineInstance inp sv instance nodeOpt) s5).
    assert ((naiveClassMethod inp sv factoryFunctionInfos funcBody params instance
               classMethodInstance s).1 = Returned nodeOpt) as Hret
      by (by rewrite Hpart).
    destruct (naiveClassMethod_adds _ _ _ _ _ _ _ _ _ Hret Hadd)
      as (key & ir & cr & s1 & s2 & s3 & Hkey & Hir & Hcr & Hbody).
    exists key, ir, cr, s1, s2, s3. rewrite Hpart in Hbody. done.
Qed.

(** A class with prototype 7: function value 1 is its constructor, function
    value 2 its method [m]; the code of function value [f] is block [f]. *)
Definition exampleClassInputs (emptyConstructors : list FunctionValue) : Inputs :=
  mkInputs (λ f, Some f) (λ _, Some [identifier "a"]) (λ _, false)
    (λ f, bool_decide (f ∈ emptyConstructors)) (λ _, None) false
    (λ _, Some 10%Z) (λ _, Some 20%Z) (λ block, Some (Z.of_nat block)) []
    [(1, mkFunctionInfo [("x", [100])] [] false false []);
     (2, mkFunctionInfo [("x", [200])] [] false true [])]
    [(2, exampleFunctionInstance 2 []); (1, exampleFunctionInstance 1 [])]
    [(1, mkClassMethodInstance 7 "constructor" false (Some (identifier "constructor"))
           false None);
     (2, mkClassMethodInstance 7 "m" false (Some (identifier "m")) false None)]
    [] [].

Lemma naive_class_method_witness :
  (methodType (mkClassMethodInstance 7 "constructor" false
                 (Some (identifier "constructor")) false None) = "constructor" →
   HasEmptyConstructor (exampleClassInputs [])
     (instance_functionValue (exampleFunctionInstance 1 [])) = true →
   classBodyOf 7
     (naiveProcessInstance (exampleClassInputs []) exampleServices [] 1 [identifier "a"]
        (exampleFunctionInstance 1 []) (initialState [] ∅)).2
   = classBodyOf 7 (initialState [] ∅)) ∧
  ((naiveProcessInstance (exampleClassInputs []) exampleServices [] 1 [identifier "a"]
      (exampleFunctionInstance 1 []) (initialState [] ∅)).1 = Returned tt →
   methodType (mkClassMethodInstance 7 "constructor" false
                 (Some (identifier "constructor")) false None) ≠ "constructor" ∨
     HasEmptyConstructor (exampleClassInputs [])
       (instance_functionValue (exampleFunctionInstance 1 [])) = false →
   ∃ key identifierReplacements callReplacements s1 s2 s3,
     Some (identifier "constructor") = Some key ∧
     _getIdentifierReplacements (exampleClassInputs []) exampleServices 1
       (residualFunctionBindings (exampleFunctionInstance 1 [])) s1
       = (Returned identifierReplacements, s2) ∧
     _getCallReplacements (exampleClassInputs []) 1 s2 = (Returned callReplacements, s3) ∧
     classBodyOf 7
       (naiveProcessInstance (exampleClassInputs []) exampleServices [] 1 [identifier "a"]
          (exampleFunctionInstance 1 []) (initialState [] ∅)).2
     = if bool_decide ("constructor" = "constructor")
       then instantiate exampleServices [] identifierReplacements callReplacements
              (classMethod "constructor" key [identifier "a"] (functionBodyNode 1)
                 false false)
            :: classBodyOf 7 (initialState [] ∅)
       else classBodyOf 7 (initialState [] ∅)
            ++ [instantiate exampleServices [] identifierReplacements callReplacements
                  (classMethod "constructor" key [identifier "a"] (functionBodyNode 1)
                     false false)]).
Proof.
  apply (naive_class_method (exampleClassInputs []) exampleServices [] 1 [identifier "a"]
           (exampleFunctionInstance 1 [])
           (mkClassMethodInstance 7 "constructor" false (Some (identifier "constructor"))
              false None)
           (initialState [] ∅)).
  reflexivity.
Defined.

(** The class of the example after a whole pass: the method was registered
    before the constructor, and the constructor still comes first; with the
    constructor marked empty, only the method is there. *)
Example class_methods_of_pass :
  classBodyOf 7 (examplePass (exampleClassInputs [])).2 =
    [classMethod "constructor" (identifier "constructor") [identifier "a"]
       (blockStatement [sourceStatement 1; expressionStatement (numericLiteral 1)])
       false false;
     classMethod "m" (identifier "m") [identifier "a"]
       (blockStatement [sourceStatement 2; expressionStatement (numericLiteral 2)])
       false false] ∧
  classBodyOf 7 (examplePass (exampleClassInputs [1])).2 =
    [classMethod "m" (identifier "m") [identifier "a"]
       (blockStatement [sourceStatement 2; expressionStatement (numericLiteral 2)])
       false false] ∧
  (examplePass (exampleClassInputs [1])).1 = Returned (mkResult [classExpressionRef 7] []).
Proof. split_and!; reflexivity. Qed.

(** *** The choice between the factory and the clones *)




(** The number of function and class nodes emitted so far. *)
Definition functionBodyCount (s : State) : nat :=
  length (strictFunctionBodies s) + length (unstrictFunctionBodies s).




(** On the naive path every instance that is no class method gets one clone
    of its own: a loop that returns has emitted as many function nodes as it
    had instances. *)
Lemma keeps_count_getCallReplacements inp funcBody :
  keeps functionBodyCount (_getCallReplacements inp funcBody).
Proof. unfold _getCallReplacements. keeps. Qed.

Lemma naiveFunctionExpression_returns inp sv infos funcBody params instance s nodeOpt :
  (naiveFunctionExpression inp sv infos funcBody params instance s).1 = Returned nodeOpt →
  is_Some nodeOpt ∧
  functionBodyCount (naiveFunctionExpression inp sv infos funcBody params instance s).2
    = functionBodyCount s.
Proof.
  intros Hret. split.
  - unfold naiveFunctionExpression in Hret.
    apply bind_returned in Hret as (ir & s1 & _ & Hret & _).
    apply bind_returned in Hret as (cr & s2 & _ & Hret & _).
    apply bind_returned in Hret as (node & s3 & _ & Hret & _).
    injection Hret as <-. eauto.
  - assert (keeps functionBodyCount
              (naiveFunctionExpression inp sv infos funcBody params instance)) as Hkeeps.
    { keeps. apply keeps_count_getCallReplacements. }
    apply Hkeeps.
Qed.

Lemma defineInstance_counts inp sv instance node s :
  (defineInstance inp sv instance (Some node) s).1 = Returned tt →
  functionBodyCount (defineInstance inp sv instance (Some node) s).2
    = S (functionBodyCount s).
Proof.
  unfold defineInstance. intros Hret.
  apply bind_returned in Hret as (id & s1 & Hid & Hret & ->).
  destruct (getLocation sv (instance_functionValue instance)); [|done].
  injection Hid as -> <-.
  apply bind_returned in Hret as ([] & s2 & Hpush & Hret & ->).
  assert (keeps functionBodyCount (defineFunction sv instance id node)) as Hkeeps by keeps.
  rewrite Hkeeps. unfold pushFunctionBody, modify in Hpush. injection Hpush as <-.
  unfold functionBodyCount.
  destruct (Strict inp (instance_functionValue instance)); simpl;
    rewrite length_app; simpl; lia.
Qed.

Lemma naive_one_clone_per_instance inp sv infos funcBody params instances s :
  Forall (λ instance,
    JSMap.get (residualClassMethodInstances inp) (instance_functionValue instance) = None)
    instances →
  (naiveProcessInstances inp sv infos funcBody params instances s).1 = Returned tt →
  functionBodyCount (naiveProcessInstances inp sv infos funcBody params instances s).2
    = functionBodyCount s + length instances.
Proof.
  intros Hplain. unfold naiveProcessInstances. unfold bind at 1 2. cbn [modify].
  change (functionBodyCount s) with
    (functionBodyCount (add_functionClones (Z.of_nat (length instances)) s)).
  generalize (add_functionClones (Z.of_nat (length instances)) s) as s0.
  induction Hplain as [|instance instances Hnone _ IH]; intros s0; simpl; [lia|].
  intros Hret. apply bind_returned in Hret as ([] & s1 & Hturn & Hret & ->).
  rewrite IH by done.
  assert (functionBodyCount s1 = S (functionBodyCount s0)) as ->; [|lia].
  unfold naiveProcessInstance in Hturn. rewrite Hnone in Hturn.
  pose proof Hturn as Hturn1. apply (f_equal fst) in Hturn1. simpl in Hturn1.
  apply bind_returned in Hturn1 as (nodeOpt & s2 & Hnode & Hdefine & Hstate).
  apply (f_equal snd) in Hturn. simpl in Hturn. rewrite Hstate in Hturn. subst s1.
  assert ((naiveFunctionExpression inp sv infos funcBody params instance s0).1
            = Returned nodeOpt) as Hnode1 by (by rewrite Hnode).
  destruct (naiveFunctionExpression_returns _ _ _ _ _ _ _ _ Hnode1) as [[node ->] Hcount].
  rewrite Hnode in Hcount. simpl in Hcount.
  rewrite defineInstance_counts by done. by rewrite Hcount.
Qed.

(** Two instances of one small block; the second one closes over a
    referentialized scope, the first one does not. *)
Definition exampleScope : ScopeBinding := mkScopeBinding "__scope_0" 0 GLOBAL.

Definition exampleMixedCapture : Inputs :=
  exampleInputs
    [(1, exampleFunctionInstance 1 []);
     (2, exampleFunctionInstance 2 [("__scope_0", exampleScope)])]
    [identifier "a"] false (Some 10%Z) (Some 30%Z) [] [].


(** The scenario of the specification, with two call sites for five: a
    block of extent 40 without scope capture, each call site binding a
    different constant to the free variable [x]. *)
Definition exampleFactory : Inputs :=
  exampleInputs
    [(1, exampleFunctionInstance 1 []); (2, exampleFunctionInstance 2 [])]
    [identifier "a"] false (Some 10%Z) (Some 50%Z) [] [].

Definition exampleFunctionInfo : FunctionInfo :=
  mkFunctionInfo [("x", [100])] [] false false [].


(** The scenario of the specification: one factory with [x] as its
    parameter, and one [bind] expression per call site. *)
Example factory_scenario :
  (examplePass exampleFactory).1 =
    Returned (mkResult
      [functionExpression [identifier "x"; identifier "a"]
         (blockStatement [sourceStatement 1])] []) ∧
  prelude (examplePass exampleFactory).2 =
    [variableDeclaration (identifier "$f_0")
       (functionExpression [identifier "x"; identifier "a"]
          (blockStatement [sourceStatement 1]))] ∧
  entries <$> serializedBodies (examplePass exampleFactory).2 !! 0 =
    Some [variableDeclaration (identifier "_1")
            (callExpression (memberExpression (identifier "$f_0") (identifier "bind"))
               [nullLiteral; numericLiteral 1]);
          variableDeclaration (identifier "_2")
            (callExpression (memberExpression (identifier "$f_0") (identifier "bind"))
               [nullLiteral; numericLiteral 2])].
Proof. split_and!; reflexivity. Qed.


(** *** The order of the code blocks *)

Section sorting.
Context {A : Type} (tag : A → Z).







End sorting.








(** *** The stubs of the example *)

Lemma factory_stub_call_or_bind_witness :
  (requiresCallWrapper exampleServices false ["x"] (exampleFunctionInstance 1 [])
     (mkBodyReference 0 0) (initialState [] ∅) →
   Forall (λ param, isIdentifier param = true) [identifier "a"] →
   factoryInstanceStub exampleFactory exampleServices (identifier "$f_0") ["x"]
     [identifier "a"] false (exampleFunctionInstance 1 []) (initialState [] ∅) =
     (Returned (callWrapper (identifier "$f_0")
                  ([numericLiteral 1] ++ scopeArgs (exampleFunctionInstance 1 []))
                  [identifier "a"]),
      (pushFunctionBody
         (Strict exampleFactory (instance_functionValue (exampleFunctionInstance 1 [])))
         (callWrapper (identifier "$f_0")
            ([numericLiteral 1] ++ scopeArgs (exampleFunctionInstance 1 []))
            [identifier "a"]) (initialState [] ∅)).2)) ∧
  (¬ requiresCallWrapper exampleServices false ["x"] (exampleFunctionInstance 1 [])
       (mkBodyReference 0 0) (initialState [] ∅) →
   factoryInstanceStub exampleFactory exampleServices (identifier "$f_0") ["x"]
     [identifier "a"] false (exampleFunctionInstance 1 []) (initialState [] ∅) =
     (Returned (bindCall (identifier "$f_0")
                  ([numericLiteral 1] ++ scopeArgs (exampleFunctionInstance 1 []))),
      initialState [] ∅)) ∧
  (∀ node,
     (factoryInstanceStub exampleFactory exampleServices (identifier "$f_0") ["x"]
        [identifier "a"] false (exampleFunctionInstance 1 []) (initialState [] ∅)).1
       = Returned node →
     (isFunctionExpression node = true ↔
        requiresCallWrapper exampleServices false ["x"] (exampleFunctionInstance 1 [])
          (mkBodyReference 0 0) (initialState [] ∅)) ∧
     (node = bindCall (identifier "$f_0")
               ([numericLiteral 1] ++ scopeArgs (exampleFunctionInstance 1 [])) ↔
        ¬ requiresCallWrapper exampleServices false ["x"] (exampleFunctionInstance 1 [])
            (mkBodyReference 0 0) (initialState [] ∅))).
Proof.
  apply (factory_stub_call_or_bind exampleFactory exampleServices (identifier "$f_0") ["x"]
           [identifier "a"] false (exampleFunctionInstance 1 []) (mkBodyReference 0 0)
           [numericLiteral 1] (initialState [] ∅)).
  - constructor; [|constructor]. eexists. split; reflexivity.
  - reflexivity.
Defined.

(** An instance whose code uses [this] gets the forwarding function; the
    same instance, when nothing asks for it, gets the [bind] call. *)
Example stub_with_this :
  (factoryInstanceStub exampleFactory exampleServices (identifier "$f_0") ["x"]
     [identifier "a"] true (exampleFunctionInstance 1 []) (initialState [] ∅)).1 =
    Returned
      (functionExpression [identifier "a"]
         (blockStatement
            [returnStatement
               (callExpression (memberExpression (identifier "$f_0") (identifier "call"))
                  [thisExpression; numericLiteral 1; identifier "a"])])) ∧
  (factoryInstanceStub exampleFactory exampleServices (identifier "$f_0") ["x"]
     [identifier "a"] false (exampleFunctionInstance 1 []) (initialState [] ∅)).1 =
    Returned
      (callExpression (memberExpression (identifier "$f_0") (identifier "bind"))
         [nullLiteral; numericLiteral 1]).
Proof. split; reflexivity. Qed.

(** Two instances of a block of 40 characters that uses [this] and takes a
    destructuring pattern as its parameter. *)
Definition examplePattern : Inputs :=
  exampleInputs
    [(1, exampleFunctionInstance 1 []); (2, exampleFunctionInstance 2 [])]
    [sourcePattern 0] true (Some 10%Z) (Some 50%Z) [] [].


(** The whole pass over the example ends with the fatal error: it returns no
    result, and the main body is still empty. *)
Example pass_with_pattern_parameter :
  (examplePass examplePattern).1 =
    Threw (FatalError "TODO: do not know how to deal with non-Identifier parameters") ∧
  entries <$> serializedBodies (examplePass examplePattern).2 !! 0 = Some [].
Proof. split; reflexivity. Qed.

(** *** First usages and prototypes *)

(** The calls [addFunctionUsage(val, bodyReference)] of a pass, in order. *)
Definition recordUsages (usages : list (FunctionValue * BodyReference)) : M State unit :=
  forEach usages (λ usage, addFunctionUsage usage.1 usage.2).

(** X5.  The first usage wins.  A sequence of [addFunctionUsage] calls never
    throws, changes only [firstFunctionUsages], and leaves for every function
    value the body reference of the first call made for it; a usage that was
    recorded before the sequence is kept. *)
Theorem first_function_usage_wins (usages : list (FunctionValue * BodyReference))
    (s : State) :
  ∃ m, recordUsages usages s = (Returned tt, set_firstFunctionUsages m s) ∧
    ∀ val, JSMap.get m val =
      match JSMap.get (firstFunctionUsages s) val with
      | Some bodyReference => Some bodyReference
      | None => JSMap.get usages val
      end.
Proof.
  revert s. induction usages as [|[val0 ref0] usages IH]; intros s.
  - exists (firstFunctionUsages s). split; [by destruct s|].
    intros val. by destruct (JSMap.get _ val).
  - unfold recordUsages in *. cbn [forEach]. unfold bind at 1.
    unfold addFunctionUsage at 1, modify. cbn [fst snd]. unfold JSMap.has.
    destruct (JSMap.get (firstFunctionUsages s) val0) as [r0|] eqn:Hget0.
    + destruct (IH s) as (m & -> & Hm). exists m. split; [done|].
      intros val. rewrite Hm. destruct (JSMap.get (firstFunctionUsages s) val) eqn:Hget; [done|].
      simpl. rewrite decide_False; [done|]. intros ->. congruence.
    + destruct (IH (set_firstFunctionUsages
                      (JSMap.set (firstFunctionUsages s) val0 ref0) s)) as (m & -> & Hm).
      exists m. split; [done|]. intros val. rewrite Hm. simpl.
      destruct (decide (val = val0)) as [->|Hne].
      * by rewrite JSMap.get_set_eq, Hget0.
      * by rewrite JSMap.get_set_ne by done.
Qed.
(** *** Where a definition goes *)

(** The statements held by one of the arrays that definitions go to; an
    array that does not exist yet holds none. *)
Definition targetContents (target : Target) (s : State) : list BabelNode :=
  match target with
  | toGlobalPrelude => prelude s
  | toAdditionalPrelude f => default [] (JSMap.get (additionalFunctionPreludes s) f)
  | toFunctionBody i => default [] (JSMap.get (functionBodies s) i)
  end.

Global Instance Target_eq_dec : EqDecision Target.
Proof. solve_decision. Defined.

Lemma pushTo_get {K} `{EqDecision K} get_map put_map (key key' : K) items s :
  (∀ m s, get_map (put_map m s) = m) →
  JSMap.get (get_map (pushTo get_map put_map key items s).2) key' =
    if decide (key = key')
    then Some (default [] (JSMap.get (get_map s) key) ++ items)
    else JSMap.get (get_map s) key'.
Proof.
  intros Hput. unfold pushTo, getOrDefault.
  destruct (JSMap.get (get_map s) key) as [array|] eqn:Hget; simpl; rewrite !Hput.
  - destruct (decide (key = key')) as [<-|Hne].
    + by rewrite JSMap.get_set_eq.
    + by rewrite JSMap.get_set_ne.
  - destruct (decide (key = key')) as [<-|Hne].
    + by rewrite JSMap.get_set_eq.
    + by rewrite !JSMap.get_set_ne.
Qed.

Lemma unshiftTo_get {K} `{EqDecision K} get_map put_map (key key' : K) items s :
  (∀ m s, get_map (put_map m s) = m) →
  JSMap.get (get_map (unshiftTo get_map put_map key items s).2) key' =
    if decide (key = key')
    then Some (items ++ default [] (JSMap.get (get_map s) key))
    else JSMap.get (get_map s) key'.
Proof.
  intros Hput. unfold unshiftTo, getOrDefault.
  destruct (JSMap.get (get_map s) key) as [array|] eqn:Hget; simpl; rewrite !Hput.
  - destruct (decide (key = key')) as [<-|Hne].
    + by rewrite JSMap.get_set_eq.
    + by rewrite JSMap.get_set_ne.
  - destruct (decide (key = key')) as [<-|Hne].
    + by rewrite JSMap.get_set_eq, app_nil_r.
    + by rewrite !JSMap.get_set_ne.
Qed.

Lemma pushTarget_returns target items s : (pushTarget target items s).1 = Returned tt.
Proof.
  destruct target; simpl; [done|..];
    unfold pushTo, getOrDefault; by destruct (JSMap.get _ _).
Qed.

Lemma pushTarget_contents target target' items s :
  targetContents target' (pushTarget target items s).2 =
    if decide (target = target') then targetContents target' s ++ items
    else targetContents target' s.
Proof.
  destruct (decide (target = target')) as [<-|Hne].
  - destruct target as [|f|i]; simpl; [done|..].
    + rewrite (pushTo_get additionalFunctionPreludes set_additionalFunctionPreludes) by done.
      by rewrite decide_True.
    + rewrite (pushTo_get functionBodies set_functionBodies) by done.
      by rewrite decide_True.
  - destruct target as [|f|i], target' as [|f'|i']; simpl; try done;
      try (unfold pushTo, getOrDefault; by destruct (JSMap.get _ _)).
    + rewrite (pushTo_get additionalFunctionPreludes set_additionalFunctionPreludes) by done.
      by rewrite decide_False by congruence.
    + by rewrite (keeps_pushTo functionBodies additionalFunctionPreludes
                    set_additionalFunctionPreludes f items (λ _ _, eq_refl) s).
    + by rewrite (keeps_pushTo additionalFunctionPreludes functionBodies
                    set_functionBodies i items (λ _ _, eq_refl) s).
    + rewrite (pushTo_get functionBodies set_functionBodies) by done.
      by rewrite decide_False by congruence.
Qed.

Lemma pushTarget_state target items s :
  pushTarget target items s = (Returned tt, (pushTarget target items s).2).
Proof.
  pose proof (pushTarget_returns target items s) as Hret.
  by destruct (pushTarget target items s) as [[[]|e] s1].
Qed.

Lemma keeps_pushTarget {X} (f : State → X) target items :
  (∀ v s, f (set_prelude v s) = f s) →
  (∀ v s, f (set_additionalFunctionPreludes v s) = f s) →
  (∀ v s, f (set_functionBodies v s) = f s) →
  keeps f (pushTarget target items).
Proof. intros H1 H2 H3. destruct target; keeps. Qed.

(** The declaration [var prototypeId = id.prototype] that follows the
    definition of a function for which a prototype identifier was set. *)
Definition prototypeDeclaration (id : BabelNode) (functionValue : FunctionValue) (s : State)
    : list BabelNode :=
  match JSMap.get (functionPrototypes s) functionValue with
  | Some prototypeId =>
      [variableDeclaration prototypeId (memberExpression id (identifier "prototype"))]
  | None => []
  end.

(** The state after the initialization statements of the instance have gone
    to its statement group. *)
Definition afterInitialization (instance : FunctionInstance) (s : State) : State :=
  if bool_decide (0 < length (initializationStatements instance))
  then (pushTarget (getFunctionBody instance) (initializationStatements instance) s).2
  else s.

(** The state after the declaration of [funcId], and the declaration of the
    prototype identifier when there is one, have gone to [target]. *)
Definition afterDeclaration (target : Target) (funcId node id : BabelNode)
    (functionValue : FunctionValue) (s : State) : State :=
  match JSMap.get (functionPrototypes s) functionValue with
  | Some prototypeId =>
      (pushTarget target
         [variableDeclaration prototypeId (memberExpression id (identifier "prototype"))]
         (pushTarget target [variableDeclaration funcId node] s).2).2
  | None => (pushTarget target [variableDeclaration funcId node] s).2
  end.

Lemma defineFunction_run sv instance funcId node id s :
  getLocation sv (instance_functionValue instance) = Some id →
  defineFunction sv instance funcId node s =
    if isFunctionExpression node then
      (Returned tt,
       afterDeclaration (getPrelude instance) funcId node id (instance_functionValue instance)
         (set_funcNodes
            (JSMap.set (funcNodes (afterInitialization instance s))
               (instance_functionValue instance) node)
            (afterInitialization instance s)))
    else if isCallExpression node || isClassExpression node then
      (Returned tt,
       afterDeclaration (getFunctionBody instance) funcId node id
         (instance_functionValue instance) (afterInitialization instance s))
    else (Threw InvariantViolation, afterInitialization instance s).
Proof.
  intros Hloc. unfold defineFunction.
  assert ((if bool_decide (0 < length (initializationStatements instance))
           then pushTarget (getFunctionBody instance) (initializationStatements instance)
           else ret tt) s = (Returned tt, afterInitialization instance s)) as Hinit.
  { unfold afterInitialization. destruct (bool_decide _); [apply pushTarget_state|done]. }
  rewrite (bind_state _ _ _ _ _ Hinit). clear Hinit.
  generalize (afterInitialization instance s). intros s1.
  assert (∀ target s2,
    (do pushTarget target [variableDeclaration funcId node] then
     let* prototypeId := gets (λ s, JSMap.get (functionPrototypes s)
                                      (instance_functionValue instance)) in
     match prototypeId with
     | Some prototypeId =>
         let* id := defined (getLocation sv (instance_functionValue instance)) in
         pushTarget target
           [variableDeclaration prototypeId (memberExpression id (identifier "prototype"))]
     | None => ret tt
     end) s2 =
    (Returned tt,
     afterDeclaration target funcId node id (instance_functionValue instance) s2)) as Hrest.
  { intros target s2. rewrite (bind_state _ _ _ _ _ (pushTarget_state _ _ _)).
    unfold bind at 1, gets. unfold afterDeclaration.
    rewrite (keeps_pushTarget functionPrototypes) by done.
    destruct (JSMap.get (functionPrototypes s2) (instance_functionValue instance)); [|done].
    rewrite Hloc. cbn [defined]. unfold bind, ret. apply pushTarget_state. }
  destruct (isFunctionExpression node).
  - unfold bind at 1. unfold bind at 1. unfold modify, ret. apply Hrest.
  - destruct (isCallExpression node || isClassExpression node); cbn [invariant].
    + unfold bind at 1. unfold bind at 1. unfold ret. apply Hrest.
    + done.
Qed.

Lemma afterInitialization_keeps {X} (f : State → X) instance s :
  (∀ v s, f (set_functionBodies v s) = f s) →
  f (afterInitialization instance s) = f s.
Proof.
  intros Hf. unfold afterInitialization. destruct (bool_decide _); [|done].
  assert (keeps f (pushTarget (getFunctionBody instance) (initializationStatements instance)))
    as Hkeeps by (simpl; keeps).
  apply Hkeeps.
Qed.

Lemma afterDeclaration_keeps {X} (f : State → X) target funcId node id functionValue s :
  (∀ v s, f (set_prelude v s) = f s) →
  (∀ v s, f (set_additionalFunctionPreludes v s) = f s) →
  (∀ v s, f (set_functionBodies v s) = f s) →
  f (afterDeclaration target funcId node id functionValue s) = f s.
Proof.
  intros H1 H2 H3. unfold afterDeclaration.
  destruct (JSMap.get (functionPrototypes s) functionValue);
    by rewrite !(keeps_pushTarget f).
Qed.

Lemma afterInitialization_contents instance target s :
  targetContents target (afterInitialization instance s) =
    if decide (getFunctionBody instance = target)
    then targetContents target s ++ initializationStatements instance
    else targetContents target s.
Proof.
  unfold afterInitialization.
  destruct (bool_decide (0 < length (initializationStatements instance))) eqn:Hlen.
  - apply pushTarget_contents.
  - apply bool_decide_eq_false in Hlen.
    destruct (initializationStatements instance); [|simpl in Hlen; lia].
    rewrite app_nil_r. by destruct (decide _).
Qed.

Lemma afterDeclaration_contents target target' funcId node id functionValue s :
  targetContents target' (afterDeclaration target funcId node id functionValue s) =
    if decide (target = target')
    then targetContents target' s ++ variableDeclaration funcId node
           :: prototypeDeclaration id functionValue s
    else targetContents target' s.
Proof.
  unfold afterDeclaration, prototypeDeclaration.
  destruct (JSMap.get (functionPrototypes s) functionValue) as [prototypeId|].
  - rewrite !pushTarget_contents. destruct (decide (target = target')); [|done].
    by rewrite <-app_assoc.
  - by rewrite pushTarget_contents.
Qed.

(** X6.  Where a definition goes.  Let [id] be the location of the function
    value of the instance.  [defineFunction] first appends the
    initialization statements of the instance to the statement group of the
    instance.  Then a function expression is recorded in [funcNodes] and its
    declaration [var funcId = node] is appended to the prelude of the
    instance (the global prelude, or the prelude of the additional function
    that contains the instance), while a call expression (a [bind] call) or a
    class expression is declared in the statement group of the instance, to
    be spliced at its insertion point; in both cases the declaration of the
    prototype identifier [var prototypeId = id.prototype], when one was set
    for the function value, follows at once in the same array.  Any other
    node makes [defineFunction] throw, after the initialization statements
    have been appended. *)
Theorem definition_targets (sv : Services) (instance : FunctionInstance)
    (funcId node id : BabelNode) (s : State) :
  getLocation sv (instance_functionValue instance) = Some id →
  (isFunctionExpression node = true →
   (defineFunction sv instance funcId node s).1 = Returned tt ∧
   JSMap.get (funcNodes (defineFunction sv instance funcId node s).2)
     (instance_functionValue instance) = Some node ∧
   targetContents (getPrelude instance) (defineFunction sv instance funcId node s).2 =
     targetContents (getPrelude instance) s ++ variableDeclaration funcId node
       :: prototypeDeclaration id (instance_functionValue instance) s ∧
   targetContents (getFunctionBody instance) (defineFunction sv instance funcId node s).2 =
     targetContents (getFunctionBody instance) s ++ initializationStatements instance) ∧
  (isCallExpression node || isClassExpression node = true →
   (defineFunction sv instance funcId node s).1 = Returned tt ∧
   funcNodes (defineFunction sv instance funcId node s).2 = funcNodes s ∧
   targetContents (getPrelude instance) (defineFunction sv instance funcId node s).2 =
     targetContents (getPrelude instance) s ∧
   targetContents (getFunctionBody instance) (defineFunction sv instance funcId node s).2 =
     targetContents (getFunctionBody instance) s ++ initializationStatements instance
       ++ variableDeclaration funcId node
       :: prototypeDeclaration id (instance_functionValue instance) s) ∧
  (isFunctionExpression node = false →
   isCallExpression node || isClassExpression node = false →
   (defineFunction sv instance funcId node s).1 = Threw InvariantViolation ∧
   targetContents (getFunctionBody instance) (defineFunction sv instance funcId node s).2 =
     targetContents (getFunctionBody instance) s ++ initializationStatements instance).
Proof.
  intros Hloc. rewrite (defineFunction_run sv instance funcId node id s Hloc).
  pose proof (afterInitialization_keeps functionPrototypes instance s (λ _ _, eq_refl))
    as Hproto.
  assert (getPrelude instance ≠ getFunctionBody instance) as Hne.
  { unfold getPrelude, getFunctionBody. by destruct (containingAdditionalFunction instance). }
  split_and!.
  - intros ->. cbn [fst snd]. split_and!; [done|..].
    + rewrite (afterDeclaration_keeps funcNodes) by done. apply JSMap.get_set_eq.
    + rewrite afterDeclaration_contents, decide_True by done.
      unfold prototypeDeclaration at 1. cbn [functionPrototypes set_funcNodes].
      rewrite Hproto. fold (prototypeDeclaration id (instance_functionValue instance) s).
      f_equal.
      change (targetContents (getPrelude instance) (afterInitialization instance s)
              = targetContents (getPrelude instance) s).
      rewrite afterInitialization_contents. by rewrite decide_False.
    + rewrite afterDeclaration_contents, decide_False by done.
      change (targetContents (getFunctionBody instance) (afterInitialization instance s)
              = targetContents (getFunctionBody instance) s
                ++ initializationStatements instance).
      rewrite afterInitialization_contents. by rewrite decide_True.
  - intros Hcall. destruct (isFunctionExpression node) eqn:Hfun.
    { destruct node; done. }
    rewrite Hcall. cbn [fst snd]. split_and!; [done|..].
    + rewrite (afterDeclaration_keeps funcNodes) by done.
      by apply (afterInitialization_keeps funcNodes).
    + rewrite afterDeclaration_contents, decide_False by done.
      rewrite afterInitialization_contents. by rewrite decide_False.
    + rewrite afterDeclaration_contents, decide_True by done.
      unfold prototypeDeclaration at 1. rewrite Hproto.
      fold (prototypeDeclaration id (instance_functionValue instance) s).
      rewrite afterInitialization_contents, decide_True by done. by rewrite <-app_assoc.
  - intros -> ->. cbn [fst snd]. split; [done|].
    rewrite afterInitialization_contents. by rewrite decide_True.
Qed.

(** X7.  A prototype identifier set for a function value is declared right
    after the function.  After [setFunctionPrototype(functionValue,
    prototypeId)], which replaces an identifier set before, the definition of
    a function expression for that function value appends to the prelude of
    the instance the declaration of the function followed by [var
    prototypeId = id.prototype], where [id] is the location of the function
    value. *)
Theorem prototype_declared_after_definition (sv : Services) (instance : FunctionInstance)
    (prototypeId funcId node id : BabelNode) (s : State) :
  getLocation sv (instance_functionValue instance) = Some id →
  isFunctionExpression node = true →
  ((do setFunctionPrototype (instance_functionValue instance) prototypeId then
    defineFunction sv instance funcId node) s).1 = Returned tt ∧
  targetContents (getPrelude instance)
    ((do setFunctionPrototype (instance_functionValue instance) prototypeId then
      defineFunction sv instance funcId node) s).2 =
    targetContents (getPrelude instance) s ++
      [variableDeclaration funcId node;
       variableDeclaration prototypeId (memberExpression id (identifier "prototype"))].
Proof.
  intros Hloc Hfun. unfold bind at 1 2. unfold setFunctionPrototype at 1 2, modify.
  rewrite (defineFunction_run sv instance funcId node id _ Hloc), Hfun. cbn [fst snd].
  split; [done|].
  assert (getPrelude instance ≠ getFunctionBody instance) as Hne.
  { unfold getPrelude, getFunctionBody. by destruct (containingAdditionalFunction instance). }
  rewrite afterDeclaration_contents, decide_True by done.
  unfold prototypeDeclaration. cbn [functionPrototypes set_funcNodes].
  rewrite (afterInitialization_keeps functionPrototypes) by done.
  cbn [functionPrototypes set_functionPrototypes]. rewrite JSMap.get_set_eq. f_equal.
  match goal with
  | |- targetContents ?t (set_funcNodes ?v ?s0) = _ =>
      change (targetContents t (set_funcNodes v s0)) with (targetContents t s0)
  end.
  rewrite afterInitialization_contents, decide_False by done.
  by destruct (getPrelude instance).
Qed.

Lemma prototype_declared_after_definition_witness :
  ((do setFunctionPrototype (instance_functionValue (exampleFunctionInstance 1 []))
         (identifier "_1_prototype") then
    defineFunction exampleServices (exampleFunctionInstance 1 []) (identifier "_1")
      (functionExpression [] (blockStatement [])))
     (initialState [sourceStatement 0] ∅)).1 = Returned tt ∧
  targetContents (getPrelude (exampleFunctionInstance 1 []))
    ((do setFunctionPrototype (instance_functionValue (exampleFunctionInstance 1 []))
           (identifier "_1_prototype") then
      defineFunction exampleServices (exampleFunctionInstance 1 []) (identifier "_1")
        (functionExpression [] (blockStatement [])))
       (initialState [sourceStatement 0] ∅)).2 =
    targetContents (getPrelude (exampleFunctionInstance 1 []))
      (initialState [sourceStatement 0] ∅) ++
      [variableDeclaration (identifier "_1") (functionExpression [] (blockStatement []));
       variableDeclaration (identifier "_1_prototype")
         (memberExpression (identifier "_1") (identifier "prototype"))].
Proof.
  apply (prototype_declared_after_definition exampleServices (exampleFunctionInstance 1 [])
           (identifier "_1_prototype") (identifier "_1")
           (functionExpression [] (blockStatement [])) (identifier "_1")
           (initialState [sourceStatement 0] ∅)); reflexivity.
Defined.

Lemma definition_targets_witness :
  (isFunctionExpression (functionExpression [] (blockStatement [])) = true →
   (defineFunction exampleServices (exampleFunctionInstance 1 []) (identifier "_1")
      (functionExpression [] (blockStatement [])) (initialState [] ∅)).1 = Returned tt ∧
   JSMap.get (funcNodes (defineFunction exampleServices (exampleFunctionInstance 1 [])
                           (identifier "_1") (functionExpression [] (blockStatement []))
                           (initialState [] ∅)).2)
     (instance_functionValue (exampleFunctionInstance 1 []))
     = Some (functionExpression [] (blockStatement [])) ∧
   targetContents (getPrelude (exampleFunctionInstance 1 []))
     (defineFunction exampleServices (exampleFunctionInstance 1 []) (identifier "_1")
        (functionExpression [] (blockStatement [])) (initialState [] ∅)).2 =
     targetContents (getPrelude (exampleFunctionInstance 1 [])) (initialState [] ∅)
       ++ variableDeclaration (identifier "_1") (functionExpression [] (blockStatement []))
       :: prototypeDeclaration (identifier "_1")
            (instance_functionValue (exampleFunctionInstance 1 [])) (initialState [] ∅) ∧
   targetContents (getFunctionBody (exampleFunctionInstance 1 []))
     (defineFunction exampleServices (exampleFunctionInstance 1 []) (identifier "_1")
        (functionExpression [] (blockStatement [])) (initialState [] ∅)).2 =
     targetContents (getFunctionBody (exampleFunctionInstance 1 [])) (initialState [] ∅)
       ++ initializationStatements (exampleFunctionInstance 1 [])) ∧
  (isCallExpression (functionExpression [] (blockStatement []))
   || isClassExpression (functionExpression [] (blockStatement [])) = true →
   (defineFunction exampleServices (exampleFunctionInstance 1 []) (identifier "_1")
      (functionExpression [] (blockStatement [])) (initialState [] ∅)).1 = Returned tt ∧
   funcNodes (defineFunction exampleServices (exampleFunctionInstance 1 []) (identifier "_1")
                (functionExpression [] (blockStatement [])) (initialState [] ∅)).2
     = funcNodes (initialState [] ∅) ∧
   targetContents (getPrelude (exampleFunctionInstance 1 []))
     (defineFunction exampleServices (exampleFunctionInstance 1 []) (identifier "_1")
        (functionExpression [] (blockStatement [])) (initialState [] ∅)).2 =
     targetContents (getPrelude (exampleFunctionInstance 1 [])) (initialState [] ∅) ∧
   targetContents (getFunctionBody (exampleFunctionInstance 1 []))
     (defineFunction exampleServices (exampleFunctionInstance 1 []) (identifier "_1")
        (functionExpression [] (blockStatement [])) (initialState [] ∅)).2 =
     targetContents (getFunctionBody (exampleFunctionInstance 1 [])) (initialState [] ∅)
       ++ initializationStatements (exampleFunctionInstance 1 [])
       ++ variableDeclaration (identifier "_1") (functionExpression [] (blockStatement []))
       :: prototypeDeclaration (identifier "_1")
            (instance_functionValue (exampleFunctionInstance 1 [])) (initialState [] ∅)) ∧
  (isFunctionExpression (functionExpression [] (blockStatement [])) = false →
   isCallExpression (functionExpression [] (blockStatement []))
   || isClassExpression (functionExpression [] (blockStatement [])) = false →
   (defineFunction exampleServices (exampleFunctionInstance 1 []) (identifier "_1")
      (functionExpression [] (blockStatement [])) (initialState [] ∅)).1
     = Threw InvariantViolation ∧
   targetContents (getFunctionBody (exampleFunctionInstance 1 []))
     (defineFunction exampleServices (exampleFunctionInstance 1 []) (identifier "_1")
        (functionExpression [] (blockStatement [])) (initialState [] ∅)).2 =
     targetContents (getFunctionBody (exampleFunctionInstance 1 [])) (initialState [] ∅)
       ++ initializationStatements (exampleFunctionInstance 1 [])).
Proof.
  apply (definition_targets exampleServices (exampleFunctionInstance 1 []) (identifier "_1")
           (functionExpression [] (blockStatement [])) (identifier "_1") (initialState [] ∅)).
  reflexivity.
Defined.

(** *** The registration of the instances *)

(** The instances that the constructor registers: the residual function
    instances that are not additional functions, in iteration order. *)
Definition registeredInstances (inp : Inputs) : list FunctionInstance :=
  List.filter
    (λ instance, negb (JSMap.has (additionalFunctionValueInfos inp)
                         (instance_functionValue instance)))
    (JSMap.values (residualFunctionInstances inp)).

(** The instances of a list whose code is the block [code]. *)
Definition instancesOfBlock (inp : Inputs) (code : BlockRef)
    (instances : list FunctionInstance) : list FunctionInstance :=
  List.filter
    (λ instance, bool_decide (ECMAScriptCode inp (instance_functionValue instance) = Some code))
    instances.

(** The code blocks of a list of instances. *)
Definition blocksOf (inp : Inputs) (instances : list FunctionInstance) : list BlockRef :=
  omap (λ instance, ECMAScriptCode inp (instance_functionValue instance)) instances.

Lemma forEach_skip {A} (skip : A → bool) (l : list A) (body : A → M State unit) s :
  forEach l (λ x, if skip x then ret tt else body x) s =
    forEach (List.filter (λ x, negb (skip x)) l) body s.
Proof.
  revert s. induction l as [|x l IH]; intros s; simpl; [done|].
  destruct (skip x); simpl.
  - unfold bind at 1. simpl. apply IH.
  - unfold bind at 1 2. destruct (body x s) as [[[]|e] s1]; [apply IH|done].
Qed.

Lemma addFunctionInstance_run inp instance code s :
  ECMAScriptCode inp (instance_functionValue instance) = Some code →
  ∃ fs,
    addFunctionInstance inp instance s =
      (Returned tt,
       set_functions fs (set_functionInstances (functionInstances s ++ [instance]) s)) ∧
    JSMap.keys fs = JSMap.keys (functions s)
                    ++ JSMap.first_occurrences (JSMap.keys (functions s)) [code] ∧
    ∀ code', JSMap.get fs code' =
      if decide (code = code')
      then Some (default [] (JSMap.get (functions s) code) ++ [instance])
      else JSMap.get (functions s) code'.
Proof.
  intros Hcode. unfold addFunctionInstance. unfold bind at 1. unfold modify at 1.
  rewrite Hcode. cbn [defined]. unfold bind, ret, getOrDefault.
  cbn [functions set_functionInstances].
  destruct (JSMap.get (functions s) code) as [array|] eqn:Hget.
  - eexists. split; [reflexivity|]. cbn [functions set_functionInstances]. split.
    + simpl. rewrite decide_True.
      * rewrite app_nil_r. apply JSMap.keys_set_old.
        apply JSMap.get_Some_elem, (list_elem_of_fmap_2 fst) in Hget. exact Hget.
      * apply JSMap.get_Some_elem, (list_elem_of_fmap_2 fst) in Hget. exact Hget.
    + intros code'. destruct (decide (code = code')) as [<-|Hne].
      * by rewrite JSMap.get_set_eq.
      * by rewrite JSMap.get_set_ne.
  - eexists. split; [reflexivity|]. cbn [functions set_functionInstances set_functions].
    apply JSMap.get_None_keys in Hget. split.
    + simpl. rewrite decide_False by done.
      rewrite JSMap.keys_set_old; [by apply JSMap.keys_set_new|].
      rewrite JSMap.keys_set_new by done. set_solver.
    + intros code'. destruct (decide (code = code')) as [<-|Hne].
      * by rewrite JSMap.get_set_eq.
      * by rewrite !JSMap.get_set_ne.
Qed.

Lemma addFunctionInstance_no_code inp instance s :
  ECMAScriptCode inp (instance_functionValue instance) = None →
  addFunctionInstance inp instance s =
    (Threw InvariantViolation,
     set_functionInstances (functionInstances s ++ [instance]) s).
Proof.
  intros Hcode. unfold addFunctionInstance. unfold bind at 1. unfold modify at 1.
  by rewrite Hcode.
Qed.

(** The array that [functions] holds for a block after the instances [new]
    of the block have been added to what it held. *)
Definition grouped (old : option (list FunctionInstance)) (new : list FunctionInstance)
    : option (list FunctionInstance) :=
  match old, new with
  | None, [] => None
  | _, _ => Some (default [] old ++ new)
  end.

Lemma first_occurrences_seen {K} `{EqDecision K} (seen1 seen2 l : list K) :
  (∀ x, x ∈ seen1 ↔ x ∈ seen2) →
  JSMap.first_occurrences seen1 l = JSMap.first_occurrences seen2 l.
Proof.
  revert seen1 seen2. induction l as [|k l IH]; intros seen1 seen2 Hext; simpl; [done|].
  destruct (decide (k ∈ seen1)) as [Hin|Hnin].
  - rewrite decide_True by (by apply Hext). by apply IH.
  - rewrite decide_False by (by rewrite <-Hext). f_equal. apply IH.
    intros x. rewrite !elem_of_cons, Hext. done.
Qed.

Lemma registerInstances_run inp instances s :
  Forall (λ instance, is_Some (ECMAScriptCode inp (instance_functionValue instance)))
    instances →
  ∃ fs,
    forEach instances (addFunctionInstance inp) s =
      (Returned tt,
       set_functions fs (set_functionInstances (functionInstances s ++ instances) s)) ∧
    JSMap.keys fs = JSMap.keys (functions s)
                    ++ JSMap.first_occurrences (JSMap.keys (functions s))
                         (blocksOf inp instances) ∧
    ∀ code, JSMap.get fs code =
      grouped (JSMap.get (functions s) code) (instancesOfBlock inp code instances).
Proof.
  intros Hall. revert s.
  induction Hall as [|instance instances [code Hcode] _ IH]; intros s.
  - exists (functions s). simpl. rewrite !app_nil_r. split_and!; [by destruct s|done|].
    intros code. unfold grouped. destruct (JSMap.get (functions s) code); simpl; [|done].
    by rewrite app_nil_r.
  - cbn [forEach]. destruct (addFunctionInstance_run inp instance code s Hcode)
      as (fs1 & Hrun1 & Hkeys1 & Hget1).
    rewrite (bind_state _ _ _ _ _ Hrun1).
    destruct (IH (set_functions fs1
                    (set_functionInstances (functionInstances s ++ [instance]) s)))
      as (fs & Hrun & Hkeys & Hget).
    exists fs. split_and!.
    + rewrite Hrun. cbn [functionInstances set_functions set_functionInstances].
      by rewrite <-app_assoc.
    + rewrite Hkeys. cbn [functions set_functions]. rewrite Hkeys1.
      unfold blocksOf. simpl. rewrite Hcode. simpl.
      destruct (decide (code ∈ JSMap.keys (functions s))) as [Hin|Hnin].
      * by rewrite app_nil_r.
      * rewrite <-app_assoc. simpl. do 2 f_equal. apply first_occurrences_seen.
        intros x. set_solver.
    + intros code'. rewrite Hget. cbn [functions set_functions]. rewrite Hget1.
      unfold instancesOfBlock. simpl. rewrite Hcode.
      destruct (decide (code = code')) as [<-|Hne].
      * rewrite bool_decide_eq_true_2 by done. unfold grouped.
        destruct (JSMap.get (functions s) code) as [old|]; simpl.
        -- destruct (List.filter _ instances); by rewrite <-?app_assoc.
        -- by destruct (List.filter _ instances).
      * rewrite bool_decide_eq_false_2 by congruence. done.
Qed.

(** X8.  The constructor groups the instances by code block.  When every
    residual function instance that is no additional function has code, the
    constructor returns; [functionInstances] then holds these instances in
    iteration order, and [functions] holds one entry per code block, the
    blocks in the order in which they were first met, each with the instances
    of the block in iteration order.  No entry is empty. *)
Theorem constructor_groups_instances (inp : Inputs) (prelude0 : list BabelNode)
    (bodies0 : gmap BodyRef SerializedBody) :
  Forall (λ instance, is_Some (ECMAScriptCode inp (instance_functionValue instance)))
    (registeredInstances inp) →
  ∃ s,
    constructor inp (initialState prelude0 bodies0) = (Returned tt, s) ∧
    functionInstances s = registeredInstances inp ∧
    JSMap.keys (functions s) =
      JSMap.first_occurrences [] (blocksOf inp (registeredInstances inp)) ∧
    (∀ code, JSMap.get (functions s) code =
       match instancesOfBlock inp code (registeredInstances inp) with
       | [] => None
       | instances => Some instances
       end) ∧
    prelude s = prelude0 ∧ serializedBodies s = bodies0.
Proof.
  intros Hall. unfold constructor. rewrite forEach_skip.
  destruct (registerInstances_run inp _ (initialState prelude0 bodies0) Hall)
    as (fs & Hrun & Hkeys & Hget).
  eexists. split; [exact Hrun|]. cbn. split_and!; [done|done| |done|done].
  intros code. rewrite Hget. simpl. by destruct (instancesOfBlock _ _ _).
Qed.

Lemma constructor_groups_instances_witness :
  ∃ s,
    constructor exampleFactory (initialState [] ∅) = (Returned tt, s) ∧
    functionInstances s = registeredInstances exampleFactory ∧
    JSMap.keys (functions s) =
      JSMap.first_occurrences [] (blocksOf exampleFactory (registeredInstances exampleFactory)) ∧
    (∀ code, JSMap.get (functions s) code =
       match instancesOfBlock exampleFactory code (registeredInstances exampleFactory) with
       | [] => None
       | instances => Some instances
       end) ∧
    prelude s = [] ∧ serializedBodies s = ∅.
Proof.
  apply (constructor_groups_instances exampleFactory [] ∅).
  repeat constructor; eauto.
Defined.

(** X9.  An instance without code stops the constructor.  When the
    instances to register are [before], which have code, then an instance
    without code, the constructor throws; the instance without code has
    already been appended to [functionInstances], after [before], but
    [functions] holds the instances of [before] only. *)
Theorem constructor_instance_without_code (inp : Inputs) (prelude0 : list BabelNode)
    (bodies0 : gmap BodyRef SerializedBody)
    (before after : list FunctionInstance) (instance : FunctionInstance) :
  registeredInstances inp = before ++ instance :: after →
  Forall (λ instance, is_Some (ECMAScriptCode inp (instance_functionValue instance))) before →
  ECMAScriptCode inp (instance_functionValue instance) = None →
  (constructor inp (initialState prelude0 bodies0)).1 = Threw InvariantViolation ∧
  functionInstances (constructor inp (initialState prelude0 bodies0)).2
    = before ++ [instance] ∧
  ∀ code, JSMap.get (functions (constructor inp (initialState prelude0 bodies0)).2) code =
    match instancesOfBlock inp code before with
    | [] => None
    | instances => Some instances
    end.
Proof.
  intros Hsplit Hbefore Hnone. unfold constructor. rewrite forEach_skip.
  fold (registeredInstances inp). rewrite Hsplit.
  destruct (registerInstances_run inp before (initialState prelude0 bodies0) Hbefore)
    as (fs & Hrun & Hkeys & Hget).
  rewrite (forEach_throws before after instance _ InvariantViolation _ _ _ Hrun
             (addFunctionInstance_no_code inp instance _ Hnone)).
  cbn. split_and!; [done|done|].
  intros code. rewrite Hget. simpl. by destruct (instancesOfBlock _ _ _).
Qed.

(** Three instances to register; the function value 2 has no code. *)
Definition exampleNoCode : Inputs :=
  mkInputs (λ f, if decide (f = 2) then None else Some 1) (λ _, Some []) (λ _, false)
    (λ _, false) (λ _, None) false (λ _, None) (λ _, None) (λ _, Some 1%Z) [] []
    [(1, exampleFunctionInstance 1 []); (2, exampleFunctionInstance 2 []);
     (3, exampleFunctionInstance 3 [])]
    [] [] [].

Lemma constructor_instance_without_code_witness :
  (constructor exampleNoCode (initialState [] ∅)).1 = Threw InvariantViolation ∧
  functionInstances (constructor exampleNoCode (initialState [] ∅)).2
    = [exampleFunctionInstance 1 []] ++ [exampleFunctionInstance 2 []] ∧
  ∀ code, JSMap.get (functions (constructor exampleNoCode (initialState [] ∅)).2) code =
    match instancesOfBlock exampleNoCode code [exampleFunctionInstance 1 []] with
    | [] => None
    | instances => Some instances
    end.
Proof.
  apply (constructor_instance_without_code exampleNoCode [] ∅
           [exampleFunctionInstance 1 []] [exampleFunctionInstance 3 []]
           (exampleFunctionInstance 2 [])).
  - reflexivity.
  - repeat constructor; eauto.
  - reflexivity.
Defined.

(** *** The replacements of a function body *)

(** The [require] calls that get a replacement: the calls whose callee is
    not among the modified names and whose module has a recorded return
    value, each with that value. *)
Definition replacedCallsOf (inp : Inputs) (modifiedNames : list string)
    (calls : list (RequireCall * string)) : list (NodeRef * BabelNode) :=
  omap (λ '(callNode, moduleId),
      if bool_decide (callee_name callNode ∈ modifiedNames) then None
      else (λ replacement, (call_ref callNode, replacement))
             <$> JSMap.get (requireReturns inp) moduleId)
    calls.

Definition replacedCalls (inp : Inputs) (functionInfo : FunctionInfo)
    : list (NodeRef * BabelNode) :=
  replacedCallsOf inp (modifiedNames functionInfo) (requireCalls functionInfo).

(** The call nodes of a block, the keys of the map [requireCalls]. *)
Definition callNodes (functionInfo : FunctionInfo) : list NodeRef :=
  (λ entry, call_ref entry.1) <$> requireCalls functionInfo.

Definition add_requireCalls (calls replaced : Z) (s : State) : State :=
  set_statistics
    (mkStatistics (stat_functions (statistics s)) (stat_functionClones (statistics s))
       (stat_requireCalls (statistics s) + calls)
       (stat_requireCallsReplaced (statistics s) + replaced)) s.

Lemma set_statistics_id s : set_statistics (statistics s) s = s.
Proof. by destruct s. Qed.

Lemma add_requireCalls_0 s : add_requireCalls 0 0 s = s.
Proof.
  unfold add_requireCalls. rewrite !Z.add_0_r.
  destruct s as [? ? ? ? ? ? ? [] ? ? ? ? ? ? ?]. done.
Qed.

Lemma add_requireCalls_add a b c d s :
  add_requireCalls a b (add_requireCalls c d s) = add_requireCalls (c + a) (d + b) s.
Proof.
  unfold add_requireCalls. cbn.
  change (set_statistics ?x (set_statistics ?y s)) with (set_statistics x s).
  f_equal. f_equal; lia.
Qed.

Lemma bump_requireCalls_add s : bump_requireCalls s = add_requireCalls 1 0 s.
Proof. unfold bump_requireCalls, add_requireCalls. by rewrite Z.add_0_r. Qed.

Lemma bump_requireCallsReplaced_add s : bump_requireCallsReplaced s = add_requireCalls 0 1 s.
Proof. unfold bump_requireCallsReplaced, add_requireCalls. by rewrite Z.add_0_r. Qed.

Lemma set_new {K V} `{EqDecision K} (m : list (K * V)) k v :
  k ∉ JSMap.keys m → JSMap.set m k v = m ++ [(k, v)].
Proof.
  unfold JSMap.keys. induction m as [|[k' v'] m IH]; simpl; [done|].
  intros [Hne Hnin]%not_elem_of_cons. rewrite decide_False by done. by rewrite IH.
Qed.

Lemma getCallReplacements_loop inp functionInfo calls res s :
  NoDup (JSMap.keys res ++ ((λ entry : RequireCall * string, call_ref entry.1) <$> calls)) →
  foldM (λ res '(callNode, moduleId),
      do modify bump_requireCalls then
      if bool_decide (callee_name callNode ∈ modifiedNames functionInfo) then ret res
      else
        match JSMap.get (requireReturns inp) moduleId with
        | Some replacement =>
            do modify bump_requireCallsReplaced then
            ret (JSMap.set res (call_ref callNode) replacement)
        | None => ret res
        end) res calls s =
  (Returned (res ++ replacedCallsOf inp (modifiedNames functionInfo) calls),
   add_requireCalls (Z.of_nat (length calls))
     (Z.of_nat (length (replacedCallsOf inp (modifiedNames functionInfo) calls))) s).
Proof.
  revert res s. induction calls as [|[callNode moduleId] calls IH]; intros res s Hnd.
  - simpl. by rewrite app_nil_r, add_requireCalls_0.
  - cbn [foldM]. unfold bind at 1. unfold bind at 1. unfold modify at 1.
    unfold replacedCallsOf. cbn [omap list_omap].
    fold (replacedCallsOf inp (modifiedNames functionInfo) calls).
    assert (NoDup (JSMap.keys res
                   ++ ((λ entry : RequireCall * string, call_ref entry.1) <$> calls))) as Hnd'.
    { rewrite fmap_cons in Hnd. apply NoDup_app in Hnd as (H1 & H2 & H3).
      apply NoDup_cons in H3 as [_ H3]. apply NoDup_app. split_and!; [done| |done].
      intros x Hx Hx'. apply (H2 x Hx). by right. }
    destruct (bool_decide (callee_name callNode ∈ modifiedNames functionInfo)).
    + cbn [ret]. rewrite IH by done. f_equal.
      rewrite bump_requireCalls_add, add_requireCalls_add.
      f_equal; unfold replacedCallsOf; simpl; lia.
    + destruct (JSMap.get (requireReturns inp) moduleId) as [replacement|];
        cbn [fmap option_fmap option_map].
      * unfold bind at 1. unfold modify, ret.
        assert (call_ref callNode ∉ JSMap.keys res) as Hnew.
        { rewrite fmap_cons in Hnd. apply NoDup_app in Hnd as (_ & H2 & _).
          intros Hin. apply (H2 _ Hin). left. }
        rewrite (set_new res) by done.
        rewrite IH.
        -- rewrite <-app_assoc. f_equal.
           rewrite bump_requireCalls_add, bump_requireCallsReplaced_add,
             !add_requireCalls_add.
           f_equal; unfold replacedCallsOf; simpl; lia.
        -- unfold JSMap.keys in *. rewrite fmap_app. simpl.
           rewrite fmap_cons in Hnd. rewrite <-app_assoc. exact Hnd.
      * cbn [ret]. rewrite IH by done. f_equal.
        rewrite bump_requireCalls_add, add_requireCalls_add.
        f_equal; unfold replacedCallsOf; simpl; lia.
Qed.

(** X10.  The replacements of the [require] calls of a block.  For a block
    with function info whose call nodes are distinct (they are the keys of a
    map), [_getCallReplacements] returns the calls whose callee name is not
    modified in the block and whose module has a recorded return value, each
    with that value, in the order of the calls; it raises the statistic
    [requireCalls] by the number of calls of the block, modified or not, and
    [requireCallsReplaced] by the number of replacements it returns, and
    changes nothing else. *)
Theorem call_replacements (inp : Inputs) (funcBody : BlockRef) (functionInfo : FunctionInfo)
    (s : State) :
  JSMap.get (residualFunctionInfos inp) funcBody = Some functionInfo →
  NoDup (callNodes functionInfo) →
  _getCallReplacements inp funcBody s =
    (Returned (replacedCalls inp functionInfo),
     add_requireCalls (Z.of_nat (length (requireCalls functionInfo)))
       (Z.of_nat (length (replacedCalls inp functionInfo))) s).
Proof.
  intros Hinfo Hnd. unfold _getCallReplacements. rewrite Hinfo. cbn [defined].
  unfold bind at 1. cbn [ret].
  by rewrite (getCallReplacements_loop inp functionInfo (requireCalls functionInfo) [] s).
Qed.

(** A binding that is skipped: it refers to something global (it has no
    environment record) and has not been assigned a value. *)
Definition skippedBinding (binding : ResidualFunctionBinding) : bool :=
  bool_decide (declarativeEnvironmentRecord binding = None)
  && bool_decide (value binding = None).

(** The binding of a free name whose references are replaced. *)
Definition replacedBinding (bindings : list (string * ResidualFunctionBinding))
    (name : string) : option ResidualFunctionBinding :=
  match JSMap.get bindings name with
  | Some binding => if skippedBinding binding then None else Some binding
  | None => None
  end.

(** What stands in for the references to a binding: the replacement made of
    its serialized value, and of its value unless it is referentialized. *)
Definition replacementOf (sv : Services) (binding : ResidualFunctionBinding)
    (serialized : BabelNode) : BabelNode :=
  getReplacement sv serialized
    (if referentialized binding then None else value binding).

(** [node] is a reference to a free name of the block that is replaced by
    [replacement]. *)
Definition replacedReference (sv : Services)
    (bindings : list (string * ResidualFunctionBinding))
    (unbound : list (string * list NodeRef)) (node : NodeRef) (replacement : BabelNode)
    : Prop :=
  ∃ name nodes binding serialized,
    (name, nodes) ∈ unbound ∧ node ∈ nodes ∧
    replacedBinding bindings name = Some binding ∧
    serializedValue binding = Some serialized ∧
    replacement = replacementOf sv binding serialized.

(** An identifier node refers to one name. *)
Definition oneNamePerNode (unbound : list (string * list NodeRef)) : Prop :=
  ∀ name1 nodes1 name2 nodes2 node,
    (name1, nodes1) ∈ unbound → (name2, nodes2) ∈ unbound →
    node ∈ nodes1 → node ∈ nodes2 → name1 = name2.

Lemma replaceNodes_get (res : list (NodeRef * BabelNode)) nodes replacement n :
  JSMap.get (foldl (λ res node, JSMap.set res node replacement) res nodes) n =
    if decide (n ∈ nodes) then Some replacement else JSMap.get res n.
Proof.
  revert res. induction nodes as [|x nodes IH]; intros res; simpl; [done|].
  rewrite IH. destruct (decide (n ∈ nodes)) as [Hin|Hnin].
  - by rewrite decide_True by (by right).
  - destruct (decide (x = n)) as [->|Hne].
    + rewrite JSMap.get_set_eq. by rewrite decide_True by left.
    + rewrite JSMap.get_set_ne by done.
      rewrite decide_False; [done|]. intros [?|?]%elem_of_cons; congruence.
Qed.

Lemma identifierReplacement_skip sv bindings res name nodes s :
  replacedBinding bindings name = None →
  identifierReplacement sv bindings res (name, nodes) s = (Returned res, s).
Proof.
  unfold replacedBinding, identifierReplacement, skippedBinding.
  destruct (JSMap.get bindings name) as [binding|]; [|done].
  by destruct (_ && _).
Qed.

Lemma identifierReplacement_replace sv bindings res name nodes binding serialized s :
  replacedBinding bindings name = Some binding →
  serializedValue binding = Some serialized →
  identifierReplacement sv bindings res (name, nodes) s =
    (Returned (foldl (λ res node, JSMap.set res node (replacementOf sv binding serialized))
                 res nodes), s).
Proof.
  unfold replacedBinding, identifierReplacement, skippedBinding.
  destruct (JSMap.get bindings name) as [binding'|]; [|done].
  destruct (_ && _); [done|]. intros [= ->] Hser. by rewrite Hser.
Qed.

Lemma identifierReplacement_throw sv bindings res name nodes binding s :
  replacedBinding bindings name = Some binding →
  serializedValue binding = None →
  identifierReplacement sv bindings res (name, nodes) s = (Threw InvariantViolation, s).
Proof.
  unfold replacedBinding, identifierReplacement, skippedBinding.
  destruct (JSMap.get bindings name) as [binding'|]; [|done].
  destruct (_ && _); [done|]. intros [= ->] Hser. by rewrite Hser.
Qed.

(** The replacement that the loop leaves for a node: the one of the last
    free name that holds the node and is replaced. *)
Fixpoint lastReplacement (sv : Services) (bindings : list (string * ResidualFunctionBinding))
    (unbound : list (string * list NodeRef)) (node : NodeRef) : option BabelNode :=
  match unbound with
  | [] => None
  | (name, nodes) :: rest =>
      match lastReplacement sv bindings rest node with
      | Some replacement => Some replacement
      | None =>
          if decide (node ∈ nodes) then
            binding ← replacedBinding bindings name;
            serialized ← serializedValue binding;
            Some (replacementOf sv binding serialized)
          else None
      end
  end.

Lemma identifierReplacements_loop sv bindings unbound res s :
  Forall (λ entry, ∀ binding, replacedBinding bindings entry.1 = Some binding →
            is_Some (serializedValue binding)) unbound →
  ∃ res',
    foldM (identifierReplacement sv bindings) res unbound s = (Returned res', s) ∧
    ∀ node,
      JSMap.get res' node =
        match lastReplacement sv bindings unbound node with
        | Some replacement => Some replacement
        | None => JSMap.get res node
        end.
Proof.
  intros Hall. revert res.
  induction Hall as [|[name nodes] unbound Hser Hall IH]; intros res.
  - by exists res.
  - cbn [foldM lastReplacement]. simpl in Hser.
    destruct (replacedBinding bindings name) as [binding|] eqn:Hbinding.
    + destruct (Hser binding eq_refl) as [serialized Hserialized].
      rewrite (bind_state _ _ _ _ _
                 (identifierReplacement_replace sv bindings res name nodes binding
                    serialized s Hbinding Hserialized)).
      destruct (IH (foldl (λ res node, JSMap.set res node (replacementOf sv binding serialized))
                      res nodes)) as (res' & Hrun & Hget).
      exists res'. split; [done|]. intros node. rewrite Hget, replaceNodes_get.
      destruct (lastReplacement sv bindings unbound node); [done|].
      destruct (decide (node ∈ nodes)); [|done]. simpl. by rewrite Hserialized.
    + rewrite (bind_state _ _ _ _ _
                 (identifierReplacement_skip sv bindings res name nodes s Hbinding)).
      destruct (IH res) as (res' & Hrun & Hget).
      exists res'. split; [done|]. intros node. rewrite Hget.
      destruct (lastReplacement sv bindings unbound node); [done|].
      by destruct (decide (node ∈ nodes)).
Qed.

Lemma lastReplacement_reference sv bindings unbound node replacement :
  lastReplacement sv bindings unbound node = Some replacement →
  replacedReference sv bindings unbound node replacement.
Proof.
  induction unbound as [|[name nodes] unbound IH]; simpl; [done|].
  destruct (lastReplacement sv bindings unbound node) as [r|].
  - intros [= ->]. destruct (IH eq_refl) as (n & ns & b & ser & Hin & Hrest).
    exists n, ns, b, ser. split; [by right|done].
  - destruct (decide (node ∈ nodes)) as [Hnode|]; [|done].
    destruct (replacedBinding bindings name) as [binding|] eqn:Hbinding; [|done]. simpl.
    destruct (serializedValue binding) as [serialized|] eqn:Hserialized; [|done].
    intros [= <-]. exists name, nodes, binding, serialized. split_and!; [left|done..].
Qed.

Lemma reference_lastReplacement sv bindings unbound node replacement :
  oneNamePerNode unbound →
  replacedReference sv bindings unbound node replacement →
  lastReplacement sv bindings unbound node = Some replacement.
Proof.
  induction unbound as [|[name nodes] unbound IH]; intros Hone.
  - intros (n & ns & b & ser & Hin & _). by apply elem_of_nil in Hin.
  - assert (oneNamePerNode unbound) as Hone'.
    { intros n1 ns1 n2 ns2 x H1 H2. apply Hone; by right. }
    intros (n & ns & b & ser & Hin & Hnode & Hb & Hs & ->). simpl.
    apply elem_of_cons in Hin as [[= -> ->]|Hin].
    + destruct (lastReplacement sv bindings unbound node) as [r|] eqn:Hlast.
      * apply lastReplacement_reference in Hlast
          as (n' & ns' & b' & ser' & Hin' & Hnode' & Hb' & Hs' & ->).
        assert (name = n') as <-.
        { apply (Hone name nodes n' ns' node); [left|by right|done..]. }
        congruence.
      * rewrite decide_True by done. rewrite Hb. simpl. by rewrite Hs.
    + rewrite (IH Hone'); [done|]. by exists n, ns, b, ser.
Qed.

(** X11.  The replacements of the free names of a block.  Let the block have
    function info, and let every identifier node refer to one name.  If
    every free name whose binding is replaced has a serialized value,
    [_getIdentifierReplacements] returns without changing the state, and a
    node has a replacement exactly when it is a reference to a free name of
    the block that has a binding among the given ones which is not skipped
    (a binding is skipped when it is global and unassigned); the replacement
    is made of the serialized value of the binding, and of its value unless
    the binding is referentialized.  If a replaced binding has no serialized
    value, the method throws. *)
Theorem identifier_replacements (inp : Inputs) (sv : Services) (funcBody : BlockRef)
    (functionInfo : FunctionInfo) (bindings : list (string * ResidualFunctionBinding))
    (s : State) :
  JSMap.get (residualFunctionInfos inp) funcBody = Some functionInfo →
  oneNamePerNode (unbound functionInfo) →
  (Forall (λ entry, ∀ binding, replacedBinding bindings entry.1 = Some binding →
             is_Some (serializedValue binding)) (unbound functionInfo) →
   ∃ res,
     _getIdentifierReplacements inp sv funcBody bindings s = (Returned res, s) ∧
     ∀ node replacement,
       JSMap.get res node = Some replacement ↔
       replacedReference sv bindings (unbound functionInfo) node replacement) ∧
  (Exists (λ entry, ∃ binding, replacedBinding bindings entry.1 = Some binding ∧
             serializedValue binding = None) (unbound functionInfo) →
   _getIdentifierReplacements inp sv funcBody bindings s = (Threw InvariantViolation, s)).
Proof.
  intros Hinfo Hone. unfold _getIdentifierReplacements. rewrite Hinfo. cbn [defined].
  unfold bind at 1 2. cbn [ret]. split.
  - intros Hall.
    destruct (identifierReplacements_loop sv bindings (unbound functionInfo) [] s Hall)
      as (res & Hrun & Hget).
    exists res. split; [done|]. intros node r. rewrite Hget. split.
    + destruct (lastReplacement sv bindings (unbound functionInfo) node) eqn:Hlast; [|done].
      intros [= <-]. by apply lastReplacement_reference.
    + intros Href. by rewrite (reference_lastReplacement _ _ _ _ _ Hone Href).
  - clear Hone. generalize (@nil (NodeRef * BabelNode)) as res.
    induction (unbound functionInfo) as [|[name nodes] unbound IH]; intros res Hex.
    + by apply Exists_nil in Hex.
    + cbn [foldM].
      destruct (replacedBinding bindings name) as [binding|] eqn:Hbinding.
      * destruct (serializedValue binding) as [serialized|] eqn:Hserialized.
        -- rewrite (bind_state _ _ _ _ _
                      (identifierReplacement_replace sv bindings res name nodes binding
                         serialized s Hbinding Hserialized)).
           apply IH. apply Exists_cons in Hex as [(b & Hb & Hnone)|Hex]; [|done].
           simpl in Hb. congruence.
        -- unfold bind.
           by rewrite (identifierReplacement_throw sv bindings res name nodes binding s).
      * rewrite (bind_state _ _ _ _ _
                   (identifierReplacement_skip sv bindings res name nodes s Hbinding)).
        apply IH. apply Exists_cons in Hex as [(b & Hb & Hnone)|Hex]; [|done].
        simpl in Hb. congruence.
Qed.

(** *** The factory function infos *)

(** The decision of [_shouldUseFactoryFunction] for a block, its instances
    and its function info, as a value. *)
Definition factoryDecision (inp : Inputs) (funcBody : BlockRef) (first : FunctionInstance)
    (instances : list FunctionInstance) (functionInfo : FunctionInfo) : bool :=
  negb (shouldInlineFunction inp funcBody first)
  && bool_decide (1 < length instances)
  && negb (usesArguments functionInfo).

(** The suffix of the name of a factory. *)
Definition factorySuffix (inp : Inputs) (first : FunctionInstance) : string :=
  if truthyString (originalName inp (instance_functionValue first)) || debugNames inp
  then "factoryFunction" else "".

(** What [_generateFactoryFunctionInfos] records for a block when the name
    generator has handed out [n] names so far. *)
Definition factoryInfoOf (inp : Inputs) (sv : Services) (n : nat) (funcBody : BlockRef)
    (first : FunctionInstance) (instances : list FunctionInstance)
    (functionInfo : FunctionInfo) : FactoryFunctionInfo :=
  mkFactoryFunctionInfo
    (if factoryDecision inp funcBody first instances functionInfo
     then Some (identifier (generate sv n (factorySuffix inp first)))
     else getLocation sv (instance_functionValue first))
    functionInfo
    (negb (forallb (λ instance, bool_decide (containingAdditionalFunction instance = None))
             instances)).

Lemma _shouldUseFactoryFunction_run inp funcBody first instances functionInfo s :
  head instances = Some first →
  JSMap.get (residualFunctionInfos inp) funcBody = Some functionInfo →
  _shouldUseFactoryFunction inp funcBody instances s =
    (Returned (factoryDecision inp funcBody first instances functionInfo), s).
Proof.
  intros Hfirst Hinfo. unfold _shouldUseFactoryFunction.
  destruct instances as [|i instances]; [done|]. injection Hfirst as ->.
  rewrite bool_decide_eq_true_2 by (simpl; lia). by rewrite Hinfo.
Qed.

Lemma _shouldUseFactoryFunction_returned inp funcBody instances s useFactory s' :
  _shouldUseFactoryFunction inp funcBody instances s = (Returned useFactory, s') →
  ∃ first functionInfo,
    head instances = Some first ∧
    JSMap.get (residualFunctionInfos inp) funcBody = Some functionInfo.
Proof.
  unfold _shouldUseFactoryFunction. destruct instances as [|first instances]; [done|].
  rewrite bool_decide_eq_true_2 by (simpl; lia). cbn [invariant].
  unfold bind at 1. cbn [ret head defined]. unfold bind at 1. cbn [ret].
  destruct (JSMap.get (residualFunctionInfos inp) funcBody) as [functionInfo|]; [|done].
  intros _. by exists first, functionInfo.
Qed.

(** One turn of the loop of [_generateFactoryFunctionInfos]. *)
Definition factoryInfoStep (inp : Inputs) (sv : Services)
    (rewrittenAdditionalFunctions : list (FunctionValue * list BabelNode))
    (factoryFunctionInfos : list (Z * FactoryFunctionInfo))
    (entry : BlockRef * list FunctionInstance) : M State (list (Z * FactoryFunctionInfo)) :=
  let '(functionBody, instances) := entry in
  do invariant (bool_decide (0 < length instances)) then
  let* first := defined (head instances) in
  let suffix :=
    if truthyString (originalName inp (instance_functionValue first))
       || debugNames inp
    then "factoryFunction" else "" in
  let* useFactory := _shouldUseFactoryFunction inp functionBody instances in
  let* factoryId :=
    (if useFactory then
       do invariant (negb (_hasRewrittenFunctionInstance
                             rewrittenAdditionalFunctions instances)) then
       let* name := generateFactoryName sv suffix in
       ret (Some (identifier name))
     else ret (getLocation sv (instance_functionValue first))) in
  do invariant (truthy (uniqueOrderedTag inp functionBody)) then
  let* functionInfo := defined (JSMap.get (residualFunctionInfos inp) functionBody) in
  let anyContainingAdditionalFunction :=
    negb (forallb (λ instance,
            bool_decide (containingAdditionalFunction instance = None)) instances) in
  ret (JSMap.set factoryFunctionInfos (tagOf inp functionBody)
         (mkFactoryFunctionInfo factoryId functionInfo anyContainingAdditionalFunction)).

Lemma _generateFactoryFunctionInfos_unfold inp sv rewritten s :
  _generateFactoryFunctionInfos inp sv rewritten s =
    foldM (factoryInfoStep inp sv rewritten) [] (functions s) s.
Proof. reflexivity. Qed.

Lemma factoryInfoStep_returned inp sv rewritten infos funcBody instances s infos' s' :
  factoryInfoStep inp sv rewritten infos (funcBody, instances) s = (Returned infos', s') →
  ∃ first functionInfo,
    head instances = Some first ∧
    JSMap.get (residualFunctionInfos inp) funcBody = Some functionInfo ∧
    truthy (uniqueOrderedTag inp funcBody) = true ∧
    (factoryDecision inp funcBody first instances functionInfo = true →
     _hasRewrittenFunctionInstance rewritten instances = false) ∧
    infos' = JSMap.set infos (tagOf inp funcBody)
               (factoryInfoOf inp sv (factoryNameCounter s) funcBody first instances
                  functionInfo) ∧
    s' = if factoryDecision inp funcBody first instances functionInfo
         then set_factoryNameCounter (S (factoryNameCounter s)) s else s.
Proof.
  unfold factoryInfoStep. intros Hrun.
  destruct instances as [|first instances]; [done|].
  rewrite bool_decide_eq_true_2 in Hrun by (simpl; lia). cbn [invariant] in Hrun.
  unfold bind at 1 in Hrun. cbn [ret head defined] in Hrun.
  unfold bind at 1 in Hrun. cbn [ret] in Hrun.
  unfold bind at 1 in Hrun.
  destruct (_shouldUseFactoryFunction inp funcBody (first :: instances) s)
    as [[useFactory|e] s1] eqn:Huse; [|done].
  destruct (_shouldUseFactoryFunction_returned _ _ _ _ _ _ Huse)
    as (first' & functionInfo & [= <-] & Hinfo).
  rewrite (_shouldUseFactoryFunction_run inp funcBody first (first :: instances)
             functionInfo s eq_refl Hinfo) in Huse.
  injection Huse as <- <-.
  exists first, functionInfo. unfold factoryInfoOf, factorySuffix.
  destruct (factoryDecision inp funcBody first (first :: instances) functionInfo).
  - unfold bind at 1 in Hrun. unfold bind at 1 in Hrun.
    destruct (_hasRewrittenFunctionInstance rewritten (first :: instances)); [done|].
    cbn [negb invariant ret] in Hrun. unfold bind at 1 in Hrun.
    unfold generateFactoryName at 1 in Hrun. cbn [ret] in Hrun.
    unfold bind at 1 in Hrun.
    destruct (truthy (uniqueOrderedTag inp funcBody)); [|done]. cbn [invariant ret] in Hrun.
    rewrite Hinfo in Hrun. unfold bind in Hrun. cbn [defined ret] in Hrun.
    injection Hrun as <- <-. by split_and!.
  - unfold bind at 1 in Hrun. cbn [ret] in Hrun.
    unfold bind at 1 in Hrun.
    destruct (truthy (uniqueOrderedTag inp funcBody)); [|done]. cbn [invariant ret] in Hrun.
    rewrite Hinfo in Hrun. unfold bind in Hrun. cbn [defined ret] in Hrun.
    injection Hrun as <- <-. by split_and!.
Qed.

(** The number of blocks among [entries] that get a factory. *)
Definition factoryCount (inp : Inputs) (entries : list (BlockRef * list FunctionInstance))
    : nat :=
  length (List.filter (λ entry : BlockRef * list FunctionInstance,
    match head entry.2, JSMap.get (residualFunctionInfos inp) entry.1 with
    | Some first, Some functionInfo =>
        factoryDecision inp entry.1 first entry.2 functionInfo
    | _, _ => false
    end) entries).

Lemma factoryCount_cons inp funcBody instances first functionInfo entries :
  head instances = Some first →
  JSMap.get (residualFunctionInfos inp) funcBody = Some functionInfo →
  factoryCount inp ((funcBody, instances) :: entries) =
    (if factoryDecision inp funcBody first instances functionInfo then 1 else 0)
    + factoryCount inp entries.
Proof.
  intros Hfirst Hinfo. unfold factoryCount. cbn [List.filter fst snd].
  rewrite Hfirst, Hinfo. by destruct (factoryDecision _ _ _ _ _).
Qed.

Lemma factoryInfos_loop inp sv rewritten entries infos s infos' s' :
  foldM (factoryInfoStep inp sv rewritten) infos entries s = (Returned infos', s') →
  NoDup ((λ entry, tagOf inp entry.1) <$> entries) →
  s' = set_factoryNameCounter (factoryNameCounter s + factoryCount inp entries) s ∧
  (∀ tag, tag ∉ (λ entry, tagOf inp entry.1) <$> entries →
     JSMap.get infos' tag = JSMap.get infos tag) ∧
  (∀ k funcBody instances, entries !! k = Some (funcBody, instances) →
     ∃ first functionInfo,
       head instances = Some first ∧
       JSMap.get (residualFunctionInfos inp) funcBody = Some functionInfo ∧
       truthy (uniqueOrderedTag inp funcBody) = true ∧
       (factoryDecision inp funcBody first instances functionInfo = true →
        _hasRewrittenFunctionInstance rewritten instances = false) ∧
       JSMap.get infos' (tagOf inp funcBody) =
         Some (factoryInfoOf inp sv
                 (factoryNameCounter s + factoryCount inp (take k entries))
                 funcBody first instances functionInfo)).
Proof.
  revert infos s. induction entries as [|[funcBody instances] entries IH]; intros infos s.
  - simpl. intros [= <- <-] _. split_and!; [|done|].
    + unfold factoryCount. simpl. rewrite Nat.add_0_r. by destruct s.
    + intros k b i Hk. by rewrite lookup_nil in Hk.
  - cbn [foldM]. unfold bind at 1.
    destruct (factoryInfoStep inp sv rewritten infos (funcBody, instances) s)
      as [[infos1|e] s1] eqn:Hstep; [|done].
    intros Hrun Hnd. rewrite fmap_cons in Hnd. apply NoDup_cons in Hnd as [Hfresh Hnd].
    destruct (factoryInfoStep_returned _ _ _ _ _ _ _ _ _ Hstep)
      as (first & functionInfo & Hfirst & Hinfo & Htag & Hrewritten & -> & Hs1).
    destruct (IH _ _ Hrun Hnd) as (Hs' & Hframe & Hall).
    assert (factoryNameCounter s1 =
            factoryNameCounter s
            + (if factoryDecision inp funcBody first instances functionInfo then 1 else 0))
      as Hcounter.
    { rewrite Hs1. destruct (factoryDecision _ _ _ _ _); simpl; lia. }
    split_and!.
    + rewrite Hs', (factoryCount_cons _ _ _ _ _ _ Hfirst Hinfo), Hcounter, Hs1.
      destruct (factoryDecision inp funcBody first instances functionInfo);
        unfold set_factoryNameCounter; simpl; f_equal; lia.
    + intros tag Htag'. rewrite fmap_cons in Htag'.
      apply not_elem_of_cons in Htag' as [Hne Htag'].
      rewrite Hframe by done. by rewrite JSMap.get_set_ne.
    + intros [|k] b i Hk; simpl in Hk.
      * injection Hk as <- <-. exists first, functionInfo.
        split_and!; [done..|].
        rewrite Hframe by done. rewrite JSMap.get_set_eq.
        unfold factoryCount. simpl. by rewrite Nat.add_0_r.
      * destruct (Hall k b i Hk) as (f & fi & H1 & H2 & H3 & H4 & H5).
        exists f, fi. split_and!; [done..|]. rewrite H5. do 2 f_equal.
        rewrite firstn_cons, (factoryCount_cons _ _ _ _ _ _ Hfirst Hinfo), Hcounter. lia.
Qed.

(** X12.  The factory function infos.  Let the blocks of [functions] carry
    distinct tags.  When [_generateFactoryFunctionInfos] returns, it has only
    advanced the name generator, by one name per block that gets a factory,
    and for every block of [functions] the returned map holds, under the
    tag of the block, an entry with the function info of the block: the
    lookups of the loop over the normal functions succeed.  The factory
    identifier of the entry is the next generated name when the decision of
    [_shouldUseFactoryFunction] is for the factory (such a block has no
    rewritten instance), and the location of the first instance of the block
    otherwise.  Every block has an instance, function info and a tag that is
    not zero. *)
Theorem factory_infos_cover_blocks (inp : Inputs) (sv : Services)
    (rewritten : list (FunctionValue * list BabelNode)) (s s' : State)
    (infos : list (Z * FactoryFunctionInfo)) :
  _generateFactoryFunctionInfos inp sv rewritten s = (Returned infos, s') →
  NoDup ((λ entry, tagOf inp entry.1) <$> functions s) →
  s' = set_factoryNameCounter (factoryNameCounter s + factoryCount inp (functions s)) s ∧
  (∀ k funcBody instances, functions s !! k = Some (funcBody, instances) →
     ∃ first functionInfo,
       head instances = Some first ∧
       JSMap.get (residualFunctionInfos inp) funcBody = Some functionInfo ∧
       truthy (uniqueOrderedTag inp funcBody) = true ∧
       (factoryDecision inp funcBody first instances functionInfo = true →
        _hasRewrittenFunctionInstance rewritten instances = false) ∧
       JSMap.get infos (tagOf inp funcBody) =
         Some (factoryInfoOf inp sv
                 (factoryNameCounter s + factoryCount inp (take k (functions s)))
                 funcBody first instances functionInfo)).
Proof.
  rewrite _generateFactoryFunctionInfos_unfold. intros Hrun Hnd.
  destruct (factoryInfos_loop _ _ _ _ _ _ _ _ Hrun Hnd) as (Hs' & _ & Hall). done.
Qed.

(** *** What the pass leaves as it is *)

(** The steps of a proof that a phase of the pass keeps a part of the state,
    down to the writes of the phase. *)
Ltac frame_step :=
  first
    [ keeps_step
    | match goal with
      | |- keeps _ (pushFunctionBody ?strict _) => unfold pushFunctionBody; destruct strict
      | |- keeps _ (addClassMethod _ _ _) =>
          unfold addClassMethod; apply keeps_modify; intros ?;
          destruct (JSMap.get _ _); done
      | |- keeps _ (setSuperClass _ _) =>
          unfold setSuperClass;
          match goal with
          | |- keeps _ (match ?x with _ => _ end) =>
              destruct x; [apply keeps_modify; intros ?; destruct (JSMap.get _ _); done|]
          end
      | |- keeps _ (_getOrCreateClassNode _) =>
          let s := fresh "s" in
          intros s; unfold _getOrCreateClassNode; destruct (JSMap.has _ _); done
      | |- keeps _ (generateFactoryName _ _) => let s := fresh "s" in intros s; done
      | |- keeps _ (_getCallReplacements _ _) => unfold _getCallReplacements
      | |- keeps _ (emitModifiedBindings _ _) => unfold emitModifiedBindings
      | |- keeps _ (processAdditionalFunction _ _ _ ?entry) =>
          unfold processAdditionalFunction; destruct entry
      | |- keeps _ (_generateFactoryFunctionInfos _ _ _) => unfold _generateFactoryFunctionInfos
      | |- keeps _ (naiveProcessInstances _ _ _ _ _ _) =>
          unfold naiveProcessInstances, naiveProcessInstance
      | |- keeps _ (naiveProcessInstance _ _ _ _ _ _) => unfold naiveProcessInstance
      | |- keeps _ (factoryProcessInstances _ _ _ _ _ _ _) =>
          unfold factoryProcessInstances, processFactoryInstance, factoryInstanceStub
      | |- keeps _ (processFunctionEntry _ _ _ ?entry) =>
          unfold processFunctionEntry; destruct entry
      | |- keeps _ (emitCapturedScopesPreludes _) => unfold emitCapturedScopesPreludes
      | |- keeps _ spliceInstanceBodies => unfold spliceInstanceBodies
      | |- keeps _ (spliceInstanceBody _) => unfold spliceInstanceBody
      | |- keeps _ (spliceFunctions _ _ _) => unfold spliceFunctions
      end ].

Ltac frame := repeat frame_step.



Lemma keeps_run {A X} (f : State → X) (m : M State A) s a s' :
  keeps f m → m s = (a, s') → f s' = f s.
Proof. intros Hkeeps Hrun. specialize (Hkeeps s). by rewrite Hrun in Hkeeps. Qed.



(** *** The pass only inserts into the serialized bodies *)















(** *** The preludes of the captured scopes *)

(** The array that the statements of a referentialization scope go to. *)
Definition targetOfScope (referentializationScope : ReferentializationScope) : Target :=
  match referentializationScope with
  | GLOBAL => toGlobalPrelude
  | scopeOfFunction additionalFunction => toAdditionalPrelude additionalFunction
  end.

Definition scopeOfTarget (target : Target) : option ReferentializationScope :=
  match target with
  | toGlobalPrelude => Some GLOBAL
  | toAdditionalPrelude additionalFunction => Some (scopeOfFunction additionalFunction)
  | toFunctionBody _ => None
  end.

(** The two statements that set up the captured scopes of a
    referentialization scope: the initialization of the array of captured
    scopes, then the function that gives access to a scope. *)
Definition capturedScopePrelude (sv : Services) (keys : list ReferentializationScope)
    (target : Target) : list BabelNode :=
  match scopeOfTarget target with
  | Some referentializationScope =>
      if decide (referentializationScope ∈ keys)
      then [createCapturedScopesArrayInitialization sv referentializationScope;
            createCaptureScopeAccessFunction sv referentializationScope]
      else []
  | None => []
  end.

Lemma unshiftTarget_state target items s :
  unshiftTarget target items s = (Returned tt, (unshiftTarget target items s).2).
Proof.
  destruct target; simpl; [done|..];
    unfold unshiftTo, getOrDefault; by destruct (JSMap.get _ _).
Qed.

Lemma unshiftTarget_contents target target' items s :
  targetContents target' (unshiftTarget target items s).2 =
    if decide (target = target') then items ++ targetContents target' s
    else targetContents target' s.
Proof.
  destruct (decide (target = target')) as [<-|Hne].
  - destruct target as [|f|i]; simpl; [done|..].
    + rewrite (unshiftTo_get additionalFunctionPreludes set_additionalFunctionPreludes)
        by done.
      by rewrite decide_True.
    + rewrite (unshiftTo_get functionBodies set_functionBodies) by done.
      by rewrite decide_True.
  - destruct target as [|f|i], target' as [|f'|i']; simpl; try done;
      try (unfold unshiftTo, getOrDefault; by destruct (JSMap.get _ _)).
    + rewrite (unshiftTo_get additionalFunctionPreludes set_additionalFunctionPreludes)
        by done.
      by rewrite decide_False by congruence.
    + by rewrite (keeps_unshiftTo functionBodies additionalFunctionPreludes
                    set_additionalFunctionPreludes f items (λ _ _, eq_refl) s).
    + by rewrite (keeps_unshiftTo additionalFunctionPreludes functionBodies
                    set_functionBodies i items (λ _ _, eq_refl) s).
    + rewrite (unshiftTo_get functionBodies set_functionBodies) by done.
      by rewrite decide_False by congruence.
Qed.

Lemma scopeOfTarget_targetOfScope target referentializationScope :
  scopeOfTarget target = Some referentializationScope ↔
  target = targetOfScope referentializationScope.
Proof.
  destruct target, referentializationScope; simpl; split; intros; simplify_eq; done.
Qed.

Lemma capturedScopesLoop sv keys s :
  NoDup keys →
  ∃ s',
    forEach keys (λ referentializationScope,
      let target := match referentializationScope with
                    | GLOBAL => toGlobalPrelude
                    | scopeOfFunction additionalFunction =>
                        toAdditionalPrelude additionalFunction
                    end in
      do unshiftTarget target [createCaptureScopeAccessFunction sv referentializationScope] then
      unshiftTarget target [createCapturedScopesArrayInitialization sv referentializationScope])
      s = (Returned tt, s') ∧
    ∀ target, targetContents target s' =
      capturedScopePrelude sv keys target ++ targetContents target s.
Proof.
  intros Hnd. revert s. induction Hnd as [|scope keys Hnin Hnd IH]; intros s.
  - exists s. split; [done|]. intros target. unfold capturedScopePrelude.
    destruct (scopeOfTarget target); [|done]. by rewrite decide_False by apply not_elem_of_nil.
  - cbn [forEach].
    match goal with |- context [forEach keys ?body0] => set (body := body0) in * end.
    assert (body scope s =
            (Returned tt,
             (unshiftTarget (targetOfScope scope)
                [createCapturedScopesArrayInitialization sv scope]
                (unshiftTarget (targetOfScope scope)
                   [createCaptureScopeAccessFunction sv scope] s).2).2)) as Hbody.
    { subst body. destruct scope; cbn [targetOfScope]; unfold bind;
        rewrite unshiftTarget_state; apply unshiftTarget_state. }
    rewrite (bind_state _ _ _ _ _ Hbody).
    match goal with |- context [forEach keys body ?s1] =>
      destruct (IH s1) as (s' & Hrun & Hcontents) end.
    exists s'. split; [by rewrite Hrun|].
    intros target. rewrite Hcontents, !unshiftTarget_contents.
    unfold capturedScopePrelude.
    destruct (decide (targetOfScope scope = target)) as [<-|Hne].
    + assert (scopeOfTarget (targetOfScope scope) = Some scope) as ->
        by (by apply scopeOfTarget_targetOfScope).
      rewrite decide_False by done. rewrite decide_True by left. done.
    + destruct (scopeOfTarget target) as [scope'|] eqn:Hscope; [|done].
      apply scopeOfTarget_targetOfScope in Hscope.
      destruct (decide (scope' ∈ keys)) as [Hin|Hnin'].
      * by rewrite decide_True by (by right).
      * rewrite decide_False; [done|].
        intros [->|?]%elem_of_cons; [by subst target|done].
Qed.

(** X16.  The preludes of the captured scopes.  For the distinct keys of
    the referentialization state, the loop returns, and it puts in front of
    the global prelude (for the key ["GLOBAL"]) and in front of the prelude of
    each additional function that is a key (creating that prelude if there
    was none) two statements: first the initialization of the array of
    captured scopes, then the function that accesses a scope.  What the
    preludes held follows; no other array changes. *)
Theorem captured_scope_preludes_first (sv : Services) (s : State) :
  NoDup (referentializationState_keys sv) →
  ∃ s',
    emitCapturedScopesPreludes sv s = (Returned tt, s') ∧
    ∀ target, targetContents target s' =
      capturedScopePrelude sv (referentializationState_keys sv) target
      ++ targetContents target s.
Proof. intros Hnd. by apply capturedScopesLoop. Qed.

(** *** The parameters of a factory *)

(** The binding of [name] in an instance differs from [binding]. *)
Definition differsFrom (sv : Services) (name : string) (binding : ResidualFunctionBinding)
    (instance : FunctionInstance) : bool :=
  match JSMap.get (residualFunctionBindings instance) name with
  | Some residualBinding => negb (AreSameResidualBinding sv residualBinding binding)
  | None => false
  end.

(** The free name [name] varies among the instances [first :: rest]: the
    binding of the first instance is not modified, and the binding of an
    instance of [rest] is not the same as it. *)
Definition bindingVaries (sv : Services) (first : FunctionInstance)
    (rest : list FunctionInstance) (name : string) : bool :=
  match JSMap.get (residualFunctionBindings first) name with
  | Some firstBinding =>
      negb (modified firstBinding) && existsb (differsFrom sv name firstBinding) rest
  | None => false
  end.

Lemma compareBindings_returned sv name binding instances s isDifferent lastBinding s' :
  compareBindings sv name (Some binding) instances s
    = (Returned (isDifferent, lastBinding), s') →
  s' = s ∧ lastBinding = Some binding ∧
  isDifferent = existsb (differsFrom sv name binding) instances.
Proof.
  induction instances as [|instance rest IH]; simpl.
  - by intros [= <- <- <-].
  - unfold bind at 1. unfold differsFrom at 1.
    destruct (JSMap.get (residualFunctionBindings instance) name) as [residualBinding|];
      [|done].
    cbn [defined ret]. unfold bind at 1.
    destruct (modified residualBinding); [done|]. cbn [negb invariant ret].
    destruct (AreSameResidualBinding sv residualBinding binding); simpl.
    + exact IH.
    + by intros [= <- <- <-].
Qed.

(** One turn of the loop of [partitionBindings]. *)
Definition partitionStep (sv : Services) (first : FunctionInstance)
    (normalInstances : list FunctionInstance)
    : list string * list (string * ResidualFunctionBinding) → string →
      M State (list string * list (string * ResidualFunctionBinding)) :=
  λ '(factoryNames, sameResidualBindings) name,
  let* firstBinding := defined (JSMap.get (residualFunctionBindings first) name) in
  if modified firstBinding
  then ret (factoryNames, JSMap.set sameResidualBindings name firstBinding)
  else
    let* (isDifferent, lastBinding) := compareBindings sv name None normalInstances in
    if isDifferent then ret (factoryNames ++ [name], sameResidualBindings)
    else
      let* lastBinding := defined lastBinding in
      ret (factoryNames, JSMap.set sameResidualBindings name lastBinding).

Lemma partitionBindings_unfold sv names first normalInstances s :
  partitionBindings sv names first normalInstances s =
    foldM (partitionStep sv first normalInstances) ([], []) names s.
Proof. reflexivity. Qed.

Lemma partitionStep_returned sv first rest factoryNames same name s factoryNames' same' s' :
  partitionStep sv first (first :: rest) (factoryNames, same) name s
    = (Returned (factoryNames', same'), s') →
  s' = s ∧
  ∃ firstBinding,
    JSMap.get (residualFunctionBindings first) name = Some firstBinding ∧
    if bindingVaries sv first rest name
    then factoryNames' = factoryNames ++ [name] ∧ same' = same
    else factoryNames' = factoryNames ∧ same' = JSMap.set same name firstBinding.
Proof.
  unfold partitionStep, bindingVaries. unfold bind at 1.
  destruct (JSMap.get (residualFunctionBindings first) name) as [firstBinding|] eqn:Hfirst;
    [|done].
  cbn [defined ret]. destruct (modified firstBinding) eqn:Hmodified.
  - intros [= <- <- <-]. split; [done|]. by exists firstBinding.
  - cbn [compareBindings]. unfold bind at 1. unfold bind at 1. rewrite Hfirst.
    cbn [defined ret]. unfold bind at 1. rewrite Hmodified. cbn [negb invariant ret].
    destruct (compareBindings sv name (Some firstBinding) rest s)
      as [[[isDifferent lastBinding]|e] s1] eqn:Hcompare; [|done].
    apply compareBindings_returned in Hcompare as (-> & -> & ->).
    destruct (existsb (differsFrom sv name firstBinding) rest); simpl.
    + intros [= <- <- <-]. split; [done|]. by exists firstBinding.
    + intros [= <- <- <-]. split; [done|]. by exists firstBinding.
Qed.

Lemma partitionBindings_loop sv first rest names factoryNames same s factoryNames' same' s' :
  foldM (partitionStep sv first (first :: rest)) (factoryNames, same) names s
    = (Returned (factoryNames', same'), s') →
  NoDup names →
  s' = s ∧
  factoryNames' = factoryNames ++ List.filter (bindingVaries sv first rest) names ∧
  ∀ name, JSMap.get same' name =
    if decide (name ∈ names)
    then if bindingVaries sv first rest name then JSMap.get same name
         else JSMap.get (residualFunctionBindings first) name
    else JSMap.get same name.
Proof.
  revert factoryNames same s.
  induction names as [|name names IH]; intros factoryNames same s.
  - simpl. intros [= <- <- <-] _. rewrite app_nil_r. split_and!; [done..|].
    done.
  - cbn [foldM]. unfold bind at 1.
    destruct (partitionStep sv first (first :: rest) (factoryNames, same) name s)
      as [[[factoryNames1 same1]|e] s1] eqn:Hstep; [|done].
    apply partitionStep_returned in Hstep as (-> & firstBinding & Hfirst & Hstep).
    intros Hrun [Hnin Hnd]%NoDup_cons.
    destruct (IH _ _ _ Hrun Hnd) as (-> & -> & Hsame). split; [done|].
    cbn [List.filter]. destruct (bindingVaries sv first rest name) eqn:Hvaries.
    + destruct Hstep as [-> ->]. split; [by rewrite <-app_assoc|].
      intros name'. rewrite Hsame. destruct (decide (name' ∈ names)) as [Hin|Hnin'].
      * by rewrite decide_True by (by right).
      * destruct (decide (name' = name)) as [->|Hne].
        -- rewrite decide_True by left. by rewrite Hvaries.
        -- rewrite decide_False; [done|]. by intros [?|?]%elem_of_cons.
    + destruct Hstep as [-> ->]. split; [done|].
      intros name'. rewrite Hsame. destruct (decide (name' ∈ names)) as [Hin|Hnin'].
      * rewrite decide_True by (by right).
        destruct (bindingVaries sv first rest name'); [|done].
        rewrite JSMap.get_set_ne; [done|]. by intros ->.
      * destruct (decide (name' = name)) as [->|Hne].
        -- rewrite decide_True by left. by rewrite Hvaries, JSMap.get_set_eq.
        -- rewrite JSMap.get_set_ne by done.
           rewrite decide_False; [done|]. by intros [?|?]%elem_of_cons.
Qed.

(** X17.  The parameters of a factory.  Let the free names of the block be
    distinct, and let the first of the instances be [first].  When the
    partition of the names returns, it has changed nothing, and a free name
    has become a factory parameter exactly when the binding that the first
    instance has for it is not modified and some other instance has a binding
    for it that is not the same binding; the parameters keep the order of the
    free names.  Every other free name is bound, for the factory body, to the
    binding of the first instance. *)
Theorem factory_parameters_vary (sv : Services) (names : list string)
    (first : FunctionInstance) (rest : list FunctionInstance) (s s' : State)
    (factoryNames : list string) (sameResidualBindings : list (string * ResidualFunctionBinding)) :
  partitionBindings sv names first (first :: rest) s
    = (Returned (factoryNames, sameResidualBindings), s') →
  NoDup names →
  s' = s ∧
  factoryNames = List.filter (bindingVaries sv first rest) names ∧
  ∀ name, JSMap.get sameResidualBindings name =
    if decide (name ∈ names)
    then if bindingVaries sv first rest name then None
         else JSMap.get (residualFunctionBindings first) name
    else None.
Proof.
  rewrite partitionBindings_unfold. intros Hrun Hnd.
  destruct (partitionBindings_loop _ _ _ _ _ _ _ _ _ _ Hrun Hnd) as (-> & -> & Hsame).
  split_and!; [done..|]. intros name. rewrite Hsame.
  destruct (decide (name ∈ names)); [|done]. by destruct (bindingVaries sv first rest name).
Qed.

(** *** The clone statistic *)

Definition functionClones (s : State) : Z := stat_functionClones (statistics s).

Lemma defined_returned {A} (x : option A) (s : State) a s' :
  defined x s = (Returned a, s') → x = Some a ∧ s' = s.
Proof. destruct x; [by intros [= <- <-]|done]. Qed.

Lemma naiveProcessInstances_clones inp sv infos funcBody params instances s :
  functionClones (naiveProcessInstances inp sv infos funcBody params instances s).2 =
    (functionClones s + Z.of_nat (length instances))%Z.
Proof.
  unfold naiveProcessInstances. unfold bind at 1. unfold modify at 1.
  assert (keeps functionClones
            (forEach instances (naiveProcessInstance inp sv infos funcBody params)))
    as Hkeeps by (unfold functionClones; frame).
  by rewrite Hkeeps.
Qed.

(** X18.  The clone statistic of a block.  When the turn of a code block
    returns, the statistic [functionClones] has grown by the number of
    instances of the block that are nested in an additional function, and,
    for the other instances, by nothing when they share a factory and by
    their number less one when they are cloned one by one. *)
Theorem clone_statistic_of_block (inp : Inputs) (sv : Services)
    (factoryFunctionInfos : list (Z * FactoryFunctionInfo)) (funcBody : BlockRef)
    (instances : list FunctionInstance) (functionInfo : FunctionInfo) (s : State) :
  JSMap.get (residualFunctionInfos inp) funcBody = Some functionInfo →
  (processFunctionEntry inp sv factoryFunctionInfos (funcBody, instances) s).1
    = Returned tt →
  functionClones (processFunctionEntry inp sv factoryFunctionInfos (funcBody, instances) s).2
  = (functionClones s
     + Z.of_nat (length (additionalFunctionNestedInstancesOf inp instances))
     + match normalInstancesOf inp instances with
       | [] => 0
       | firstNormal :: others =>
           if factoryDecision inp funcBody firstNormal (firstNormal :: others) functionInfo
           then 0 else Z.of_nat (length others)
       end)%Z.
Proof.
  intros Hinfo. unfold processFunctionEntry. rewrite Hinfo. intros Hret.
  apply bind_returned in Hret as (functionInfo' & s1 & [= <- <-] & Hret & ->).
  apply bind_returned in Hret as (first & s1 & Hfirst & Hret & ->).
  assert (s1 = s) as -> by (destruct (head instances); by injection Hfirst as _ <-).
  apply bind_returned in Hret as (params & s1 & [Hparams ->]%defined_returned & Hret & ->).
  apply bind_returned in Hret as ([] & s1 & Hnested & Hret & ->).
  assert (functionClones s1 =
          (functionClones s
           + Z.of_nat (length (additionalFunctionNestedInstancesOf inp instances)))%Z)
    as Hclones1.
  { destruct (bool_decide (0 < length (additionalFunctionNestedInstancesOf inp instances)))
      eqn:Hlen.
    - rewrite <-(naiveProcessInstances_clones inp sv factoryFunctionInfos funcBody params).
      by rewrite Hnested.
    - injection Hnested as <-. apply bool_decide_eq_false in Hlen.
      destruct (additionalFunctionNestedInstancesOf inp instances); simpl in *; lia. }
  destruct (normalInstancesOf inp instances) as [|firstNormal others] eqn:Hnormal.
  - simpl. lia.
  - rewrite bool_decide_eq_true_2 in Hret |- * by (simpl; lia).
    rewrite (bind_state _ _ _ _ _
               (_shouldUseFactoryFunction_run inp funcBody firstNormal (firstNormal :: others)
                  functionInfo s1 eq_refl Hinfo)) in Hret |- *.
    destruct (factoryDecision inp funcBody firstNormal (firstNormal :: others) functionInfo);
      cbn [negb] in Hret |- *.
    + assert (keeps functionClones
                (factoryProcessInstances inp sv factoryFunctionInfos funcBody functionInfo
                   params (firstNormal :: others))) as Hkeeps
        by (unfold functionClones; frame).
      rewrite Hkeeps. lia.
    + apply bind_returned in Hret as ([] & s2 & Hnaive & _ & ->).
      pose proof (naiveProcessInstances_clones inp sv factoryFunctionInfos funcBody params
                    (firstNormal :: others) s1) as Hclones2.
      rewrite Hnaive in Hclones2. simpl in Hclones2.
      unfold modify, functionClones in *. simpl. lia.
Qed.

(** *** The rewritten bodies of the additional functions

    The loop of [spliceFunctions] that follows the splice of the statement
    groups: [for (let [additionalFunction, body] of
    Array.from(rewrittenAdditionalFunctions.entries()).reverse())].  The
    arrays [body] belong to the caller's map and are changed in place (the
    block statements built for the additional functions hold them by
    reference); the loop is modelled as a function that returns the map with
    the arrays as the loop leaves them. *)










(** *** What a pass that returns has checked *)





(** *** The clone of a plain function *)

Lemma run_returned {A} (m : M State A) s a :
  (m s).1 = Returned a → m s = (Returned a, (m s).2).
Proof. by destruct (m s) as [[a'|e] s1]; intros [= ->]. Qed.

(** The function and class nodes emitted so far, the strict ones and the
    others. *)
Definition emittedBodies (s : State) : list BabelNode * list BabelNode :=
  (strictFunctionBodies s, unstrictFunctionBodies s).

(** X21.  The clone of a plain function.  Let the function value of the
    instance be no class method and have the location [id], let the
    replacements of the block be [identifierReplacements] and
    [callReplacements], and let the instantiator return a function with the
    parameters [clonedParams] and the statements [statements].  Then the
    naive turn of the instance returns; the clone is that function with the
    initializations of the captured scopes of the instance, in their order,
    put in front of its statements; it is appended to the strict or to the
    other function bodies according to the strictness of the function value,
    recorded in [funcNodes], and declared as [var id = clone] at the end of
    the prelude of the instance, followed by the declaration of the
    prototype identifier when one was set. *)
Theorem naive_clone_of_plain_function (inp : Inputs) (sv : Services)
    (factoryFunctionInfos : list (Z * FactoryFunctionInfo)) (funcBody : BlockRef)
    (params : list BabelNode) (instance : FunctionInstance)
    (identifierReplacements callReplacements : list (NodeRef * BabelNode))
    (clonedParams statements : list BabelNode) (id : BabelNode) (s : State) :
  JSMap.get (residualClassMethodInstances inp) (instance_functionValue instance) = None →
  (_getIdentifierReplacements inp sv funcBody (residualFunctionBindings instance) s).1
    = Returned identifierReplacements →
  (_getCallReplacements inp funcBody s).1 = Returned callReplacements →
  instantiate sv factoryFunctionInfos identifierReplacements callReplacements
    (_createFunctionExpression params funcBody)
    = functionExpression clonedParams (blockStatement statements) →
  getLocation sv (instance_functionValue instance) = Some id →
  (naiveProcessInstance inp sv factoryFunctionInfos funcBody params instance s).1
    = Returned tt ∧
  emittedBodies (naiveProcessInstance inp sv factoryFunctionInfos funcBody params instance s).2
    = (if Strict inp (instance_functionValue instance)
       then (strictFunctionBodies s
             ++ [functionExpression clonedParams
                   (blockStatement
                      (scopeInitializationOf sv (λ entry, numericLiteral (scope_id entry.2))
                         (scopeInstances instance) ++ statements))],
             unstrictFunctionBodies s)
       else (strictFunctionBodies s,
             unstrictFunctionBodies s
             ++ [functionExpression clonedParams
                   (blockStatement
                      (scopeInitializationOf sv (λ entry, numericLiteral (scope_id entry.2))
                         (scopeInstances instance) ++ statements))])) ∧
  JSMap.get
    (funcNodes (naiveProcessInstance inp sv factoryFunctionInfos funcBody params instance s).2)
    (instance_functionValue instance)
    = Some (functionExpression clonedParams
              (blockStatement
                 (scopeInitializationOf sv (λ entry, numericLiteral (scope_id entry.2))
                    (scopeInstances instance) ++ statements))) ∧
  targetContents (getPrelude instance)
    (naiveProcessInstance inp sv factoryFunctionInfos funcBody params instance s).2
    = targetContents (getPrelude instance) s
      ++ variableDeclaration id
           (functionExpression clonedParams
              (blockStatement
                 (scopeInitializationOf sv (λ entry, numericLiteral (scope_id entry.2))
                    (scopeInstances instance) ++ statements)))
      :: prototypeDeclaration id (instance_functionValue instance) s.
Proof.
  intros Hplain Hir Hcr Hinst Hloc.
  set (clone := functionExpression clonedParams
                  (blockStatement
                     (scopeInitializationOf sv (λ entry, numericLiteral (scope_id entry.2))
                        (scopeInstances instance) ++ statements))).
  unfold naiveProcessInstance. rewrite Hplain.
  assert (keeps (λ s : State, s) (_getIdentifierReplacements inp sv funcBody
                                   (residualFunctionBindings instance))) as Kir by frame.
  apply run_returned in Hir. rewrite (Kir s) in Hir.
  apply run_returned in Hcr.
  set (s1 := (_getCallReplacements inp funcBody s).2) in *.
  assert (keeps (λ s, (strictFunctionBodies s, unstrictFunctionBodies s, funcNodes s,
                       functionPrototypes s, prelude s, additionalFunctionPreludes s,
                       functionBodies s))
            (_getCallReplacements inp funcBody)) as Kcr by frame.
  specialize (Kcr s). fold s1 in Kcr. simpl in Kcr.
  injection Kcr as Hs Hu Hnodes Hproto Hprelude Hpreludes Hbodies.
  assert (∀ target, targetContents target s1 = targetContents target s) as Htargets.
  { intros [| |]; simpl; congruence. }
  assert (naiveFunctionExpression inp sv factoryFunctionInfos funcBody params instance s
          = (Returned (Some clone), s1)) as Hnode.
  { unfold naiveFunctionExpression.
    rewrite (bind_state _ _ _ _ _ Hir), (bind_state _ _ _ _ _ Hcr), Hinst.
    destruct (bool_decide (0 < length (scopeInitializationOf sv
                 (λ entry, numericLiteral (scope_id entry.2)) (scopeInstances instance))))
      eqn:Hlen.
    - done.
    - apply bool_decide_eq_false in Hlen. subst clone.
      destruct (scopeInitializationOf _ _ _); [done|simpl in Hlen; lia]. }
  set (s2 := if Strict inp (instance_functionValue instance)
             then set_strictFunctionBodies (strictFunctionBodies s1 ++ [clone]) s1
             else set_unstrictFunctionBodies (unstrictFunctionBodies s1 ++ [clone]) s1).
  assert ((let* funcOrClassNode :=
             naiveFunctionExpression inp sv factoryFunctionInfos funcBody params instance in
           defineInstance inp sv instance funcOrClassNode) s =
          (Returned tt,
           afterDeclaration (getPrelude instance) id clone id
             (instance_functionValue instance)
             (set_funcNodes
                (JSMap.set (funcNodes (afterInitialization instance s2))
                   (instance_functionValue instance) clone)
                (afterInitialization instance s2)))) as Hrun.
  { rewrite (bind_state _ _ _ _ _ Hnode). unfold defineInstance. rewrite Hloc.
    cbn [defined]. unfold bind, ret, pushFunctionBody, modify. fold s2.
    by rewrite (defineFunction_run sv instance id clone id s2 Hloc). }
  rewrite Hrun. cbn [fst snd].
  assert (strictFunctionBodies s2 =
            (if Strict inp (instance_functionValue instance)
             then strictFunctionBodies s ++ [clone] else strictFunctionBodies s) ∧
          unstrictFunctionBodies s2 =
            (if Strict inp (instance_functionValue instance)
             then unstrictFunctionBodies s else unstrictFunctionBodies s ++ [clone]) ∧
          functionPrototypes s2 = functionPrototypes s ∧
          ∀ target, targetContents target s2 = targetContents target s)
    as (Hs2 & Hu2 & Hp2 & Ht2).
  { subst s2. destruct (Strict inp (instance_functionValue instance)); cbn;
      split_and!; try congruence; intros target; rewrite <-Htargets; by destruct target. }
  clearbody s2. split_and!; [done|..].
  - unfold emittedBodies.
    rewrite !(afterDeclaration_keeps strictFunctionBodies),
      !(afterDeclaration_keeps unstrictFunctionBodies) by done.
    cbn [strictFunctionBodies unstrictFunctionBodies set_funcNodes].
    rewrite !(afterInitialization_keeps strictFunctionBodies),
      !(afterInitialization_keeps unstrictFunctionBodies) by done.
    rewrite Hs2, Hu2. by destruct (Strict inp (instance_functionValue instance)).
  - rewrite (afterDeclaration_keeps funcNodes) by done. apply JSMap.get_set_eq.
  - rewrite afterDeclaration_contents, decide_True by done.
    assert (getPrelude instance ≠ getFunctionBody instance) as Hne.
    { unfold getPrelude, getFunctionBody. by destruct (containingAdditionalFunction instance). }
    unfold prototypeDeclaration at 1. cbn [functionPrototypes set_funcNodes].
    rewrite (afterInitialization_keeps functionPrototypes) by done.
    assert (∀ v (s0 : State), targetContents (getPrelude instance) (set_funcNodes v s0)
                              = targetContents (getPrelude instance) s0) as Hset
      by (intros; by destruct (getPrelude instance)).
    rewrite Hset, afterInitialization_contents, decide_False by done.
    unfold prototypeDeclaration. by rewrite Ht2, Hp2.
Qed.

(** *** The definition of an additional function *)

(** X22.  The definition of an additional function that is no class method.
    Let the function have the formal parameters [params], the rewritten body
    [body] and the location [id], and let the instance recorded for it be an
    instance of the function.  Its turn then returns; the function expression
    [function (params) { body }] is appended to the strict or to the other
    function bodies, according to the strictness of the function, recorded in
    [funcNodes], and declared as [var id = ...] at the end of the prelude of
    the instance, followed by the declaration of the prototype identifier
    when one was set.  Without formal parameters, or without a rewritten
    body, the turn throws and changes nothing. *)
Theorem additional_function_definition (inp : Inputs) (sv : Services)
    (rewritten : list (FunctionValue * list BabelNode)) (funcValue : FunctionValue)
    (info : AdditionalFunctionInfo) (params body : list BabelNode) (id : BabelNode)
    (s : State) :
  JSMap.get (residualClassMethodInstances inp) funcValue = None →
  getLocation sv funcValue = Some id →
  instance_functionValue (additional_instance info) = funcValue →
  (FormalParameters inp funcValue = Some params →
   JSMap.get rewritten funcValue = Some body →
   (processAdditionalFunction inp sv rewritten (funcValue, info) s).1 = Returned tt ∧
   emittedBodies (processAdditionalFunction inp sv rewritten (funcValue, info) s).2
     = (if Strict inp funcValue
        then (strictFunctionBodies s ++ [functionExpression params (blockStatement body)],
              unstrictFunctionBodies s)
        else (strictFunctionBodies s,
              unstrictFunctionBodies s ++ [functionExpression params (blockStatement body)])) ∧
   JSMap.get (funcNodes (processAdditionalFunction inp sv rewritten (funcValue, info) s).2)
     funcValue = Some (functionExpression params (blockStatement body)) ∧
   targetContents (getPrelude (additional_instance info))
     (processAdditionalFunction inp sv rewritten (funcValue, info) s).2
     = targetContents (getPrelude (additional_instance info)) s
       ++ variableDeclaration id (functionExpression params (blockStatement body))
       :: prototypeDeclaration id funcValue s) ∧
  (FormalParameters inp funcValue = None ∨ JSMap.get rewritten funcValue = None →
   processAdditionalFunction inp sv rewritten (funcValue, info) s
     = (Threw InvariantViolation, s)).
Proof.
  intros Hplain Hloc Hinstance. split.
  - intros Hparams Hbody.
    set (node := functionExpression params (blockStatement body)).
    set (instance := additional_instance info) in *.
    set (s2 := if Strict inp funcValue
               then set_strictFunctionBodies (strictFunctionBodies s ++ [node]) s
               else set_unstrictFunctionBodies (unstrictFunctionBodies s ++ [node]) s).
    assert (processAdditionalFunction inp sv rewritten (funcValue, info) s =
            (Returned tt,
             afterDeclaration (getPrelude instance) id node id funcValue
               (set_funcNodes
                  (JSMap.set (funcNodes (afterInitialization instance s2)) funcValue node)
                  (afterInitialization instance s2)))) as Hrun.
    { unfold processAdditionalFunction. rewrite Hparams, Hbody, Hplain, Hloc.
      cbn [defined]. unfold bind, ret, pushFunctionBody, modify. fold s2. fold instance.
      rewrite <-Hinstance in Hloc.
      rewrite (defineFunction_run sv instance id _ id s2 Hloc).
      fold instance. by rewrite Hinstance. }
    rewrite Hrun. cbn [fst snd].
    assert (strictFunctionBodies s2 =
              (if Strict inp funcValue
               then strictFunctionBodies s ++ [node] else strictFunctionBodies s) ∧
            unstrictFunctionBodies s2 =
              (if Strict inp funcValue
               then unstrictFunctionBodies s else unstrictFunctionBodies s ++ [node]) ∧
            functionPrototypes s2 = functionPrototypes s ∧
            ∀ target, targetContents target s2 = targetContents target s)
      as (Hs2 & Hu2 & Hp2 & Ht2).
    { subst s2. destruct (Strict inp funcValue); cbn;
        split_and!; try done; intros target; by destruct target. }
    clearbody s2. split_and!; [done|..].
    + unfold emittedBodies.
      rewrite !(afterDeclaration_keeps strictFunctionBodies),
        !(afterDeclaration_keeps unstrictFunctionBodies) by done.
      cbn [strictFunctionBodies unstrictFunctionBodies set_funcNodes].
      rewrite !(afterInitialization_keeps strictFunctionBodies),
        !(afterInitialization_keeps unstrictFunctionBodies) by done.
      rewrite Hs2, Hu2. by destruct (Strict inp funcValue).
    + rewrite (afterDeclaration_keeps funcNodes) by done. apply JSMap.get_set_eq.
    + rewrite afterDeclaration_contents, decide_True by done.
      assert (getPrelude instance ≠ getFunctionBody instance) as Hne.
      { unfold getPrelude, getFunctionBody.
        by destruct (containingAdditionalFunction instance). }
      unfold prototypeDeclaration at 1. cbn [functionPrototypes set_funcNodes].
      rewrite (afterInitialization_keeps functionPrototypes) by done.
      assert (∀ v (s0 : State), targetContents (getPrelude instance) (set_funcNodes v s0)
                                = targetContents (getPrelude instance) s0) as Hset
        by (intros; by destruct (getPrelude instance)).
      rewrite Hset, afterInitialization_contents, decide_False by done.
      unfold prototypeDeclaration. by rewrite Ht2, Hp2.
  - unfold processAdditionalFunction. unfold bind at 1.
    destruct (FormalParameters inp funcValue) as [params'|]; [|done].
    cbn [defined ret]. unfold bind at 1. intros [?|Hnone]; [done|]. by rewrite Hnone.
Qed.

(** *** The declaration of a factory *)

(** A computation that only appends to the global prelude and to the two
    arrays of emitted function bodies. *)
Definition appendsOnly {A} (m : M State A) : Prop :=
  ∀ s, prelude s `prefix_of` prelude (m s).2 ∧
       strictFunctionBodies s `prefix_of` strictFunctionBodies (m s).2 ∧
       unstrictFunctionBodies s `prefix_of` unstrictFunctionBodies (m s).2.

Lemma appendsOnly_keeps {A} (m : M State A) :
  keeps (λ s, (prelude s, strictFunctionBodies s, unstrictFunctionBodies s)) m →
  appendsOnly m.
Proof. intros Hm s. specialize (Hm s). simpl in Hm. by injection Hm as -> -> ->. Qed.

Lemma appendsOnly_bind {A B} (m : M State A) (k : A → M State B) :
  appendsOnly m → (∀ a, appendsOnly (k a)) → appendsOnly (bind m k).
Proof.
  intros Hm Hk s. unfold bind. specialize (Hm s).
  destruct (m s) as [[a|e] s1]; simpl in *; [|done].
  destruct Hm as (H1 & H2 & H3), (Hk a s1) as (H1' & H2' & H3').
  split_and!; by etrans.
Qed.

Lemma appendsOnly_forEach {A} (l : list A) (body : A → M State unit) :
  (∀ x, appendsOnly (body x)) → appendsOnly (forEach l body).
Proof.
  intros Hbody. induction l as [|x l IH]; simpl; [done|].
  apply appendsOnly_bind; [done|]. by intros _.
Qed.

Lemma appendsOnly_pushTarget target items : appendsOnly (pushTarget target items).
Proof.
  destruct target; [|apply appendsOnly_keeps; simpl; frame..].
  intros s. simpl. split_and!; [by apply prefix_app_r|done..].
Qed.

Lemma appendsOnly_pushFunctionBody strict node : appendsOnly (pushFunctionBody strict node).
Proof.
  intros s. unfold pushFunctionBody, modify.
  destruct strict; simpl; split_and!; try done; by apply prefix_app_r.
Qed.

Lemma appendsOnly_defineFunction sv instance funcId node :
  appendsOnly (defineFunction sv instance funcId node).
Proof.
  unfold defineFunction.
  apply appendsOnly_bind.
  { destruct (bool_decide _); [apply appendsOnly_pushTarget|apply appendsOnly_keeps; frame]. }
  intros _. apply appendsOnly_bind.
  { apply appendsOnly_keeps. frame. }
  intros target. apply appendsOnly_bind; [apply appendsOnly_pushTarget|intros _].
  apply appendsOnly_bind; [apply appendsOnly_keeps; frame|intros [prototypeId|]].
  - apply appendsOnly_bind; [apply appendsOnly_keeps; frame|intros id].
    apply appendsOnly_pushTarget.
  - apply appendsOnly_keeps. frame.
Qed.

Lemma appendsOnly_processFactoryInstance inp sv factoryIdentifier factoryNames params usesThis
    instance :
  appendsOnly
    (processFactoryInstance inp sv factoryIdentifier factoryNames params usesThis instance).
Proof.
  unfold processFactoryInstance.
  apply appendsOnly_bind; [apply appendsOnly_keeps; frame|intros functionId].
  apply appendsOnly_bind; [|intros funcNode; apply appendsOnly_defineFunction].
  unfold factoryInstanceStub.
  apply appendsOnly_bind; [apply appendsOnly_keeps; frame|intros [namedArgs hasFunctionArg]].
  apply appendsOnly_bind; [apply appendsOnly_keeps; frame|intros insertionPoint].
  apply appendsOnly_bind; [apply appendsOnly_keeps; frame|intros [|]].
  - apply appendsOnly_bind; [apply appendsOnly_keeps; frame|intros forwarded].
    apply appendsOnly_bind; [apply appendsOnly_pushFunctionBody|intros _].
    apply appendsOnly_keeps. frame.
  - apply appendsOnly_keeps. frame.
Qed.

(** The parameters of the factory of a block: the free names that vary
    among the instances, the names of the captured scopes of the first
    instance, and the formal parameters of the block. *)
Definition factoryParameters (sv : Services) (functionInfo : FunctionInfo)
    (params : list BabelNode) (first : FunctionInstance) (rest : list FunctionInstance)
    : list BabelNode :=
  map identifier
    (List.filter (bindingVaries sv first rest) (JSMap.keys (unbound functionInfo)))
  ++ map (λ entry : string * ScopeBinding, identifier entry.1) (scopeInstances first)
  ++ params.

(** A function expression with the initializations of the captured scopes
    of the first instance put in front of its statements; the scopes are
    reached through the factory parameters that carry their names. *)
Definition withScopeInitialization (sv : Services) (first : FunctionInstance)
    (node : BabelNode) : M State BabelNode :=
  if bool_decide (0 < length (scopeInitializationOf sv
                                (λ entry : string * ScopeBinding, identifier entry.1)
                                (scopeInstances first)))
  then prependStatements
         (scopeInitializationOf sv (λ entry : string * ScopeBinding, identifier entry.1)
            (scopeInstances first)) node
  else ret node.

(** X23.  The declaration of a factory.  Let the free names of the block be
    distinct.  When the factory path of a block returns, the factory function
    was made by the instantiator from a function expression over the body of
    the block whose parameters are the varying free names, then the names of
    the captured scopes of the first instance, then the formal parameters of
    the block; the factory is declared under the identifier recorded for the
    block in the factory function infos, in the global prelude, right after
    what the prelude held and before anything that the turn adds to the
    prelude later; and it is among the emitted function bodies of the
    strictness of the first instance. *)
Theorem factory_declaration (inp : Inputs) (sv : Services)
    (factoryFunctionInfos : list (Z * FactoryFunctionInfo)) (funcBody : BlockRef)
    (functionInfo : FunctionInfo) (params : list BabelNode)
    (first : FunctionInstance) (rest : list FunctionInstance) (s s' : State) :
  factoryProcessInstances inp sv factoryFunctionInfos funcBody functionInfo params
    (first :: rest) s = (Returned tt, s') →
  NoDup (JSMap.keys (unbound functionInfo)) →
  ∃ factoryInfo factoryIdentifier identifierReplacements callReplacements factoryNode later,
    JSMap.get factoryFunctionInfos (tagOf inp funcBody) = Some factoryInfo ∧
    factoryId factoryInfo = Some factoryIdentifier ∧
    (withScopeInitialization sv first
       (instantiate sv factoryFunctionInfos identifierReplacements callReplacements
          (_createFunctionExpression (factoryParameters sv functionInfo params first rest)
             funcBody)) s).1 = Returned factoryNode ∧
    prelude s' = prelude s ++ variableDeclaration factoryIdentifier factoryNode :: later ∧
    factoryNode ∈ (if Strict inp (instance_functionValue first)
                   then strictFunctionBodies s' else unstrictFunctionBodies s').
Proof.
  unfold factoryProcessInstances. intros Hrun Hnd.
  pose proof (f_equal fst Hrun) as Hret. cbn [fst] in Hret.
  apply bind_returned in Hret as ([] & s1 & Htag & Hret & Hst1).
  assert (s1 = s) as ->.
  { destruct (truthy (uniqueOrderedTag inp funcBody)); [by injection Htag as <-|done]. }
  apply bind_returned in Hret as (factoryInfo & s1 & [Hinfo ->]%defined_returned & Hret & Hst2).
  apply bind_returned in Hret as (first' & s1 & [= <- <-] & Hret & Hst3).
  apply bind_returned in Hret as ([factoryNames same] & s1 & Hpartition & Hret & Hst4).
  destruct (partitionBindings_loop _ _ _ _ _ _ _ _ _ _ Hpartition Hnd) as (-> & Hnames & _).
  simpl in Hnames. subst factoryNames.
  apply bind_returned in Hret as (ir & s1 & Hir & Hret & Hst5).
  assert (keeps (λ s : State, s) (_getIdentifierReplacements inp sv funcBody same)) as Kir
    by frame.
  apply (keeps_run _ _ _ _ _ Kir) in Hir as Hs1. subst s1.
  apply bind_returned in Hret as (cr & s1 & Hcr & Hret & Hst6).
  assert (keeps (λ s, (prelude s, strictFunctionBodies s, unstrictFunctionBodies s))
            (_getCallReplacements inp funcBody)) as Kcr by frame.
  apply (keeps_run _ _ _ _ _ Kcr) in Hcr as Hs1. injection Hs1 as Hp1 Hs1 Hu1.
  apply bind_returned in Hret as (factoryNode & s2 & Hnode & Hret & Hst7).
  assert (s2 = s1 ∧ (withScopeInitialization sv first
            (instantiate sv factoryFunctionInfos ir cr
               (_createFunctionExpression (factoryParameters sv functionInfo params first rest)
                  funcBody)) s).1 = Returned factoryNode) as [-> Hwith].
  { unfold withScopeInitialization, factoryParameters.
    destruct (bool_decide _).
    - unfold prependStatements in *.
      destruct (instantiate sv factoryFunctionInfos ir cr _)
        as [| | | | | | | |ps []| | | | | | | | | | | | | |];
        try done. by injection Hnode as <- <-.
    - by injection Hnode as <- <-. }
  apply bind_returned in Hret as (factoryIdentifier & s2 & Hid & Hret & Hst8).
  assert (s2 = s1 ∧ factoryId factoryInfo = Some factoryIdentifier) as [-> HfactoryId].
  { destruct (factoryId factoryInfo); [by injection Hid as <- <-|done]. }
  apply bind_returned in Hret as ([] & s2 & Hdeclare & Hret & Hst9).
  injection Hdeclare as <-.
  apply bind_returned in Hret as ([] & s3 & Hpush & Hret & Hst10).
  injection Hpush as <-.
  pose proof (f_equal snd Hrun) as Hs'. cbn [snd] in Hs'.
  rewrite Hst1, Hst2, Hst3, Hst4, Hst5, Hst6, Hst7, Hst8, Hst9, Hst10 in Hs'.
  match type of Hs' with (forEach ?l ?body ?s0).2 = _ =>
    destruct (appendsOnly_forEach l body
                (appendsOnly_processFactoryInstance inp sv factoryIdentifier _ params _) s0)
      as ([later Hlater] & [laterStrict Hstrict] & [laterUnstrict Hunstrict]) end.
  rewrite Hs' in Hlater, Hstrict, Hunstrict. clear Hs' Hret.
  exists factoryInfo, factoryIdentifier, ir, cr, factoryNode, later.
  split_and!; [done..| |].
  - rewrite Hlater. destruct (Strict inp (instance_functionValue first)); cbn;
      by rewrite Hp1, <-app_assoc.
  - destruct (Strict inp (instance_functionValue first)).
    + rewrite Hstrict. cbn. set_solver.
    + rewrite Hunstrict. cbn. set_solver.
Qed.

(** *** The modified bindings of the additional functions *)

(** The scopes of the modified bindings of an additional function, each
    once, in the order in which the bindings first name them. *)
Definition modifiedScopes (info : AdditionalFunctionInfo) : list ScopeBinding :=
  JSMap.first_occurrences [] (omap (λ entry, scope entry.2) (modifiedBindings info)).

(** The statements that give an additional function access to a scope that
    it does not own. *)
Definition scopeAccess (sv : Services) (funcValue : FunctionValue) (sc : ScopeBinding)
    : list BabelNode :=
  if bool_decide (referentializationScope sc ≠ scopeOfFunction funcValue)
  then getReferentializedScopeInitialization sv sc (numericLiteral (scope_id sc))
  else [].

(** One turn of the inner loop of "Emit code for ModifiedBindings". *)
Definition modifiedBindingStep (sv : Services) (funcValue : FunctionValue)
    (scopes : list ScopeBinding) (entry : nat * ResidualFunctionBinding)
    : M State (list ScopeBinding) :=
  let '(_, residualBinding) := entry in
  match scope residualBinding with
  | None => ret scopes
  | Some sc =>
      if bool_decide (sc ∈ scopes) then ret scopes
      else
        do invariant (referentialized residualBinding) then
        do pushTo additionalFunctionModifiedBindingsSegment
             set_additionalFunctionModifiedBindingsSegment funcValue
             (if bool_decide (referentializationScope sc ≠ scopeOfFunction funcValue)
              then getReferentializedScopeInitialization sv sc
                     (numericLiteral (scope_id sc))
              else []) then
        ret (sc :: scopes)
  end.

Lemma emitModifiedBindings_unfold inp sv s :
  emitModifiedBindings inp sv s =
    forEach (additionalFunctionValueInfos inp) (λ '(funcValue, funcInfo),
      let* _ := foldM (modifiedBindingStep sv funcValue) [] (modifiedBindings funcInfo) in
      ret tt) s.
Proof. reflexivity. Qed.

(** The segment of an additional function, as far as the state holds one. *)
Definition segmentOf (funcValue : FunctionValue) (s : State) : list BabelNode :=
  default [] (JSMap.get (additionalFunctionModifiedBindingsSegment s) funcValue).

Definition set_segment := set_additionalFunctionModifiedBindingsSegment.

Lemma pushTo_segment funcValue items s :
  ∃ m, pushTo additionalFunctionModifiedBindingsSegment
         set_additionalFunctionModifiedBindingsSegment funcValue items s
       = (Returned tt, set_additionalFunctionModifiedBindingsSegment m s) ∧
       ∀ funcValue',
         default [] (JSMap.get m funcValue') =
           if decide (funcValue = funcValue') then segmentOf funcValue s ++ items
           else segmentOf funcValue' s.
Proof.
  unfold pushTo, getOrDefault, segmentOf.
  destruct (JSMap.get (additionalFunctionModifiedBindingsSegment s) funcValue)
    as [array|] eqn:Hget; cbn [fst snd].
  - eexists. split; [reflexivity|]. intros f'. destruct (decide (funcValue = f')) as [<-|Hne].
    + by rewrite JSMap.get_set_eq.
    + by rewrite JSMap.get_set_ne.
  - eexists. split; [reflexivity|]. intros f'. cbn.
    destruct (decide (funcValue = f')) as [<-|Hne].
    + by rewrite JSMap.get_set_eq.
    + by rewrite !JSMap.get_set_ne.
Qed.

Lemma modifiedBindings_loop sv funcValue bindings scopes s :
  Forall (λ entry : nat * ResidualFunctionBinding,
            is_Some (scope entry.2) → referentialized entry.2 = true) bindings →
  ∃ m scopes',
    foldM (modifiedBindingStep sv funcValue) scopes bindings s
      = (Returned scopes', set_additionalFunctionModifiedBindingsSegment m s) ∧
    ∀ funcValue',
      default [] (JSMap.get m funcValue') =
        if decide (funcValue = funcValue')
        then segmentOf funcValue s
             ++ concat (map (scopeAccess sv funcValue)
                          (JSMap.first_occurrences scopes
                             (omap (λ entry, scope entry.2) bindings)))
        else segmentOf funcValue' s.
Proof.
  intros Hall. revert scopes s.
  induction Hall as [|[k binding] bindings Href _ IH]; intros scopes s.
  - exists (additionalFunctionModifiedBindingsSegment s), scopes. split.
    + simpl. by destruct s.
    + intros f'. simpl. rewrite app_nil_r.
      by destruct (decide (funcValue = f')) as [<-|].
  - cbn [foldM]. unfold modifiedBindingStep at 1. simpl in Href.
    change (omap (λ entry : nat * ResidualFunctionBinding, scope entry.2)
              ((k, binding) :: bindings))
      with (match scope binding with
            | Some sc => sc :: omap (λ entry : nat * ResidualFunctionBinding, scope entry.2)
                                 bindings
            | None => omap (λ entry : nat * ResidualFunctionBinding, scope entry.2) bindings
            end).
    destruct (scope binding) as [sc|] eqn:Hscope.
    + cbn [JSMap.first_occurrences]. destruct (decide (sc ∈ scopes)) as [Hin|Hnin].
      * rewrite bool_decide_eq_true_2 by done. unfold bind at 1. cbn [ret]. apply IH.
      * rewrite bool_decide_eq_false_2 by done. rewrite Href by eauto.
        cbn [invariant]. unfold bind at 1. unfold bind at 1. cbn [ret]. unfold bind at 1.
        fold (scopeAccess sv funcValue sc).
        destruct (pushTo_segment funcValue (scopeAccess sv funcValue sc) s)
          as (m1 & -> & Hm1). cbn [ret].
        destruct (IH (sc :: scopes) (set_additionalFunctionModifiedBindingsSegment m1 s))
          as (m & scopes' & Hrun & Hm).
        exists m, scopes'. split; [rewrite Hrun; by destruct s|].
        intros f'. rewrite Hm. unfold segmentOf at 1 3. cbn. rewrite !Hm1.
        destruct (decide (funcValue = f')) as [_|_]; [|done].
        rewrite decide_True by done. by rewrite <-app_assoc.
    + unfold bind at 1. cbn [ret]. apply IH.
Qed.

(** X24.  The segments of the modified bindings.  Let the additional
    functions be distinct keys, and let every modified binding that has a
    scope be referentialized.  Then the loop returns and changes only the
    segments: to the segment of an additional function it appends, for each
    scope of its modified bindings, once, in the order in which the bindings
    first name the scopes, the initialization of the scope when the scope
    does not belong to the function itself, and nothing when it does. *)
Theorem modified_bindings_segments (inp : Inputs) (sv : Services) (s : State) :
  NoDup (JSMap.keys (additionalFunctionValueInfos inp)) →
  Forall (λ entry : FunctionValue * AdditionalFunctionInfo,
    Forall (λ binding : nat * ResidualFunctionBinding,
              is_Some (scope binding.2) → referentialized binding.2 = true)
      (modifiedBindings entry.2)) (additionalFunctionValueInfos inp) →
  ∃ m,
    emitModifiedBindings inp sv s
      = (Returned tt, set_additionalFunctionModifiedBindingsSegment m s) ∧
    ∀ funcValue,
      default [] (JSMap.get m funcValue) =
        segmentOf funcValue s
        ++ match JSMap.get (additionalFunctionValueInfos inp) funcValue with
           | Some info => concat (map (scopeAccess sv funcValue) (modifiedScopes info))
           | None => []
           end.
Proof.
  rewrite emitModifiedBindings_unfold. generalize (additionalFunctionValueInfos inp) as infos.
  intros infos Hnd Hall. revert s Hnd.
  induction Hall as [|[f info] infos Href _ IH]; intros s Hnd.
  - exists (additionalFunctionModifiedBindingsSegment s). split; [by destruct s|].
    intros f. simpl. by rewrite app_nil_r.
  - unfold JSMap.keys in Hnd. rewrite fmap_cons in Hnd.
    apply NoDup_cons in Hnd as [Hnin Hnd]. simpl in Href.
    cbn [forEach]. unfold bind at 1. unfold bind at 1.
    destruct (modifiedBindings_loop sv f (modifiedBindings info) [] s Href)
      as (m1 & scopes' & -> & Hm1).
    cbn [ret].
    destruct (IH (set_additionalFunctionModifiedBindingsSegment m1 s) Hnd)
      as (m & Hrun & Hm).
    exists m. split; [rewrite Hrun; by destruct s|].
    intros f'. rewrite Hm. unfold segmentOf at 1. cbn. rewrite Hm1.
    destruct (decide (f' = f)) as [->|Hne].
    + rewrite decide_True by done.
      assert (JSMap.get infos f = None) as -> by (by apply JSMap.get_None_keys).
      by rewrite app_nil_r.
    + rewrite decide_False by done. done.
Qed.

(** *** The properties above, on concrete inputs *)

(** The main body, empty, as the state of [examplePass] has it. *)
Definition exampleMain : gmap BodyRef SerializedBody :=
  {[ 0 := mkSerializedBody "MainGenerator" None [] false ]}.

(** The state in which the constructor leaves the class. *)
Definition exampleConstructed (inp : Inputs) : State :=
  (constructor inp (initialState [] exampleMain)).2.

(** The factory function infos of the example inputs. *)
Definition exampleInfos (inp : Inputs) : list (Z * FactoryFunctionInfo) :=
  match (_generateFactoryFunctionInfos inp exampleServices [] (exampleConstructed inp)).1 with
  | Returned infos => infos
  | Threw _ => []
  end.

(** A block with two [require] calls; the module 7 has been resolved, the
    module 8 has not. *)
Definition exampleRequireInfo : FunctionInfo :=
  mkFunctionInfo [] [] false false
    [(mkRequireCall 300 "require", "7"); (mkRequireCall 301 "require", "8")].

Definition exampleRequires : Inputs :=
  mkInputs (λ _, Some 1) (λ _, Some []) (λ _, false) (λ _, false) (λ _, None) false
    (λ _, None) (λ _, None) (λ block, Some (Z.of_nat block))
    [("7", identifier "_m7")] [(1, exampleRequireInfo)] [] [] [] [].

Lemma call_replacements_witness :
  _getCallReplacements exampleRequires 1 (initialState [] ∅) =
    (Returned [(300, identifier "_m7")], add_requireCalls 2 1 (initialState [] ∅)).
Proof.
  apply (call_replacements exampleRequires 1 exampleRequireInfo (initialState [] ∅)).
  - reflexivity.
  - apply (bool_decide_unpack _). vm_compute. exact I.
Defined.

(** A block with two free names: [x], bound to a value of the heap, and
    [g], which refers to something global. *)
Definition exampleNames : list (string * list NodeRef) := [("x", [100; 101]); ("g", [102])].

Definition exampleBindings : list (string * ResidualFunctionBinding) :=
  [("x", mkResidualFunctionBinding 1 (Some (otherValue 1)) false (Some 0)
           (Some (numericLiteral 1)) false None);
   ("g", mkResidualFunctionBinding 2 None false None None false None)].

Definition exampleTwoNames : Inputs :=
  mkInputs (λ _, Some 1) (λ _, Some []) (λ _, false) (λ _, false) (λ _, None) false
    (λ _, None) (λ _, None) (λ block, Some (Z.of_nat block))
    [] [(1, mkFunctionInfo exampleNames [] false false [])] [] [] [] [].

Lemma identifier_replacements_witness :
  ∃ res,
    _getIdentifierReplacements exampleTwoNames exampleServices 1 exampleBindings
      (initialState [] ∅) = (Returned res, initialState [] ∅) ∧
    ∀ node replacement,
      JSMap.get res node = Some replacement ↔
      replacedReference exampleServices exampleBindings exampleNames node replacement.
Proof.
  destruct (identifier_replacements exampleTwoNames exampleServices 1
              (mkFunctionInfo exampleNames [] false false []) exampleBindings
              (initialState [] ∅)) as [Hreturns _].
  - reflexivity.
  - intros name1 nodes1 name2 nodes2 node. cbn. unfold exampleNames.
    rewrite !elem_of_cons, !elem_of_nil. intros [?|[?|[]]] [?|[?|[]]]; simplify_eq;
      rewrite ?elem_of_cons, ?elem_of_nil; naive_solver.
  - apply Hreturns. repeat constructor; simpl.
    + intros binding [= <-]. eauto.
    + intros binding. vm_compute. discriminate.
Defined.

Lemma factory_infos_cover_blocks_witness :
  ∃ infos s',
    _generateFactoryFunctionInfos exampleFactory exampleServices []
      (exampleConstructed exampleFactory) = (Returned infos, s') ∧
    s' = set_factoryNameCounter
           (factoryNameCounter (exampleConstructed exampleFactory)
            + factoryCount exampleFactory (functions (exampleConstructed exampleFactory)))
           (exampleConstructed exampleFactory) ∧
    (∀ k funcBody instances,
       functions (exampleConstructed exampleFactory) !! k = Some (funcBody, instances) →
       ∃ first functionInfo,
         head instances = Some first ∧
         JSMap.get (residualFunctionInfos exampleFactory) funcBody = Some functionInfo ∧
         truthy (uniqueOrderedTag exampleFactory funcBody) = true ∧
         (factoryDecision exampleFactory funcBody first instances functionInfo = true →
          _hasRewrittenFunctionInstance [] instances = false) ∧
         JSMap.get infos (tagOf exampleFactory funcBody) =
           Some (factoryInfoOf exampleFactory exampleServices
                   (factoryNameCounter (exampleConstructed exampleFactory)
                    + factoryCount exampleFactory
                        (take k (functions (exampleConstructed exampleFactory))))
                   funcBody first instances functionInfo)).
Proof.
  exists (exampleInfos exampleFactory),
    (_generateFactoryFunctionInfos exampleFactory exampleServices []
       (exampleConstructed exampleFactory)).2.
  split; [vm_compute; reflexivity|].
  apply (factory_infos_cover_blocks exampleFactory exampleServices []).
  - vm_compute. reflexivity.
  - apply (bool_decide_unpack _). vm_compute. exact I.
Defined.



(** The collaborators of the examples, with the global scope and the scope
    of the function value 5 in the referentialization state. *)
Definition exampleScopedServices : Services :=
  mkServices
    (getLocation exampleServices)
    (getReferentializedScopeInitialization exampleServices)
    [GLOBAL; scopeOfFunction 5]
    (λ _, sourceStatement 0)
    (λ _, sourceStatement 1)
    (hasInitializerStatement exampleServices)
    (getReplacement exampleServices)
    (instantiate exampleServices)
    (generate exampleServices)
    (AreSameResidualBinding exampleServices)
    (isNotEarlierThan exampleServices).

Lemma captured_scope_preludes_first_witness :
  ∃ s',
    emitCapturedScopesPreludes exampleScopedServices (initialState [sourceStatement 7] ∅)
      = (Returned tt, s') ∧
    ∀ target, targetContents target s' =
      capturedScopePrelude exampleScopedServices
        (referentializationState_keys exampleScopedServices) target
      ++ targetContents target (initialState [sourceStatement 7] ∅).
Proof.
  apply (captured_scope_preludes_first exampleScopedServices
           (initialState [sourceStatement 7] ∅)).
  apply (bool_decide_unpack _). vm_compute. exact I.
Defined.

Lemma factory_parameters_vary_witness :
  partitionBindings exampleServices ["x"] (exampleFunctionInstance 1 [])
    [exampleFunctionInstance 1 []; exampleFunctionInstance 2 []] (initialState [] ∅)
    = (Returned (["x"], []), initialState [] ∅) ∧
  ["x"] = List.filter
            (bindingVaries exampleServices (exampleFunctionInstance 1 [])
               [exampleFunctionInstance 2 []]) ["x"] ∧
  ∀ name, JSMap.get ([] : list (string * ResidualFunctionBinding)) name =
    if decide (name ∈ ["x"])
    then if bindingVaries exampleServices (exampleFunctionInstance 1 [])
              [exampleFunctionInstance 2 []] name then None
         else JSMap.get (residualFunctionBindings (exampleFunctionInstance 1 [])) name
    else None.
Proof.
  destruct (factory_parameters_vary exampleServices ["x"] (exampleFunctionInstance 1 [])
              [exampleFunctionInstance 2 []] (initialState [] ∅) (initialState [] ∅) ["x"] [])
    as (_ & Hnames & Hsame).
  - reflexivity.
  - apply (bool_decide_unpack _). vm_compute. exact I.
  - split_and!; [reflexivity|exact Hnames|exact Hsame].
Defined.

Definition exampleMixedInstances : list FunctionInstance :=
  [exampleFunctionInstance 1 []; exampleFunctionInstance 2 [("__scope_0", exampleScope)]].

Lemma clone_statistic_of_block_witness :
  functionClones
    (processFunctionEntry exampleMixedCapture exampleServices (exampleInfos exampleMixedCapture)
       (1, exampleMixedInstances) (exampleConstructed exampleMixedCapture)).2
  = (functionClones (exampleConstructed exampleMixedCapture)
     + Z.of_nat (length (additionalFunctionNestedInstancesOf exampleMixedCapture
                           exampleMixedInstances))
     + match normalInstancesOf exampleMixedCapture exampleMixedInstances with
       | [] => 0
       | firstNormal :: others =>
           if factoryDecision exampleMixedCapture 1%nat firstNormal (firstNormal :: others)
                exampleFunctionInfo
           then 0 else Z.of_nat (length others)
       end)%Z.
Proof.
  apply (clone_statistic_of_block exampleMixedCapture exampleServices
           (exampleInfos exampleMixedCapture) 1 exampleMixedInstances
           exampleFunctionInfo (exampleConstructed exampleMixedCapture)).
  - reflexivity.
  - reflexivity.
Defined.

(** An additional function, the function value 5, whose modified bindings
    name the global scope twice and close with a binding without scope. *)
Definition exampleModifiedBinding (ref : nat) (sc : option ScopeBinding)
    : ResidualFunctionBinding :=
  mkResidualFunctionBinding ref (Some (otherValue ref)) true (Some 0)
    (Some (numericLiteral 0)) true sc.

Definition exampleAdditionalInfo : AdditionalFunctionInfo :=
  mkAdditionalFunctionInfo (exampleFunctionInstance 5 [])
    [(0, exampleModifiedBinding 0 (Some exampleScope));
     (1, exampleModifiedBinding 1 (Some exampleScope));
     (2, exampleModifiedBinding 2 None)].

Definition exampleAdditional : Inputs :=
  mkInputs (λ _, Some 1) (λ _, Some [identifier "a"]) (λ _, false) (λ _, false) (λ _, None)
    false (λ _, Some 10%Z) (λ _, Some 50%Z) (λ block, Some (Z.of_nat block)) []
    [(1, exampleFunctionInfo)] [(5, exampleFunctionInstance 5 [])] []
    [(5, exampleAdditionalInfo)] [].



Lemma modified_bindings_segments_witness :
  ∃ m,
    emitModifiedBindings exampleAdditional exampleServices (initialState [] ∅)
      = (Returned tt, set_additionalFunctionModifiedBindingsSegment m (initialState [] ∅)) ∧
    ∀ funcValue,
      default [] (JSMap.get m funcValue) =
        segmentOf funcValue (initialState [] ∅)
        ++ match JSMap.get (additionalFunctionValueInfos exampleAdditional) funcValue with
           | Some info =>
               concat (map (scopeAccess exampleServices funcValue) (modifiedScopes info))
           | None => []
           end.
Proof.
  apply (modified_bindings_segments exampleAdditional exampleServices (initialState [] ∅)).
  - apply (bool_decide_unpack _). vm_compute. exact I.
  - repeat constructor.
Defined.

Lemma additional_function_definition_witness :
  (processAdditionalFunction exampleAdditional exampleServices [(5, [sourceStatement 53])]
     (5, exampleAdditionalInfo) (initialState [] ∅)).1 = Returned tt ∧
  JSMap.get (funcNodes (processAdditionalFunction exampleAdditional exampleServices
                          [(5, [sourceStatement 53])] (5, exampleAdditionalInfo)
                          (initialState [] ∅)).2) 5
    = Some (functionExpression [identifier "a"] (blockStatement [sourceStatement 53])).
Proof.
  destruct (additional_function_definition exampleAdditional exampleServices
              [(5, [sourceStatement 53])] 5 exampleAdditionalInfo [identifier "a"]
              [sourceStatement 53] (identifier "_5") (initialState [] ∅))
    as [Hdefined _]; [reflexivity..|].
  destruct Hdefined as (Hreturns & _ & Hnode & _); [reflexivity..|].
  split; [exact Hreturns|exact Hnode].
Defined.

Lemma naive_clone_of_plain_function_witness :
  (naiveProcessInstance exampleMixedCapture exampleServices [] 1 [identifier "a"]
     (exampleFunctionInstance 2 [("__scope_0", exampleScope)]) (initialState [] ∅)).1
    = Returned tt ∧
  JSMap.get
    (funcNodes (naiveProcessInstance exampleMixedCapture exampleServices [] 1 [identifier "a"]
                  (exampleFunctionInstance 2 [("__scope_0", exampleScope)])
                  (initialState [] ∅)).2) 2
    = Some (functionExpression [identifier "a"]
              (blockStatement
                 [expressionStatement (callExpression (identifier "__get_scope")
                                         [numericLiteral 0]);
                  sourceStatement 1; expressionStatement (numericLiteral 2)])).
Proof.
  destruct (naive_clone_of_plain_function exampleMixedCapture exampleServices [] 1
              [identifier "a"] (exampleFunctionInstance 2 [("__scope_0", exampleScope)])
              [(100, numericLiteral 2)] [] [identifier "a"]
              [sourceStatement 1; expressionStatement (numericLiteral 2)]
              (identifier "_2") (initialState [] ∅))
    as (Hreturns & _ & Hnode & _); [reflexivity..|].
  split; [exact Hreturns|exact Hnode].
Defined.

Lemma factory_declaration_witness :
  ∃ s',
    factoryProcessInstances exampleFactory exampleServices (exampleInfos exampleFactory) 1
      exampleFunctionInfo [identifier "a"]
      [exampleFunctionInstance 1 []; exampleFunctionInstance 2 []]
      (exampleConstructed exampleFactory) = (Returned tt, s') ∧
    ∃ factoryInfo factoryIdentifier identifierReplacements callReplacements factoryNode later,
    JSMap.get (exampleInfos exampleFactory) (tagOf exampleFactory 1) = Some factoryInfo ∧
    factoryId factoryInfo = Some factoryIdentifier ∧
    (withScopeInitialization exampleServices (exampleFunctionInstance 1 [])
       (instantiate exampleServices (exampleInfos exampleFactory) identifierReplacements
          callReplacements
          (_createFunctionExpression
             (factoryParameters exampleServices exampleFunctionInfo [identifier "a"]
                (exampleFunctionInstance 1 []) [exampleFunctionInstance 2 []]) 1))
       (exampleConstructed exampleFactory)).1 = Returned factoryNode ∧
    prelude s' = prelude (exampleConstructed exampleFactory)
                 ++ variableDeclaration factoryIdentifier factoryNode :: later ∧
    factoryNode ∈ (if Strict exampleFactory
                        (instance_functionValue (exampleFunctionInstance 1 []))
                   then strictFunctionBodies s' else unstrictFunctionBodies s').
Proof.
  exists (factoryProcessInstances exampleFactory exampleServices (exampleInfos exampleFactory)
            1 exampleFunctionInfo [identifier "a"]
            [exampleFunctionInstance 1 []; exampleFunctionInstance 2 []]
            (exampleConstructed exampleFactory)).2.
  split; [vm_compute; reflexivity|].
  apply (factory_declaration exampleFactory exampleServices
           (exampleInfos exampleFactory) 1 exampleFunctionInfo [identifier "a"]
           (exampleFunctionInstance 1 []) [exampleFunctionInstance 2 []]
           (exampleConstructed exampleFactory)).
  - vm_compute. reflexivity.
  - apply (bool_decide_unpack _). vm_compute. exact I.
Defined.

End ResidualFunctions.
